(** * pydmc._count: index iterators, permutation counters and small sorters

    A shallow embedding of [src/_count.pyx] (Pyrex).  C [int] values are
    integers in [Z]; the only arithmetic the module performs on them
    ([limits[i] - 1], [T[im] + increments[i]], [T[g] + 1]) is written with the
    32-bit wrap-around made explicit.  Sequence lengths and loop counters are
    natural numbers: on the Python versions Pyrex targets a sequence length is
    a C [int], and every counter of the module stays between [0] and such a
    length.  The arguments [limits], [index_map] and [increments] are taken at
    their C type, after the conversion of each Python element to [int].

    A cell of an [_IntArray] is [None] until it is written: [PyMem_Malloc]
    hands out uninitialised memory.  Reading such a cell, or reading or
    writing outside the array, is undefined in C; the model stops with
    [Undef] there and says nothing more. *)

From Stdlib Require Import String.
From Stdlib Require Import ZArith List Lia Bool Arith Permutation Sorted.
Import ListNotations.
Open Scope Z_scope.

(** ** Exceptions and results *)

Inductive exn : Type :=
| TypeError
| IndexError
| ValueError (im : Z)
| StopIteration.

Inductive result (A : Type) : Type :=
| Ok (a : A)
| Raise (e : exn)
| Undef.

Arguments Ok {A} a.
Arguments Raise {A} e.
Arguments Undef {A}.

Definition bind {A B : Type} (m : result A) (f : A -> result B) : result B :=
  match m with
  | Ok a => f a
  | Raise e => Raise e
  | Undef => Undef
  end.

Notation "x <- m ;; k" := (bind m (fun x => k))
  (at level 61, m at next level, right associativity).

(** ** C [int] *)

Definition int_min : Z := - 2 ^ 31.
Definition int_max : Z := 2 ^ 31 - 1.

Definition wrap (z : Z) : Z := (z + 2 ^ 31) mod 2 ^ 32 - 2 ^ 31.

(** ** [_IntArray] *)

Definition IntArray : Type := list (option Z).

(** [_IntArray.__init__]: [length] uninitialised cells. *)
Definition IntArray_new (length : nat) : IntArray := repeat None length.

Fixpoint upd {A : Type} (i : nat) (v : A) (l : list A) : list A :=
  match l, i with
  | [], _ => []
  | _ :: l', O => v :: l'
  | x :: l', S i' => x :: upd i' v l'
  end.

(** [a.data[i]] as an rvalue. *)
Definition rd (a : IntArray) (i : nat) : result Z :=
  match nth_error a i with
  | Some (Some v) => Ok v
  | _ => Undef
  end.

(** [a.data[i] = v]. *)
Definition wr (a : IntArray) (i : nat) (v : Z) : result IntArray :=
  if (i <? length a)%nat then Ok (upd i (Some v) a) else Undef.

(** [to_intarray]: a fully initialised copy of [sequence]. *)
Definition to_intarray (sequence : list Z) : IntArray := map Some sequence.

(** [_IntArray.map_to_tuple] on an [objs] that is a tuple (both iterators
    store [PySequence_Tuple(objs)], so the [TypeError] branch is dead for
    them): [PyTuple_GetItem] answers [NULL] outside [0 <= n < len(objs)]. *)
Fixpoint map_to_tuple {A : Type} (data : IntArray) (objs : list A)
  : result (list A) :=
  match data with
  | [] => Ok []
  | c :: data' =>
      match c with
      | None => Undef
      | Some n =>
          if n <? 0 then Raise IndexError
          else match nth_error objs (Z.to_nat n) with
               | None => Raise IndexError
               | Some o => t <- map_to_tuple data' objs ;; Ok (o :: t)
               end
      end
  end.

(** [for i from c > i >= 0: if test(i): break] with its [else] clause:
    [Some i] when the loop breaks at [i], [None] when it runs to the end. *)
Fixpoint scan_down (test : nat -> result bool) (c : nat) : result (option nat) :=
  match c with
  | O => Ok None
  | S i => b <- test i ;; if b then Ok (Some i) else scan_down test i
  end.

(** Successive pulls of an iterator: the state and the outcome after each. *)
Fixpoint pulls {S O : Type} (pull : S -> S * O) (m : nat) (st : S)
  : list (S * O) :=
  match m with
  | O => []
  | Datatypes.S m' => let so := pull st in so :: pulls pull m' (fst so)
  end.

(** ** MultisetPermutationCounter *)

Section Counters.
Variable L : Type.
(** Python's [==] on the labels. *)
Variable eq_op : L -> L -> bool.

Definition count_permutations2 (l0 l1 : L) : Z :=
  if eq_op l0 l1 then 1 else 2.

Definition count_permutations3 (l0 l1 l2 : L) : Z :=
  if eq_op l0 l1 then
    if eq_op l1 l2 then 1 else 3
  else
    if eq_op l1 l2 then 3
    else if eq_op l0 l2 then 1
    else 6.
End Counters.

Arguments count_permutations2 {L} eq_op l0 l1.
Arguments count_permutations3 {L} eq_op l0 l1 l2.

(** ** FixedAritySorter *)

Definition sort2_int (a b : Z) : Z * Z :=
  if a >? b then (b, a) else (a, b).

Definition sort3_int (s0 s1 s2 : Z) : Z * Z * Z :=
  if s0 >? s2 then
    let '(s0, s2) := (s2, s0) in
    if s1 >? s2 then
      let '(s1, s2) := (s2, s1) in (s0, s1, s2)
    else (s0, s1, s2)
  else if s0 >? s1 then
    let '(s0, s1) := (s1, s0) in (s0, s1, s2)
  else (s0, s1, s2).

Definition sort4_int (i0 i1 i2 i3 : Z) : Z * Z * Z * Z :=
  let '(s1, s3) := if i1 >? i3 then (i3, i1) else (i1, i3) in
  let '(s0, s2) := if i0 >? i2 then (i2, i0) else (i0, i2) in
  let '(s2, s3) := if s2 >? s3 then (s3, s2) else (s2, s3) in
  let '(s0, s1) := if s0 >? s1 then (s1, s0) else (s0, s1) in
  let '(s1, s2) := if s1 >? s2 then (s2, s1) else (s1, s2) in
  (s0, s1, s2, s3).

(** The sorters applied to a tuple, for composing them. *)
Definition sort2_tuple (x : Z * Z) : Z * Z :=
  let '(a, b) := x in sort2_int a b.
Definition sort3_tuple (x : Z * Z * Z) : Z * Z * Z :=
  let '(a, b, c) := x in sort3_int a b c.
Definition sort4_tuple (x : Z * Z * Z * Z) : Z * Z * Z * Z :=
  let '(a, b, c, d) := x in sort4_int a b c d.

(** ** LexicographicIterator *)

Module LexicographicIterator.

Record t (A : Type) : Type := mk {
  k : nat;
  generator_state : Z;
  objs : list A;
  T : IntArray;
  limits : IntArray;
  index_map : IntArray;
  increments : IntArray
}.

Arguments mk {A}.
Arguments k {A}.
Arguments generator_state {A}.
Arguments objs {A}.
Arguments T {A}.
Arguments limits {A}.
Arguments index_map {A}.
Arguments increments {A}.

Definition set_T {A} (self : t A) (T' : IntArray) : t A :=
  mk (k self) (generator_state self) (objs self) T'
     (limits self) (index_map self) (increments self).

Definition set_generator_state {A} (self : t A) (s : Z) : t A :=
  mk (k self) s (objs self) (T self)
     (limits self) (index_map self) (increments self).

(** The second loop of [__init__], from position [i], [cnt] positions to
    go: negative entries become [-1], an entry above [k] raises. *)
Fixpoint store_index_map (k : nat) (index_map : list Z) (cnt i : nat)
         (a : IntArray) : result IntArray :=
  match cnt with
  | O => Ok a
  | S cnt' =>
      match nth_error index_map i with
      | None => Raise IndexError
      | Some im =>
          if im <? 0 then
            a' <- wr a i (-1) ;; store_index_map k index_map cnt' (S i) a'
          else if im >? Z.of_nat k then Raise (ValueError im)
          else
            a' <- wr a i im ;; store_index_map k index_map cnt' (S i) a'
      end
  end.

(** The loop of [rollover_next], from position [i], [cnt] positions to go. *)
Fixpoint rollover_loop (index_map increments : IntArray) (cnt i : nat)
         (T : IntArray) : result IntArray :=
  match cnt with
  | O => Ok T
  | S cnt' =>
      im <- rd index_map i ;;
      T' <- (if im <? 0 then wr T i 0
             else
               v <- rd T (Z.to_nat im) ;;
               inc <- rd increments i ;;
               wr T i (wrap (v + inc))) ;;
      rollover_loop index_map increments cnt' (S i) T'
  end.

Definition rollover_next {A} (self : t A) (g : nat) : result (t A) :=
  T' <- rollover_loop (index_map self) (increments self)
                      (k self - (g + 1)) (g + 1) (T self) ;;
  Ok (set_T self T').

Definition __init__ {A} (objs : list A) (limits index_map increments : list Z)
  : result (t A) :=
  let limits := to_intarray limits in
  let k := length limits in
  let limits := map (option_map (fun l => wrap (l - 1))) limits in
  index_map <- store_index_map k index_map k 0 (IntArray_new k) ;;
  let increments := to_intarray increments in
  T0 <- wr (IntArray_new k) 0 0 ;;
  self <- rollover_next (mk k 0 objs T0 limits index_map increments) 0 ;;
  Ok (set_generator_state self 0).

Definition _current {A} (self : t A) : result (list A) :=
  map_to_tuple (T self) (objs self).

Definition _next {A} (self : t A) : result (t A) :=
  og <- scan_down (fun g =>
                     Tg <- rd (T self) g ;;
                     lg <- rd (limits self) g ;;
                     Ok (Tg <? lg)) (k self) ;;
  match og with
  | None => Ok (set_generator_state self 2)
  | Some g =>
      Tg <- rd (T self) g ;;
      T' <- wr (T self) g (wrap (Tg + 1)) ;;
      rollover_next (set_T self T') g
  end.

Definition __next__ {A} (self : t A) : t A * result (list A) :=
  if generator_state self =? 0 then
    let self := set_generator_state self 1 in (self, _current self)
  else if generator_state self =? 2 then (self, Raise StopIteration)
  else
    match _next self with
    | Ok self' =>
        if generator_state self' =? 2 then (self', Raise StopIteration)
        else (self', _current self')
    | Raise e => (self, Raise e)
    | Undef => (self, Undef)
    end.

End LexicographicIterator.

(** ** PermutationIterator *)

Module PermutationIterator.

Record t (A : Type) : Type := mk {
  objs : list A;
  perm : IntArray;
  generator_state : Z
}.

Arguments mk {A}.
Arguments objs {A}.
Arguments perm {A}.
Arguments generator_state {A}.

Definition set_perm {A} (self : t A) (p : IntArray) : t A :=
  mk (objs self) p (generator_state self).

Definition set_generator_state {A} (self : t A) (s : Z) : t A :=
  mk (objs self) (perm self) s.

(** The loop of [__init__]: [perm.data[i] = i]. *)
Fixpoint fill_identity (cnt i : nat) (a : IntArray) : result IntArray :=
  match cnt with
  | O => Ok a
  | S cnt' => a' <- wr a i (Z.of_nat i) ;; fill_identity cnt' (S i) a'
  end.

Definition __init__ {A} (objs : list A) : result (t A) :=
  let n := length objs in
  perm <- fill_identity n 0 (IntArray_new n) ;;
  Ok (mk objs perm 0).

Definition _current {A} (self : t A) : result (list A) :=
  map_to_tuple (perm self) (objs self).

(** Step 4 of [_next]: [for k from i+1 <= k < n], [cnt] rounds to go. *)
Fixpoint reverse_loop (n i cnt k : nat) (perm : IntArray) : result IntArray :=
  match cnt with
  | O => Ok perm
  | S cnt' =>
      let kc := (n - k + i)%nat in
      if (kc <=? k)%nat then Ok perm
      else
        pi <- rd perm k ;;
        pkc <- rd perm kc ;;
        perm1 <- wr perm k pkc ;;
        perm2 <- wr perm1 kc pi ;;
        reverse_loop n i cnt' (S k) perm2
  end.

Definition _next {A} (self : t A) : result (t A) :=
  let n := length (perm self) in
  let perm := perm self in
  oi <- scan_down (fun i =>
                     a <- rd perm (i + 1) ;;
                     b <- rd perm i ;;
                     Ok (a >=? b)) (n - 1) ;;
  match oi with
  | None => Ok (set_generator_state self 2)
  | Some i =>
      pi <- rd perm i ;;
      oj <- scan_down (fun j => pj <- rd perm j ;; Ok (pj >=? pi)) n ;;
      match oj with
      | None => Undef (* the loop leaves [j = -1] and [perm[-1]] is read *)
      | Some j =>
          pj <- rd perm j ;;
          perm1 <- wr perm i pj ;;
          perm2 <- wr perm1 j pi ;;
          perm3 <- reverse_loop n i (n - (i + 1)) (i + 1) perm2 ;;
          Ok (set_perm self perm3)
      end
  end.

Definition __next__ {A} (self : t A) : t A * result (list A) :=
  if generator_state self =? 0 then
    let self :=
      if (length (perm self) =? 1)%nat then set_generator_state self 2
      else set_generator_state self 1 in
    (self, _current self)
  else if generator_state self =? 2 then (self, Raise StopIteration)
  else
    match _next self with
    | Ok self' =>
        if generator_state self' =? 2 then (self', Raise StopIteration)
        else (self', _current self')
    | Raise e => (self, Raise e)
    | Undef => (self, Undef)
    end.

End PermutationIterator.

Definition abc : list string := ["a"; "b"; "c"]%string.
Definition abcd : list string := ["a"; "b"; "c"; "d"]%string.

Module Lex := LexicographicIterator.
Module Perm := PermutationIterator.

(** ** Pure counterparts used by the proofs *)

(** [scan_down] over a test that cannot fail. *)
Fixpoint pscan (test : nat -> bool) (c : nat) : option nat :=
  match c with
  | O => None
  | S i => if test i then Some i else pscan test i
  end.

(** The identity index tuple [0, 1, ..., n-1]. *)
Definition iota (n : nat) : list Z := map Z.of_nat (seq 0 n).

(** [PermutationIterator.reverse_loop] on a fully initialised array. *)
Fixpoint rev_loop (n i cnt k : nat) (p : list Z) : list Z :=
  match cnt with
  | O => p
  | S cnt' =>
      let kc := (n - k + i)%nat in
      if (kc <=? k)%nat then p
      else rev_loop n i cnt' (S k)
                    (upd kc (nth k p 0) (upd k (nth kc p 0) p))
  end.

(** [PermutationIterator._next] on a fully initialised array: [None] when
    the state becomes exhausted. *)
Definition next_perm (p : list Z) : option (list Z) :=
  let n := length p in
  match pscan (fun i => nth (i + 1) p 0 >=? nth i p 0) (n - 1) with
  | None => None
  | Some i =>
      let pi := nth i p 0 in
      match pscan (fun j => nth j p 0 >=? pi) n with
      | None => None
      | Some j =>
          Some (rev_loop n i (n - (i + 1)) (i + 1)
                         (upd j pi (upd i (nth j p 0) p)))
      end
  end.

(** The index tuples met from [p] on, at most [fuel] steps. *)
Fixpoint orbit (next : list Z -> option (list Z)) (fuel : nat) (p : list Z)
  : list (list Z) :=
  p :: match fuel with
       | O => []
       | S fuel' =>
           match next p with
           | Some p' => orbit next fuel' p'
           | None => []
           end
       end.

(** Lexicographic order on index tuples. *)
Fixpoint lex_lt (a b : list Z) : Prop :=
  match a, b with
  | x :: a', y :: b' => x < y \/ (x = y /\ lex_lt a' b')
  | [], _ :: _ => True
  | _, [] => False
  end.

(** Number of entries of [l] below [x], and the rank of a tuple in the
    factorial number system. *)
Definition cnt_lt (x : Z) (l : list Z) : nat :=
  length (filter (fun y => y <? x) l).

Fixpoint rank (p : list Z) : nat :=
  match p with
  | [] => 0
  | x :: t => (cnt_lt x t * fact (length t) + rank t)%nat
  end.

(** Where the orbit stops. *)
Fixpoint orbit_end (next : list Z -> option (list Z)) (fuel : nat)
         (p : list Z) : list Z :=
  match fuel with
  | O => p
  | S fuel' =>
      match next p with
      | Some p' => orbit_end next fuel' p'
      | None => p
      end
  end.

(** What a pull shows: the index array after it, and its outcome. *)
Definition perm_view {A : Type} (so : Perm.t A * result (list A))
  : IntArray * result (list A) :=
  (Perm.perm (fst so), snd so).

Definition lex_view {A : Type} (so : Lex.t A * result (list A))
  : IntArray * result (list A) :=
  (Lex.T (fst so), snd so).

(** A pull that produces the tuple gathered along the index tuple [q]. *)
Definition entry {A : Type} (objs : list A) (q : list Z)
  : IntArray * result (list A) :=
  (map Some q, map_to_tuple (map Some q) objs).

(** *** k-subsets *)

(** [a, a+1, ..., a+len-1]. *)
Definition seqZ (a : Z) (len : nat) : list Z :=
  map (fun i => a + Z.of_nat i) (seq 0 len).

(** The k-subset configuration of the module's comment, over [n] items:
    [limits[i] = n-k+i+1], [index_map[i] = i-1], [inc[i] = 1]. *)
Definition subset_limits (n k : nat) : list Z :=
  map (fun i => Z.of_nat n - Z.of_nat k + Z.of_nat i + 1) (seq 0 k).
Definition subset_index_map (k : nat) : list Z :=
  map (fun i => Z.of_nat i - 1) (seq 0 k).
Definition subset_increments (k : nat) : list Z := repeat 1 k.

(** [LexicographicIterator._next] under that configuration, on an
    initialised [T] over [n] items: [None] when the state becomes
    exhausted. *)
Definition next_subset (n : Z) (t : list Z) : option (list Z) :=
  let k := length t in
  match pscan (fun g => nth g t 0 <? n - Z.of_nat k + Z.of_nat g) k with
  | None => None
  | Some g => Some (firstn g t ++ seqZ (nth g t 0 + 1) (k - g))
  end.

(** Binomial coefficients, by Pascal's rule. *)
Fixpoint binom (n k : nat) : nat :=
  match k with
  | O => 1
  | S k' =>
      match n with
      | O => 0
      | S n' => binom n' k' + binom n' k
      end
  end.

(** The strictly increasing [k]-tuples over [lo, lo+1, ..., lo+m-1], in
    lexicographic order. *)
Fixpoint combs (m : nat) (lo : Z) (k : nat) : list (list Z) :=
  match k with
  | O => [[]]
  | S k' =>
      match m with
      | O => []
      | S m' => map (cons lo) (combs m' (lo + 1) k') ++ combs m' (lo + 1) k
      end
  end.

(** Each element of the list is followed by its successor. *)
Fixpoint is_chain (next : list Z -> option (list Z)) (l : list (list Z))
  : Prop :=
  match l with
  | [] => True
  | a :: l' =>
      match l' with
      | [] => True
      | b :: _ => next a = Some b /\ is_chain next l'
      end
  end.

(** A state of the iterator built with the k-subset configuration. *)
Definition subset_state {A : Type} (n k : nat) (s : Lex.t A) : Prop :=
  Lex.k s = k /\
  Lex.limits s
  = map Some (map (fun i => Z.of_nat n - Z.of_nat k + Z.of_nat i) (seq 0 k)) /\
  Lex.index_map s = map Some (subset_index_map k) /\
  Lex.increments s = map Some (subset_increments k).

(** ** [count_permutations4] and its dict *)

Section Dict.
Variable L : Type.
(** Python's [==] on the labels (their hashes agree with it). *)
Variable eq_op : L -> L -> bool.

(** A dict from labels to integers, as an association list without
    repeated keys.  [dict_get] is [d[key]] as an rvalue, [None] standing for
    [KeyError]; [dict_set] is [d[key] = v]. *)
Fixpoint dict_get (d : list (L * Z)) (key : L) : option Z :=
  match d with
  | [] => None
  | (k', v') :: d' => if eq_op k' key then Some v' else dict_get d' key
  end.

Fixpoint dict_set (d : list (L * Z)) (key : L) (v : Z) : list (L * Z) :=
  match d with
  | [] => [(key, v)]
  | (k', v') :: d' =>
      if eq_op k' key then (k', v) :: d' else (k', v') :: dict_set d' key v
  end.

(** [d[key] = d[key] + 1]. *)
Definition dict_incr (d : list (L * Z)) (key : L) : option (list (L * Z)) :=
  match dict_get d key with
  | Some c => Some (dict_set d key (c + 1))
  | None => None
  end.

Definition count_permutations4 (l0 l1 l2 l3 : L) : option Z :=
  let counts := dict_set (dict_set (dict_set (dict_set [] l0 0) l1 0) l2 0) l3 0 in
  match dict_incr counts l0 with
  | None => None
  | Some counts =>
  match dict_incr counts l1 with
  | None => None
  | Some counts =>
  match dict_incr counts l2 with
  | None => None
  | Some counts =>
  match dict_incr counts l3 with
  | None => None
  | Some counts =>
      let lc := Z.of_nat (length counts) in
      if lc =? 1 then Some 1
      else if lc =? 2 then
        match dict_get counts l0 with
        | None => None
        | Some c => if c =? 2 then Some 6 else Some 4
        end
      else if lc =? 3 then Some 12
      else Some 24
  end end end end.

(** The multiplicity of [x] in [l], the distinct labels of [l], and the
    product of the factorials of the multiplicities. *)
Definition mult (l : list L) (x : L) : nat := length (filter (eq_op x) l).

Fixpoint dedup (l : list L) : list L :=
  match l with
  | [] => []
  | x :: l' => if existsb (eq_op x) l' then dedup l' else x :: dedup l'
  end.

Definition mult_fact_product (l : list L) : nat :=
  fold_right (fun x acc => (fact (mult l x) * acc)%nat) 1%nat (dedup l).
End Dict.

Arguments dict_get {L} eq_op d key.
Arguments dict_set {L} eq_op d key v.
Arguments dict_incr {L} eq_op d key.
Arguments count_permutations4 {L} eq_op l0 l1 l2 l3.
Arguments mult {L} eq_op l x.
Arguments dedup {L} eq_op l.
Arguments mult_fact_product {L} eq_op l.

(** ** All arrangements of a list *)

(** [x] put at every position of [l]. *)
Fixpoint inserts (x : Z) (l : list Z) : list (list Z) :=
  match l with
  | [] => [[x]]
  | y :: l' => (x :: y :: l') :: map (cons y) (inserts x l')
  end.

Fixpoint all_perms (l : list Z) : list (list Z) :=
  match l with
  | [] => [[]]
  | x :: l' => flat_map (inserts x) (all_perms l')
  end.

(** ** LexicographicIterator on initialised arrays *)

(** What [__init__] stores: every limit decremented, every negative
    [index_map] entry as [-1]. *)
Definition stored_limits (limits : list Z) : list Z :=
  map (fun l => wrap (l - 1)) limits.

Definition stored_index_map (index_map : list Z) : list Z :=
  map (fun im => if im <? 0 then -1 else im) index_map.

(** The value [rollover_next] writes at position [i] when the array
    holds [t]. *)
Definition rolled (im inc t : list Z) (i : nat) : Z :=
  let m := nth i im 0 in
  if m <? 0 then 0 else wrap (nth (Z.to_nat m) t 0 + nth i inc 0).

(** [rollover_next] over [cnt] positions that follow the prefix [pre], every
    position referring to an earlier one. *)
Fixpoint extend (im inc : list Z) (cnt : nat) (pre : list Z) : list Z :=
  match cnt with
  | O => pre
  | S cnt' => extend im inc cnt' (pre ++ [rolled im inc pre (length pre)])
  end.

(** [LexicographicIterator._next] on initialised arrays whose [index_map]
    refers backwards: [None] when the state becomes exhausted. *)
Definition next_lex (lim im inc t : list Z) : option (list Z) :=
  let k := length t in
  match pscan (fun g => nth g t 0 <? nth g lim 0) k with
  | None => None
  | Some g =>
      Some (extend im inc (k - (g + 1))
                   (firstn g t ++ [wrap (nth g t 0 + 1)]))
  end.

(** Every entry of [im] is negative or the index of an earlier position. *)
Definition backward (im : list Z) : Prop :=
  forall i, (i < length im)%nat -> nth i im 0 < Z.of_nat i.

(** [inc] has an entry wherever [im] refers to a position. *)
Definition inc_covers (im inc : list Z) : Prop :=
  forall i, (i < length im)%nat -> 0 <= nth i im 0 -> (i < length inc)%nat.

(** A state whose configuration arrays are initialised with [lim], [im]
    and [inc], over [length lim] positions. *)
Definition lex_state {A : Type} (lim im inc : list Z) (s : Lex.t A) : Prop :=
  Lex.k s = length lim /\
  Lex.limits s = map Some lim /\
  Lex.index_map s = map Some im /\
  Lex.increments s = map Some inc /\
  length im = length lim.

(** A configuration whose rollovers stay below the limits: every limit is
    positive, and a position that refers to position [m] has a non-negative
    increment that fits between the two limits. *)
Definition well_bounded (limits index_map increments : list Z) : Prop :=
  forall i, (i < length limits)%nat ->
    1 <= nth i limits 0 <= int_max /\
    (0 <= nth i index_map 0 ->
     0 <= nth i increments 0 /\
     nth (Z.to_nat (nth i index_map 0)) limits 0 + nth i increments 0
     <= nth i limits 0).

(** Every index is between [0] and the stored limit of its position. *)
Definition within (lim t : list Z) : Prop :=
  forall i, (i < length lim)%nat -> 0 <= nth i t 0 <= nth i lim 0.

(** *** Cartesian products and k-multisets *)

(** The successor of an odometer whose position [i] runs over
    [0 .. limits[i]-1]. *)
Fixpoint next_odo (limits t : list Z) : option (list Z) :=
  match limits, t with
  | l :: limits', x :: t' =>
      match next_odo limits' t' with
      | Some t'' => Some (x :: t'')
      | None =>
          if x + 1 <? l then Some ((x + 1) :: repeat 0 (length t')) else None
      end
  | _, _ => None
  end.

(** All tuples with [0 <= t[i] < limits[i]], in lexicographic order, and
    their number. *)
Fixpoint prod_tuples (limits : list Z) : list (list Z) :=
  match limits with
  | [] => [[]]
  | l :: limits' =>
      flat_map (fun x => map (cons x) (prod_tuples limits'))
               (seqZ 0 (Z.to_nat l))
  end.

Definition prod_limits (limits : list Z) : nat :=
  fold_right (fun l acc => (Z.to_nat l * acc)%nat) 1%nat limits.

(** The successor of a non-decreasing tuple over [0 .. n-1]. *)
Fixpoint next_mset (n : Z) (t : list Z) : option (list Z) :=
  match t with
  | [] => None
  | x :: t' =>
      match next_mset n t' with
      | Some t'' => Some (x :: t'')
      | None =>
          if x + 1 <? n then Some (repeat (x + 1) (S (length t'))) else None
      end
  end.

(** The non-decreasing [k]-tuples over [lo, lo+1, ..., lo+m-1], in
    lexicographic order. *)
Fixpoint msets (m : nat) (lo : Z) : nat -> list (list Z) :=
  fix over (k : nat) : list (list Z) :=
    match k with
    | O => [[]]
    | S k' =>
        match m with
        | O => []
        | S m' => map (cons lo) (over k') ++ msets m' (lo + 1) k
        end
    end.

(** The k-multiset configuration of the module's comment, over [n] items:
    [limits[i] = n], [index_map[i] = i-1], [inc[i] = 0]. *)
Definition multiset_limits (n k : nat) : list Z := repeat (Z.of_nat n) k.
Definition multiset_increments (k : nat) : list Z := repeat 0 k.

(** The value of an index tuple read as a mixed-radix number whose
    position [i] has the digits [0 .. lim[i]], and the number of such
    numbers. *)
Fixpoint radix_weight (lim : list Z) : Z :=
  match lim with
  | [] => 1
  | l :: lim' => (l + 1) * radix_weight lim'
  end.

Fixpoint radix_value (lim t : list Z) : Z :=
  match lim, t with
  | l :: lim', x :: t' => x * radix_weight lim' + radix_value lim' t'
  | _, _ => 0
  end.

(** * Proofs *)

(** ** Counters *)

Lemma count_permutations3_all_equal (a : Z) :
  count_permutations3 Z.eqb a a a = 1.
Proof. unfold count_permutations3. now rewrite Z.eqb_refl. Qed.

Lemma count_permutations3_leading_pair (a b : Z) :
  a <> b -> count_permutations3 Z.eqb a a b = 3.
Proof.
  intros H. unfold count_permutations3. rewrite Z.eqb_refl.
  now apply Z.eqb_neq in H as ->.
Qed.

Lemma count_permutations3_trailing_pair (a b : Z) :
  a <> b -> count_permutations3 Z.eqb a b b = 3.
Proof.
  intros H. unfold count_permutations3. rewrite Z.eqb_refl.
  now apply Z.eqb_neq in H as ->.
Qed.

Lemma count_permutations3_distinct (a b c : Z) :
  a <> b -> b <> c -> a <> c -> count_permutations3 Z.eqb a b c = 6.
Proof.
  intros H1 H2 H3. unfold count_permutations3.
  apply Z.eqb_neq in H1 as ->. apply Z.eqb_neq in H2 as ->.
  now apply Z.eqb_neq in H3 as ->.
Qed.

(** C5: when the equal pair sits at the two outer positions the 3-arity
    counter answers 1, whatever the middle label is; for two distinct values
    the claim asks for 3. *)
Theorem count_permutations3_outer_pair (a b : Z) :
  count_permutations3 Z.eqb a b a = 1.
Proof.
  unfold count_permutations3. rewrite Z.eqb_refl.
  destruct (Z.eqb_spec a b) as [->|Hab].
  - now rewrite Z.eqb_refl.
  - rewrite (proj2 (Z.eqb_neq b a)); [reflexivity | congruence].
Qed.

(** ** Sorters *)

Ltac perm_small :=
  match goal with
  | |- Permutation [] [] => apply perm_nil
  | |- Permutation (?a :: ?l) (?a :: ?l') => apply perm_skip; perm_small
  | |- Permutation (?a :: ?l) (?b :: ?a :: ?l') =>
      apply (Permutation_cons_app [b] l'); cbn; perm_small
  | |- Permutation (?a :: ?l) (?b :: ?c :: ?a :: ?l') =>
      apply (Permutation_cons_app [b; c] l'); cbn; perm_small
  | |- Permutation (?a :: ?l) (?b :: ?c :: ?d :: ?a :: ?l') =>
      apply (Permutation_cons_app [b; c; d] l'); cbn; perm_small
  end.

Ltac gtb_cases :=
  repeat match goal with
         | |- context [?a >? ?b] =>
             rewrite (Z.gtb_ltb a b); destruct (Z.ltb_spec b a); cbn
         end.

(** [sort2_int] returns its two arguments in ascending order. *)
Lemma sort2_int_sorted (a b : Z) :
  let '(x, y) := sort2_int a b in x <= y /\ Permutation [a; b] [x; y].
Proof.
  unfold sort2_int. gtb_cases; split; try lia.
  - apply perm_swap.
  - apply Permutation_refl.
Qed.

(** Sorting a pair twice with [sort2_int] is sorting it once. *)
Lemma sort2_int_idempotent (x : Z * Z) :
  sort2_tuple (sort2_tuple x) = sort2_tuple x.
Proof.
  destruct x as [a b]. unfold sort2_tuple, sort2_int.
  gtb_cases; try reflexivity; try lia; unfold sort2_int; gtb_cases;
    try reflexivity; lia.
Qed.

Lemma sort4_int_ascending (i0 i1 i2 i3 : Z) :
  let '(s0, s1, s2, s3) := sort4_int i0 i1 i2 i3 in
  s0 <= s1 /\ s1 <= s2 /\ s2 <= s3.
Proof. unfold sort4_int. gtb_cases; lia. Qed.

Lemma sort4_int_permutation (i0 i1 i2 i3 : Z) :
  let '(s0, s1, s2, s3) := sort4_int i0 i1 i2 i3 in
  Permutation [i0; i1; i2; i3] [s0; s1; s2; s3].
Proof. unfold sort4_int. gtb_cases; perm_small. Qed.

Lemma sort4_int_fixes_ascending (a b c d : Z) :
  a <= b -> b <= c -> c <= d -> sort4_int a b c d = (a, b, c, d).
Proof. intros. unfold sort4_int. gtb_cases; first [reflexivity | lia]. Qed.

(** Sorting a 4-tuple twice with [sort4_int] is sorting it once. *)
Lemma sort4_int_idempotent (x : Z * Z * Z * Z) :
  sort4_tuple (sort4_tuple x) = sort4_tuple x.
Proof.
  destruct x as [[[a b] c] d]. unfold sort4_tuple at 2 3.
  pose proof (sort4_int_ascending a b c d) as H.
  destruct (sort4_int a b c d) as [[[s0 s1] s2] s3].
  cbn. apply sort4_int_fixes_ascending; lia.
Qed.

(** C6: [sort3_int] leaves (3, 1, 2) as (2, 1, 3), which is not ascending;
    the claim asks for (1, 2, 3). *)
Theorem sort3_int_3_1_2 : sort3_int 3 1 2 = (2, 1, 3).
Proof. reflexivity. Qed.

(** C7: a second pass of [sort3_int] over its own answer to (3, 1, 2)
    changes it, so the 3-arity sorter is not idempotent there. *)
Theorem sort3_int_second_pass_differs :
  sort3_tuple (3, 1, 2) = (2, 1, 3) /\
  sort3_tuple (sort3_tuple (3, 1, 2)) = (1, 2, 3).
Proof. split; reflexivity. Qed.

(** ** LexicographicIterator: construction *)

Lemma upd_length {A : Type} (i : nat) (v : A) (l : list A) :
  length (upd i v l) = length l.
Proof.
  revert i; induction l as [|x l IH]; intros [|i]; cbn; auto.
Qed.

Lemma wr_Ok (a : IntArray) (i : nat) (v : Z) :
  (i < length a)%nat -> wr a i v = Ok (upd i (Some v) a).
Proof.
  intros H. unfold wr. now apply Nat.ltb_lt in H as ->.
Qed.

Lemma IntArray_new_length (n : nat) : length (IntArray_new n) = n.
Proof. apply repeat_length. Qed.

Lemma store_index_map_ValueError (k : nat) (index_map : list Z) :
  forall (cnt i : nat) (a : IntArray),
    (i + cnt <= length a)%nat ->
    (exists im, Lex.store_index_map k index_map cnt i a = Raise (ValueError im))
    <->
    (exists j im, (i <= j < i + cnt)%nat /\
                  nth_error index_map j = Some im /\ im > Z.of_nat k).
Proof.
  induction cnt as [|cnt IH]; intros i a Hlen; cbn.
  - split.
    + intros [im H]; discriminate.
    + intros (j & im & Hj & _); lia.
  - destruct (nth_error index_map i) as [im|] eqn:Him.
    + assert (Hstep : forall v,
                 (exists im0, (a' <- wr a i v ;;
                               Lex.store_index_map k index_map cnt (S i) a')
                              = Raise (ValueError im0))
                 <-> (exists j im0, (S i <= j < S i + cnt)%nat /\
                        nth_error index_map j = Some im0 /\ im0 > Z.of_nat k)).
      { intros v. rewrite wr_Ok by lia. cbn.
        apply IH. rewrite upd_length. lia. }
      destruct (Z.ltb_spec im 0) as [Hneg|Hnn].
      * rewrite Hstep. split.
        -- intros (j & im0 & Hj & H1 & H2). exists j, im0. repeat split; auto; lia.
        -- intros (j & im0 & Hj & H1 & H2).
           assert (j <> i) by (intros ->; rewrite Him in H1; inversion H1; lia).
           exists j, im0. repeat split; auto; lia.
      * rewrite Z.gtb_ltb. destruct (Z.ltb_spec (Z.of_nat k) im) as [Hgt|Hle].
        -- split.
           ++ intros _. exists i, im. repeat split; auto; lia.
           ++ intros _. now exists im.
        -- rewrite Hstep. split.
           ++ intros (j & im0 & Hj & H1 & H2). exists j, im0.
              repeat split; auto; lia.
           ++ intros (j & im0 & Hj & H1 & H2).
              assert (j <> i) by (intros ->; rewrite Him in H1; inversion H1; lia).
              exists j, im0. repeat split; auto; lia.
    + split.
      * intros [im H]; discriminate.
      * intros (j & im & Hj & H1 & _). exfalso.
        apply nth_error_None in Him.
        assert (nth_error index_map j = None) by (apply nth_error_None; lia).
        congruence.
Qed.

Lemma wr_no_raise (a : IntArray) (i : nat) (v : Z) (e : exn) :
  wr a i v <> Raise e.
Proof. unfold wr. destruct (i <? length a)%nat; discriminate. Qed.

Lemma rd_no_raise (a : IntArray) (i : nat) (e : exn) : rd a i <> Raise e.
Proof.
  unfold rd. destruct (nth_error a i) as [[v|]|]; discriminate.
Qed.

Lemma rollover_loop_no_raise (im inc : IntArray) (e : exn) :
  forall (cnt i : nat) (T : IntArray),
    Lex.rollover_loop im inc cnt i T <> Raise e.
Proof.
  induction cnt as [|cnt IH]; intros i T; cbn; [discriminate|].
  destruct (rd im i) as [m| |] eqn:E1; cbn; try discriminate.
  { destruct (m <? 0).
    - destruct (wr T i 0) as [T'| |] eqn:E2; cbn; try discriminate.
      + apply IH.
      + now apply wr_no_raise in E2.
    - destruct (rd T (Z.to_nat m)) as [v| |] eqn:E3; cbn; try discriminate.
      + destruct (rd inc i) as [c| |] eqn:E4; cbn; try discriminate.
        * destruct (wr T i (wrap (v + c))) as [T'| |] eqn:E2; cbn;
            try discriminate.
          -- apply IH.
          -- now apply wr_no_raise in E2.
        * now apply rd_no_raise in E4.
      + now apply rd_no_raise in E3. }
  now apply rd_no_raise in E1.
Qed.

Lemma lex_init_raise {A : Type} (objs : list A) (limits index_map increments : list Z)
      (e : exn) :
  Lex.__init__ objs limits index_map increments = Raise e <->
  Lex.store_index_map (length limits) index_map (length limits) 0
                      (IntArray_new (length limits)) = Raise e.
Proof.
  unfold Lex.__init__, to_intarray. rewrite length_map.
  destruct (Lex.store_index_map _ _ _ _ _) as [im| |]; cbn;
    [|split; intros H; inversion H; reflexivity|split; discriminate].
  split; [|discriminate]. intros H. exfalso.
  destruct (wr _ 0 0) as [T0| |] eqn:E0; cbn in H; try discriminate.
  - unfold Lex.rollover_next in H. cbn in H.
    destruct (Lex.rollover_loop _ _ _ _ _) as [T'| |] eqn:E1; cbn in H;
      try discriminate.
    inversion H; subst. now apply rollover_loop_no_raise in E1.
  - inversion H; subst. now apply wr_no_raise in E0.
Qed.

(** C8: construction raises [ValueError] exactly when one of the first [k]
    entries of [index_map] is greater than [k], the length of [limits]; an
    entry equal to [k] passes, as in [index_map = (2, 0)] over two
    positions. *)
Theorem lex_init_ValueError_iff {A : Type} (objs : list A)
        (limits index_map increments : list Z) :
  ((exists im, Lex.__init__ objs limits index_map increments
               = Raise (ValueError im))
   <->
   (exists i im, (i < length limits)%nat /\
                 nth_error index_map i = Some im /\
                 im > Z.of_nat (length limits)))
  /\
  (exists s, Lex.__init__ abc [3; 3] [2; 0] [0; 1] = Ok s
             /\ Lex.index_map s = [Some 2; Some 0]).
Proof.
  assert (Hlen : (0 + length limits
                  <= length (IntArray_new (length limits)))%nat)
    by (rewrite IntArray_new_length; lia).
  pose proof (store_index_map_ValueError (length limits) index_map
                (length limits) 0 _ Hlen) as Hs.
  split.
  - split.
    + intros [im H]. apply lex_init_raise in H.
      destruct (proj1 Hs (ex_intro _ im H)) as (j & im' & Hj & H1).
      exists j, im'. split; [lia|exact H1].
    + intros (i & im & Hi & H1).
      destruct (proj2 Hs) as [im' H].
      { exists i, im. split; [lia|exact H1]. }
      exists im'. apply lex_init_raise. exact H.
  - eexists. split; reflexivity.
Qed.

(** An entry [index_map[i] = k] at a position [i >= 1] passes validation
    too; the initial rollover then reads [T[k]], one cell past the array,
    which raises nothing and is undefined in C. *)
Lemma lex_init_index_map_k_reads_outside :
  Lex.__init__ abc [3; 3] [-1; 2] [0; 1] = Undef.
Proof. reflexivity. Qed.

(** C9: with [limits = (0,)] construction succeeds and the first pull
    produces a tuple. *)
Lemma lex_init_zero_limit_accepted :
  exists s, Lex.__init__ ["a"%string] [0] [-1] [0] = Ok s /\
            Lex.limits s = [Some (-1)] /\
            snd (Lex.__next__ s) = Ok ["a"%string].
Proof. eexists. repeat split; reflexivity. Qed.

(** C9: construction stores every [limits[i]] decremented by one and never
    inspects it: over two limit tuples of one length, construction succeeds
    for both with the same initial index tuple, or fails for both in the
    same way. *)
Theorem lex_init_limits_not_validated {A : Type} (objs : list A)
        (limits limits' index_map increments : list Z) :
  length limits = length limits' ->
  match Lex.__init__ objs limits index_map increments,
        Lex.__init__ objs limits' index_map increments with
  | Ok s, Ok s' =>
      Lex.T s = Lex.T s' /\
      Lex.limits s = map (fun l => Some (wrap (l - 1))) limits /\
      Lex.limits s' = map (fun l => Some (wrap (l - 1))) limits'
  | Raise e, Raise e' => e = e'
  | Undef, Undef => True
  | _, _ => False
  end.
Proof.
  intros Hlen. unfold Lex.__init__, to_intarray.
  rewrite !length_map, <- Hlen.
  destruct (Lex.store_index_map _ _ _ _ _) as [im| |]; cbn; auto.
  destruct (wr _ 0 0) as [T0| |]; cbn; auto.
  unfold Lex.rollover_next; cbn.
  destruct (Lex.rollover_loop _ _ _ _ _) as [T'| |]; cbn; auto.
  rewrite !map_map. auto.
Qed.

Lemma lex_init_limits_not_validated_witness :
  match Lex.__init__ abc [0; -5] [-1; 0] [0; 1],
        Lex.__init__ abc [3; 3] [-1; 0] [0; 1] with
  | Ok s, Ok s' =>
      Lex.T s = Lex.T s' /\
      Lex.limits s = map (fun l => Some (wrap (l - 1))) [0; -5] /\
      Lex.limits s' = map (fun l => Some (wrap (l - 1))) [3; 3]
  | Raise e, Raise e' => e = e'
  | Undef, Undef => True
  | _, _ => False
  end.
Proof.
  apply (lex_init_limits_not_validated abc [0; -5] [3; 3] [-1; 0] [0; 1]).
  reflexivity.
Defined.

(** ** LexicographicIterator: the scenario over three items *)

(** C4: over [('a','b','c')] with [limits = (3,3)], [index_map = (-1,0)],
    [increments = (0,1)] the first three pulls produce ab, ac, bc; the fourth
    pull rolls position 1 over to index 3 and raises [IndexError], where the
    claim asks for the end-of-sequence signal. *)
Theorem lex_scenario_fourth_pull_IndexError :
  exists s, Lex.__init__ abc [3; 3] [-1; 0] [0; 1] = Ok s /\
    map snd (pulls Lex.__next__ 4 s) =
      [Ok ["a"; "b"]; Ok ["a"; "c"]; Ok ["b"; "c"]; Raise IndexError]%string /\
    map (fun so => Lex.T (fst so)) (pulls Lex.__next__ 4 s) =
      [[Some 0; Some 1]; [Some 0; Some 2]; [Some 1; Some 2]; [Some 2; Some 3]].
Proof. eexists. repeat split; reflexivity. Qed.

(** C3: the same configuration over four items is accepted, and its fourth
    pull produces [('c','d')] from the index tuple (2, 3), whose second index
    is above the stored limit 2. *)
Theorem lex_rollover_exceeds_limit :
  exists s s', Lex.__init__ abcd [3; 3] [-1; 0] [0; 1] = Ok s /\
    nth_error (pulls Lex.__next__ 4 s) 3 = Some (s', Ok ["c"; "d"]%string) /\
    Lex.T s' = [Some 2; Some 3] /\
    Lex.limits s' = [Some 2; Some 2].
Proof. do 2 eexists. repeat split; reflexivity. Qed.

(** ** PermutationIterator over the empty sequence *)

Lemma pulls_exhausted_perm {A : Type} (s : Perm.t A) (m : nat) :
  Perm.generator_state s = 2 ->
  pulls Perm.__next__ m s = repeat (s, Raise StopIteration) m.
Proof.
  intros H.
  assert (E : Perm.__next__ s = (s, Raise StopIteration))
    by (unfold Perm.__next__; now rewrite H).
  induction m as [|m IH]; cbn; [reflexivity|].
  rewrite E. cbn. now rewrite IH.
Qed.

(** C10: over an empty item sequence construction succeeds, the first pull
    produces the empty tuple and every later pull raises [StopIteration]. *)
Theorem perm_empty_items (A : Type) (m : nat) :
  exists s, Perm.__init__ (@nil A) = Ok s /\
            map snd (pulls Perm.__next__ (S m) s)
            = Ok [] :: repeat (Raise StopIteration) m.
Proof.
  eexists. split; [reflexivity|].
  cbn. f_equal. destruct m as [|m]; [reflexivity|].
  cbn. f_equal.
  rewrite pulls_exhausted_perm by reflexivity.
  induction m as [|m IH]; cbn; [reflexivity|now rewrite IH].
Qed.

(** ** Arrays whose cells are all initialised *)

Lemma nth_error_nth_Z (p : list Z) (i : nat) :
  (i < length p)%nat -> nth_error p i = Some (nth i p 0).
Proof. intros H. now apply nth_error_nth'. Qed.

Lemma rd_init (p : list Z) (i : nat) :
  (i < length p)%nat -> rd (map Some p) i = Ok (nth i p 0).
Proof.
  intros H. unfold rd. rewrite nth_error_map, nth_error_nth_Z by exact H.
  reflexivity.
Qed.

Lemma upd_map {A B : Type} (f : A -> B) (i : nat) (v : A) (l : list A) :
  upd i (f v) (map f l) = map f (upd i v l).
Proof.
  revert i; induction l as [|x l IH]; intros [|i]; cbn; auto.
  now rewrite IH.
Qed.

Lemma wr_init (p : list Z) (i : nat) (v : Z) :
  (i < length p)%nat -> wr (map Some p) i v = Ok (map Some (upd i v p)).
Proof.
  intros H. rewrite wr_Ok by now rewrite length_map.
  now rewrite upd_map.
Qed.

Lemma scan_down_pure (test : nat -> result bool) (ptest : nat -> bool) :
  forall c : nat,
    (forall i, (i < c)%nat -> test i = Ok (ptest i)) ->
    scan_down test c = Ok (pscan ptest c).
Proof.
  induction c as [|c IH]; intros H; cbn; [reflexivity|].
  rewrite H by lia. cbn. destruct (ptest c); [reflexivity|].
  apply IH. intros i Hi. apply H. lia.
Qed.

Lemma pscan_Some (test : nat -> bool) :
  forall (c i : nat),
    pscan test c = Some i ->
    (i < c)%nat /\ test i = true /\
    forall j, (i < j < c)%nat -> test j = false.
Proof.
  induction c as [|c IH]; intros i H; cbn in H; [discriminate|].
  destruct (test c) eqn:E.
  - inversion H; subst. repeat split; auto; intros; lia.
  - destruct (IH i H) as (H1 & H2 & H3). repeat split; auto.
    intros j Hj. destruct (Nat.eq_dec j c) as [->|]; auto. apply H3. lia.
Qed.

Lemma pscan_None (test : nat -> bool) :
  forall c : nat,
    pscan test c = None -> forall j, (j < c)%nat -> test j = false.
Proof.
  induction c as [|c IH]; intros H j Hj; [lia|]. cbn in H.
  destruct (test c) eqn:E; [discriminate|].
  destruct (Nat.eq_dec j c) as [->|]; auto. apply IH; auto. lia.
Qed.

Lemma pscan_found (test : nat -> bool) :
  forall (c i : nat),
    (i < c)%nat -> test i = true -> exists j, pscan test c = Some j.
Proof.
  induction c as [|c IH]; intros i Hi Ht; [lia|]. cbn.
  destruct (test c) eqn:E; [eauto|].
  apply (IH i); auto.
  destruct (Nat.eq_dec i c) as [->|]; [congruence|lia].
Qed.

(** ** PermutationIterator: [_next] on an initialised array *)

Lemma reverse_loop_pure (n i : nat) :
  forall (cnt k : nat) (p : list Z),
    length p = n -> (i < k)%nat -> (k + cnt = n)%nat ->
    Perm.reverse_loop n i cnt k (map Some p)
    = Ok (map Some (rev_loop n i cnt k p)).
Proof.
  induction cnt as [|cnt IH]; intros k p Hlen Hik Hk; cbn; [reflexivity|].
  destruct (Nat.leb_spec (n - k + i) k) as [Hle|Hgt]; [reflexivity|].
  rewrite !rd_init by lia. cbn.
  rewrite wr_init by lia. cbn.
  rewrite wr_init by (rewrite upd_length; lia). cbn.
  apply IH; [now rewrite !upd_length|lia|lia].
Qed.

Lemma perm_next_pure {A : Type} (s : Perm.t A) (p : list Z) :
  Perm.perm s = map Some p ->
  Perm._next s = match next_perm p with
                 | Some p' => Ok (Perm.set_perm s (map Some p'))
                 | None => Ok (Perm.set_generator_state s 2)
                 end.
Proof.
  intros Hp. unfold Perm._next, next_perm. rewrite Hp, length_map.
  rewrite (scan_down_pure _ (fun i => nth (i + 1) p 0 >=? nth i p 0)).
  2:{ intros i Hi. rewrite !rd_init by lia. reflexivity. }
  cbn. destruct (pscan _ (length p - 1)) as [i|] eqn:Ei; [|reflexivity].
  apply pscan_Some in Ei as (Hi & _ & _).
  rewrite rd_init by lia. cbn.
  rewrite (scan_down_pure _ (fun j => nth j p 0 >=? nth i p 0)).
  2:{ intros j Hj. rewrite rd_init by lia. reflexivity. }
  cbn.
  destruct (pscan_found (fun j => nth j p 0 >=? nth i p 0) (length p) i)
    as [j Ej]; [lia|apply Z.geb_le; lia|].
  rewrite Ej. apply pscan_Some in Ej as (Hj & _ & _).
  rewrite rd_init by lia. cbn.
  rewrite wr_init by lia. cbn.
  rewrite wr_init by (rewrite upd_length; lia). cbn.
  rewrite reverse_loop_pure; [reflexivity| |lia|lia].
  now rewrite !upd_length.
Qed.

Lemma upd_middle {A : Type} (l1 l2 : list A) (x v : A) :
  upd (length l1) v (l1 ++ x :: l2) = l1 ++ v :: l2.
Proof. induction l1 as [|y l1 IH]; cbn; [reflexivity|now rewrite IH]. Qed.

Lemma split_at_nth (l : list Z) (i : nat) :
  (i < length l)%nat ->
  exists l1 l2, l = l1 ++ nth i l 0 :: l2 /\ length l1 = i.
Proof.
  revert i; induction l as [|x l IH]; intros i Hi; cbn in Hi; [lia|].
  destruct i as [|i].
  - exists [], l. split; reflexivity.
  - destruct (IH i) as (l1 & l2 & E & Hl); [lia|].
    exists (x :: l1), l2. cbn. split; [now rewrite <- E|now rewrite Hl].
Qed.

Lemma rev_loop_rev (n i : nat) :
  forall (m : nat) (mid pre post : list Z) (cnt k : nat),
    (length mid <= m)%nat ->
    length pre = k ->
    (length post + i + 1 = k)%nat ->
    (k + cnt = n)%nat ->
    length (pre ++ mid ++ post) = n ->
    rev_loop n i cnt k (pre ++ mid ++ post) = pre ++ rev mid ++ post.
Proof.
  induction m as [|m IH]; intros mid pre post cnt k Hm Hpre Hpost Hcnt Hn.
  - destruct mid; [|cbn in Hm; lia]. cbn in *.
    rewrite length_app in Hn.
    destruct cnt as [|cnt]; cbn; [reflexivity|].
    destruct (Nat.leb_spec (n - k + i) k); [reflexivity|lia].
  - destruct mid as [|z1 mid]; [apply (IH []); cbn; auto; lia|].
    destruct mid as [|z2 mid _] using rev_ind.
    + cbn in *. rewrite length_app in Hn. cbn in Hn.
      destruct cnt as [|cnt]; cbn; [reflexivity|].
      destruct (Nat.leb_spec (n - k + i) k); [reflexivity|lia].
    + rewrite !length_app in Hn. cbn in Hn, Hm.
      rewrite !length_app in Hn. rewrite length_app in Hm. cbn in Hn, Hm.
      destruct cnt as [|cnt]; [lia|]. cbn [rev_loop].
      destruct (Nat.leb_spec (n - k + i) k) as [|Hgt]; [lia|].
      assert (Ekc : (n - k + i)%nat = length (pre ++ z1 :: mid))
        by (rewrite length_app; cbn; lia).
      assert (Ep : pre ++ (z1 :: mid ++ [z2]) ++ post
                   = (pre ++ z1 :: mid) ++ z2 :: post)
        by (cbn; rewrite <- !app_assoc; reflexivity).
      assert (Ekc' : nth (n - k + i) (pre ++ (z1 :: mid ++ [z2]) ++ post) 0
                     = z2)
        by (rewrite Ekc, Ep; apply nth_middle).
      assert (Ek : nth k (pre ++ (z1 :: mid ++ [z2]) ++ post) 0 = z1)
        by (subst k; cbn; apply nth_middle).
      rewrite Ekc', Ek, Ekc.
      assert (E1 : upd k z2 (pre ++ (z1 :: mid ++ [z2]) ++ post)
                   = (pre ++ z2 :: mid) ++ z2 :: post).
      { subst k. cbn. rewrite upd_middle. rewrite <- !app_assoc.
        reflexivity. }
      rewrite E1.
      replace (length (pre ++ z1 :: mid)) with (length (pre ++ z2 :: mid))
        by (rewrite !length_app; reflexivity).
      rewrite upd_middle.
      replace ((pre ++ z2 :: mid) ++ z1 :: post)
        with ((pre ++ [z2]) ++ mid ++ (z1 :: post))
        by (rewrite <- !app_assoc; reflexivity).
      rewrite (IH mid (pre ++ [z2]) (z1 :: post) cnt (S k)).
      * cbn. rewrite rev_app_distr. cbn. rewrite <- !app_assoc.
        reflexivity.
      * lia.
      * rewrite length_app. cbn. lia.
      * cbn. lia.
      * lia.
      * rewrite !length_app. cbn. rewrite ?length_app. cbn. lia.
Qed.

(** ** The shape of a [next_perm] step *)

Lemma nth_past_middle (pre t : list Z) (x : Z) (m : nat) :
  nth (length pre + 1 + m) (pre ++ x :: t) 0 = nth m t 0.
Proof.
  rewrite app_nth2 by lia.
  replace (length pre + 1 + m - length pre)%nat with (S m) by lia.
  reflexivity.
Qed.

Lemma descending_nth (t : list Z) :
  (forall m, (m + 1 < length t)%nat -> nth (m + 1) t 0 < nth m t 0) ->
  StronglySorted Z.gt t.
Proof.
  intros H. apply Sorted_StronglySorted.
  { intros a b c; lia. }
  induction t as [|x t IH]; [constructor|].
  constructor.
  - apply IH. intros m Hm. apply (H (S m)). cbn. lia.
  - destruct t as [|y t]; constructor.
    specialize (H 0%nat). cbn in H. lia.
Qed.

Lemma next_perm_None (p : list Z) :
  next_perm p = None -> StronglySorted Z.gt p.
Proof.
  unfold next_perm. intros H.
  destruct (pscan _ (length p - 1)) as [i|] eqn:Ei.
  - exfalso. pose proof (pscan_Some _ _ _ Ei) as (Hi & _ & _).
    destruct (pscan_found (fun j => nth j p 0 >=? nth i p 0) (length p) i)
      as [j Ej]; [lia|apply Z.geb_le; lia|].
    rewrite Ej in H. discriminate.
  - apply descending_nth. intros m Hm.
    pose proof (pscan_None _ _ Ei m ltac:(lia)) as Hf. cbn in Hf.
    rewrite Z.geb_leb in Hf. apply Z.leb_gt in Hf. exact Hf.
Qed.

Lemma next_perm_Some (p p' : list Z) :
  next_perm p = Some p' ->
  exists pre x a y b,
    p = pre ++ x :: a ++ y :: b /\
    p' = pre ++ y :: rev (a ++ x :: b) /\
    StronglySorted Z.gt (a ++ y :: b) /\
    x <= y /\
    Forall (fun z => z < x) b.
Proof.
  unfold next_perm. intros H.
  destruct (pscan _ (length p - 1)) as [i|] eqn:Ei; [|discriminate].
  destruct (pscan _ (length p)) as [j|] eqn:Ej; [|discriminate].
  apply pscan_Some in Ei as (Hi & Ti & Di).
  apply pscan_Some in Ej as (Hj & Tj & Dj).
  cbn in Ti, Tj. apply Z.geb_le in Ti, Tj.
  assert (Hij : (i < j)%nat).
  { destruct (Nat.lt_ge_cases i j) as [|Hge]; [assumption|exfalso].
    specialize (Dj (i + 1)%nat ltac:(lia)). cbn in Dj.
    rewrite Z.geb_leb in Dj. apply Z.leb_gt in Dj. lia. }
  destruct (split_at_nth p i) as (pre & t & Ep & Lpre); [lia|].
  remember (nth i p 0) as x eqn:Ex.
  assert (Ex' : nth i p 0 = x) by congruence.
  assert (Lt : length p = (i + 1 + length t)%nat).
  { rewrite Ep at 1. rewrite length_app. cbn. lia. }
  assert (Nt : forall m, nth (i + 1 + m) p 0 = nth m t 0).
  { intros m. rewrite Ep, <- Lpre. apply nth_past_middle. }
  destruct (split_at_nth t (j - i - 1)) as (a & b & Et & La); [lia|].
  remember (nth (j - i - 1) t 0) as y eqn:Ey.
  assert (Ey' : nth j p 0 = y).
  { replace j with (i + 1 + (j - i - 1))%nat by lia. rewrite Nt. congruence. }
  assert (Ep2 : p = (pre ++ x :: a) ++ y :: b).
  { rewrite Ep at 1. rewrite Et at 1. rewrite <- app_assoc. reflexivity. }
  assert (Lpa : length (pre ++ x :: a) = j).
  { rewrite length_app. cbn. lia. }
  assert (Nb : forall m, nth (j + 1 + m) p 0 = nth m b 0).
  { intros m. rewrite Ep2, <- Lpa. apply nth_past_middle. }
  exists pre, x, a, y, b. repeat split.
  - rewrite Ep at 1. now rewrite Et at 1.
  - inversion H as [Hp']. rewrite ?Ex', ?Ey'.
    assert (E1 : upd i y p = (pre ++ y :: a) ++ y :: b).
    { rewrite Ep, Et, <- Lpre, upd_middle, <- app_assoc. reflexivity. }
    rewrite E1.
    replace j with (length (pre ++ y :: a))
      by (rewrite <- Lpa, !length_app; reflexivity).
    rewrite upd_middle.
    replace ((pre ++ y :: a) ++ x :: b)
      with ((pre ++ [y]) ++ (a ++ x :: b) ++ [])
      by (rewrite app_nil_r, <- !app_assoc; reflexivity).
    rewrite (rev_loop_rev (length p) i (length (a ++ x :: b))).
    + rewrite app_nil_r, <- app_assoc. reflexivity.
    + lia.
    + rewrite length_app. cbn. lia.
    + cbn. lia.
    + lia.
    + rewrite Ep2. rewrite !length_app. cbn. rewrite ?length_app. cbn.
      lia.
  - rewrite <- Et. apply descending_nth. intros m Hm.
    specialize (Di (i + 1 + m)%nat ltac:(lia)). cbn in Di.
    rewrite Z.geb_leb in Di. apply Z.leb_gt in Di.
    replace (i + 1 + m + 1)%nat with (i + 1 + (m + 1))%nat in Di by lia.
    now rewrite !Nt in Di.
  - lia.
  - apply Forall_nth. intros m d Hm.
    rewrite (nth_indep _ d 0 Hm).
    assert (Hlb : length p = (j + 1 + length b)%nat).
    { rewrite Ep2 at 1. rewrite length_app. cbn. lia. }
    specialize (Dj (j + 1 + m)%nat ltac:(lia)). cbn in Dj.
    rewrite Z.geb_leb in Dj. apply Z.leb_gt in Dj.
    rewrite Nb in Dj. lia.
Qed.

(** ** Sorted lists, counting and rank *)

Lemma StronglySorted_app {A : Type} (R : A -> A -> Prop) (l1 l2 : list A) :
  StronglySorted R l1 -> StronglySorted R l2 ->
  (forall a b, In a l1 -> In b l2 -> R a b) ->
  StronglySorted R (l1 ++ l2).
Proof.
  intros H1 H2 H. induction l1 as [|x l1 IH]; cbn; [assumption|].
  apply StronglySorted_inv in H1 as [H1 Hx].
  constructor.
  - apply IH; [assumption|]. intros a b Ha Hb. apply H; [now right|assumption].
  - apply Forall_app. split; [assumption|].
    apply Forall_forall. intros b Hb. apply H; [now left|assumption].
Qed.

Lemma StronglySorted_app_inv {A : Type} (R : A -> A -> Prop) (l1 l2 : list A) :
  StronglySorted R (l1 ++ l2) ->
  StronglySorted R l1 /\ StronglySorted R l2 /\
  (forall a b, In a l1 -> In b l2 -> R a b).
Proof.
  induction l1 as [|x l1 IH]; cbn; intros H.
  - repeat split; [constructor|assumption|intros a b []].
  - apply StronglySorted_inv in H as [H Hx].
    destruct (IH H) as (H1 & H2 & H3).
    apply Forall_app in Hx as [Hx1 Hx2].
    repeat split; [now constructor|assumption|].
    intros a b [<-|Ha] Hb; [|now apply H3].
    rewrite Forall_forall in Hx2. now apply Hx2.
Qed.

Lemma StronglySorted_rev_gt (l : list Z) :
  StronglySorted Z.gt l -> StronglySorted Z.lt (rev l).
Proof.
  induction 1 as [|x l Hl IH Hx]; cbn; [constructor|].
  apply StronglySorted_app; [assumption|repeat constructor|].
  intros a b Ha [<-|[]]. apply in_rev in Ha.
  rewrite Forall_forall in Hx. specialize (Hx a Ha). lia.
Qed.

Lemma cnt_lt_app (x : Z) (l1 l2 : list Z) :
  cnt_lt x (l1 ++ l2) = (cnt_lt x l1 + cnt_lt x l2)%nat.
Proof. unfold cnt_lt. now rewrite filter_app, length_app. Qed.

Lemma cnt_lt_cons (x y : Z) (l : list Z) :
  cnt_lt x (y :: l) = ((if (y <? x)%Z then 1 else 0) + cnt_lt x l)%nat.
Proof. unfold cnt_lt. cbn. now destruct (y <? x). Qed.

Lemma cnt_lt_Permutation (x : Z) (l l' : list Z) :
  Permutation l l' -> cnt_lt x l = cnt_lt x l'.
Proof.
  induction 1; rewrite ?cnt_lt_cons; lia.
Qed.

Lemma cnt_lt_all (x : Z) (l : list Z) :
  Forall (fun z => z < x) l -> cnt_lt x l = length l.
Proof.
  induction 1 as [|y l Hy _ IH]; [reflexivity|].
  rewrite cnt_lt_cons, IH. apply Z.ltb_lt in Hy as ->. reflexivity.
Qed.

Lemma cnt_lt_none (x : Z) (l : list Z) :
  Forall (fun z => x <= z) l -> cnt_lt x l = 0%nat.
Proof.
  induction 1 as [|y l Hy _ IH]; [reflexivity|].
  rewrite cnt_lt_cons, IH. apply Z.ltb_ge in Hy as ->. reflexivity.
Qed.

Lemma cnt_lt_le (x : Z) (l : list Z) : (cnt_lt x l <= length l)%nat.
Proof. apply filter_length_le. Qed.

Lemma rank_lt_fact (p : list Z) : (rank p < fact (length p))%nat.
Proof.
  induction p as [|x p IH]; cbn [rank length fact]; [cbn; lia|].
  pose proof (cnt_lt_le x p). nia.
Qed.

Lemma rank_descending (p : list Z) :
  StronglySorted Z.gt p -> (rank p + 1 = fact (length p))%nat.
Proof.
  induction 1 as [|x p Hp IH Hx]; [reflexivity|].
  cbn [rank length fact]. rewrite cnt_lt_all; [nia|].
  eapply Forall_impl; [|exact Hx]. cbn. intros; lia.
Qed.

Lemma rank_ascending (p : list Z) :
  StronglySorted Z.lt p -> rank p = 0%nat.
Proof.
  induction 1 as [|x p Hp IH Hx]; [reflexivity|].
  cbn [rank]. rewrite cnt_lt_none, IH; [reflexivity|].
  eapply Forall_impl; [|exact Hx]. cbn. intros; lia.
Qed.

Lemma rank_prefix (pre s s' : list Z) (d : nat) :
  Permutation s s' -> rank s' = (rank s + d)%nat ->
  rank (pre ++ s') = (rank (pre ++ s) + d)%nat.
Proof.
  intros HP Hr. induction pre as [|z pre IH]; cbn [app rank]; [assumption|].
  rewrite IH, !length_app, (Permutation_length HP).
  rewrite (cnt_lt_Permutation z (pre ++ s) (pre ++ s'))
    by now apply Permutation_app_head.
  lia.
Qed.

(** ** Lexicographic order *)

Lemma lex_lt_irrefl (a : list Z) : ~ lex_lt a a.
Proof.
  induction a as [|x a IH]; cbn; [tauto|]. intros [H|[_ H]]; [lia|tauto].
Qed.

Lemma lex_lt_trans (a b c : list Z) : lex_lt a b -> lex_lt b c -> lex_lt a c.
Proof.
  revert b c; induction a as [|x a IH]; intros [|y b] [|z c]; cbn; try tauto.
  intros [H1|[-> H1]] [H2|[-> H2]]; try (left; lia).
  right. split; [reflexivity|]. eapply IH; eassumption.
Qed.

Lemma lex_lt_prefix (pre s s' : list Z) :
  lex_lt s s' -> lex_lt (pre ++ s) (pre ++ s').
Proof. intros H. induction pre as [|z pre IH]; cbn; auto. Qed.

Lemma lex_sorted_strongly (l : list (list Z)) :
  Sorted lex_lt l -> StronglySorted lex_lt l.
Proof.
  apply Sorted_StronglySorted. intros a b c. apply lex_lt_trans.
Qed.

Lemma lex_sorted_NoDup (l : list (list Z)) :
  StronglySorted lex_lt l -> NoDup l.
Proof.
  induction 1 as [|a l Hl IH Ha]; constructor; [|assumption].
  intros Hin. rewrite Forall_forall in Ha.
  apply (lex_lt_irrefl a). now apply Ha.
Qed.

(** ** One [next_perm] step *)

Lemma next_perm_Permutation (p p' : list Z) :
  next_perm p = Some p' -> Permutation p p'.
Proof.
  intros H.
  destruct (next_perm_Some p p' H) as (pre & x & a & y & b & -> & -> & _).
  apply Permutation_app_head.
  rewrite <- Permutation_rev.
  rewrite <- (Permutation_middle a b y), <- (Permutation_middle a b x).
  apply perm_swap.
Qed.

Lemma next_perm_pivot_lt (pre a b : list Z) (x y : Z) :
  NoDup (pre ++ x :: a ++ y :: b) -> x <= y -> x < y.
Proof.
  intros HN Hle. apply NoDup_app_remove_l in HN.
  apply NoDup_cons_iff in HN as [Hx _].
  assert (x <> y); [|lia].
  intros ->. apply Hx. apply in_or_app. right. now left.
Qed.

Lemma next_perm_lex (p p' : list Z) :
  NoDup p -> next_perm p = Some p' -> lex_lt p p'.
Proof.
  intros HN H.
  destruct (next_perm_Some p p' H)
    as (pre & x & a & y & b & -> & -> & _ & Hxy & _).
  apply lex_lt_prefix. cbn. left.
  eapply next_perm_pivot_lt; eassumption.
Qed.

Lemma next_perm_rank (p p' : list Z) :
  NoDup p -> next_perm p = Some p' -> rank p' = (rank p + 1)%nat.
Proof.
  intros HN H.
  destruct (next_perm_Some p p' H)
    as (pre & x & a & y & b & Ep & Ep' & HS & Hxy & Hb).
  pose proof (next_perm_Permutation p p' H) as HP.
  subst p p'.
  pose proof (next_perm_pivot_lt _ _ _ _ _ HN Hxy) as Hlt.
  apply Permutation_app_inv_l in HP.
  apply rank_prefix; [assumption|].
  destruct (StronglySorted_app_inv _ _ _ HS) as (Sa & Syb & Hayb).
  apply StronglySorted_inv in Syb as [Sb Hyb].
  assert (Hay : Forall (fun z => y < z) a).
  { apply Forall_forall. intros z Hz.
    specialize (Hayb z y Hz (or_introl eq_refl)). lia. }
  assert (Sax : StronglySorted Z.gt (a ++ x :: b)).
  { apply StronglySorted_app; [assumption| |].
    - constructor; [assumption|].
      eapply Forall_impl; [|exact Hb]. cbn. intros; lia.
    - intros u v Hu [<-|Hv].
      + rewrite Forall_forall in Hay. specialize (Hay u Hu). lia.
      + apply Hayb; [assumption|now right]. }
  cbn [rank]. rewrite (rank_ascending (rev (a ++ x :: b)))
    by now apply StronglySorted_rev_gt.
  rewrite <- (cnt_lt_Permutation y _ _ (Permutation_rev (a ++ x :: b))).
  rewrite length_rev.
  rewrite !cnt_lt_app, !cnt_lt_cons.
  rewrite (cnt_lt_none y a), (cnt_lt_none x a).
  2:{ eapply Forall_impl; [|exact Hay]. cbn. intros; lia. }
  2:{ eapply Forall_impl; [|exact Hay]. cbn. intros; lia. }
  rewrite (cnt_lt_all x b Hb).
  rewrite (cnt_lt_all y b)
    by (eapply Forall_impl; [|exact Hb]; cbn; intros; lia).
  apply Z.ltb_lt in Hlt as ->.
  rewrite (proj2 (Z.ltb_ge y x)) by lia.
  pose proof (rank_descending (a ++ y :: b) HS) as Hr.
  replace (length (a ++ x :: b)) with (length (a ++ y :: b))
    by (rewrite !length_app; reflexivity).
  nia.
Qed.

(** ** Orbits *)

Section Orbit.
Variable next : list Z -> option (list Z).
Variable Inv : list Z -> Prop.
Variable R : list Z -> list Z -> Prop.
Hypothesis step : forall p p', Inv p -> next p = Some p' -> Inv p' /\ R p p'.

Lemma orbit_head (f : nat) (p : list Z) :
  exists l, orbit next f p = p :: l.
Proof. destruct f; cbn; eauto. Qed.

Lemma orbit_last (d : list Z) :
  forall (f : nat) (p : list Z),
    last (orbit next f p) d = orbit_end next f p.
Proof.
  induction f as [|f IH]; intros p; [reflexivity|].
  cbn [orbit orbit_end]. destruct (next p) as [p'|]; [|reflexivity].
  rewrite <- IH. destruct (orbit_head f p') as [l ->]. reflexivity.
Qed.

Lemma orbit_Forall :
  forall (f : nat) (p : list Z), Inv p -> Forall Inv (orbit next f p).
Proof.
  induction f as [|f IH]; intros p Hp; cbn [orbit]; [now repeat constructor|].
  destruct (next p) as [p'|] eqn:E; [|now repeat constructor].
  constructor; [assumption|]. apply IH. now apply (step p).
Qed.

Lemma orbit_Sorted :
  forall (f : nat) (p : list Z), Inv p -> Sorted R (orbit next f p).
Proof.
  induction f as [|f IH]; intros p Hp; cbn [orbit]; [now repeat constructor|].
  destruct (next p) as [p'|] eqn:E; [|now repeat constructor].
  destruct (step p p' Hp E) as [Hp' HR].
  constructor; [now apply IH|].
  destruct (orbit_head f p') as [l ->]. now constructor.
Qed.
End Orbit.

Lemma orbit_perm_length :
  forall (f : nat) (p : list Z),
    NoDup p -> (fact (length p) <= rank p + S f)%nat ->
    (rank p + length (orbit next_perm f p) = fact (length p))%nat /\
    next_perm (orbit_end next_perm f p) = None.
Proof.
  induction f as [|f IH]; intros p HN Hf; cbn [orbit orbit_end length].
  - pose proof (rank_lt_fact p) as Hr.
    split; [lia|].
    destruct (next_perm p) as [p'|] eqn:E; [exfalso|reflexivity].
    pose proof (next_perm_rank p p' HN E) as Hr'.
    pose proof (rank_lt_fact p') as Hlt.
    rewrite <- (Permutation_length (next_perm_Permutation p p' E)) in Hlt.
    lia.
  - destruct (next_perm p) as [p'|] eqn:E.
    + pose proof (next_perm_Permutation p p' E) as HP.
      pose proof (next_perm_rank p p' HN E) as Hr'.
      destruct (IH p') as [H1 H2].
      * eapply Permutation_NoDup; eassumption.
      * rewrite <- (Permutation_length HP). lia.
      * rewrite <- (Permutation_length HP) in H1. split; [lia|assumption].
    + split; [|assumption]. cbn.
      pose proof (rank_descending p (next_perm_None p E)). lia.
Qed.

(** ** Gathering along valid indices *)

Lemma map_to_tuple_Ok {A : Type} (objs : list A) (d : A) (q : list Z) :
  Forall (fun z => 0 <= z < Z.of_nat (length objs)) q ->
  map_to_tuple (map Some q) objs
  = Ok (map (fun z => nth (Z.to_nat z) objs d) q).
Proof.
  induction 1 as [|z q Hz _ IH]; cbn; [reflexivity|].
  rewrite (proj2 (Z.ltb_ge z 0)) by lia.
  rewrite (nth_error_nth' objs d) by lia.
  rewrite IH. reflexivity.
Qed.

Lemma iota_length (n : nat) : length (iota n) = n.
Proof. unfold iota. now rewrite length_map, length_seq. Qed.

Lemma iota_S (n : nat) : iota (S n) = iota n ++ [Z.of_nat n].
Proof. unfold iota. now rewrite seq_S, map_app. Qed.

Lemma iota_range (n : nat) :
  Forall (fun z => 0 <= z < Z.of_nat n) (iota n).
Proof.
  unfold iota. apply Forall_forall. intros z Hz.
  apply in_map_iff in Hz as (i & <- & Hi). apply in_seq in Hi. lia.
Qed.

Lemma iota_ascending (n : nat) : StronglySorted Z.lt (iota n).
Proof.
  induction n as [|n IH]; [constructor|]. rewrite iota_S.
  apply StronglySorted_app; [assumption|repeat constructor|].
  intros a b Ha [<-|[]].
  pose proof (iota_range n) as Hr. rewrite Forall_forall in Hr.
  specialize (Hr a Ha). lia.
Qed.

Lemma iota_NoDup (n : nat) : NoDup (iota n).
Proof.
  pose proof (iota_ascending n) as H.
  induction H as [|a l Hl IH Ha]; constructor; [|assumption].
  intros Hin. rewrite Forall_forall in Ha. specialize (Ha a Hin). lia.
Qed.

Lemma gather_seq {A : Type} (d : A) (l pre : list A) :
  map (fun i => nth i (pre ++ l) d) (seq (length pre) (length l)) = l.
Proof.
  revert pre; induction l as [|x l IH]; intros pre; cbn; [reflexivity|].
  rewrite nth_middle. f_equal.
  specialize (IH (pre ++ [x])).
  rewrite <- app_assoc, length_app in IH. cbn in IH.
  rewrite Nat.add_1_r in IH. exact IH.
Qed.

Lemma gather_iota {A : Type} (objs : list A) (d : A) :
  map (fun z => nth (Z.to_nat z) objs d) (iota (length objs)) = objs.
Proof.
  unfold iota. rewrite map_map.
  rewrite (map_ext _ (fun i => nth i objs d))
    by (intros i; now rewrite Nat2Z.id).
  apply (gather_seq d objs []).
Qed.

Lemma gather_in_range {A : Type} (objs : list A) (t : list Z) :
  Forall (fun z => 0 <= z < Z.of_nat (length objs)) t ->
  exists tup, map_to_tuple (map Some t) objs = Ok tup /\
              length tup = length t.
Proof.
  induction 1 as [|z t Hz _ (tup & E & Hl)]; [now exists []|].
  cbn [map map_to_tuple]. rewrite (proj2 (Z.ltb_ge z 0)) by lia.
  destruct (nth_error objs (Z.to_nat z)) as [o|] eqn:Eo.
  - exists (o :: tup). rewrite E. cbn. now rewrite Hl.
  - apply nth_error_None in Eo. lia.
Qed.

Lemma gather_identity {A : Type} (objs : list A) :
  map_to_tuple (map Some (iota (length objs))) objs = Ok objs.
Proof.
  destruct objs as [|d objs'] eqn:E; [reflexivity|]. rewrite <- E.
  rewrite (map_to_tuple_Ok objs d) by apply iota_range.
  now rewrite gather_iota.
Qed.

Lemma gather_Permutation {A : Type} (objs : list A) (p : list Z) :
  Permutation (iota (length objs)) p ->
  exists t, map_to_tuple (map Some p) objs = Ok t /\ Permutation objs t.
Proof.
  intros HP. destruct objs as [|d objs'] eqn:E.
  - cbn in HP. apply Permutation_nil in HP as ->. exists []. now split.
  - rewrite <- E in *.
    exists (map (fun z => nth (Z.to_nat z) objs d) p). split.
    + apply map_to_tuple_Ok.
      eapply Permutation_Forall; [exact HP|apply iota_range].
    + rewrite <- (gather_iota objs d) at 1. now apply Permutation_map.
Qed.

(** ** PermutationIterator: construction and pulls *)

Lemma fill_identity_Ok :
  forall (cnt i : nat),
    Perm.fill_identity cnt i (map Some (iota i) ++ repeat None cnt)
    = Ok (map Some (iota (i + cnt))).
Proof.
  induction cnt as [|cnt IH]; intros i; cbn [Perm.fill_identity repeat].
  - now rewrite app_nil_r, Nat.add_0_r.
  - rewrite wr_Ok
      by (rewrite length_app, length_map, iota_length; cbn; lia).
    cbn [bind].
    replace i with (length (map Some (iota i))) at 2
      by now rewrite length_map, iota_length.
    rewrite upd_middle.
    replace (map Some (iota i) ++ Some (Z.of_nat i) :: repeat None cnt)
      with (map Some (iota (S i)) ++ repeat None cnt)
      by (rewrite iota_S, map_app, <- app_assoc; reflexivity).
    rewrite IH. now rewrite Nat.add_succ_r.
Qed.

Lemma perm_init_Ok {A : Type} (objs : list A) :
  Perm.__init__ objs = Ok (Perm.mk objs (map Some (iota (length objs))) 0).
Proof.
  unfold Perm.__init__, IntArray_new.
  pose proof (fill_identity_Ok (length objs) 0) as H. cbn in H.
  rewrite H. reflexivity.
Qed.

Lemma pulls_S {S O : Type} (pull : S -> S * O) (m : nat) (st : S) :
  pulls pull (Datatypes.S m) st = pull st :: pulls pull m (fst (pull st)).
Proof. reflexivity. Qed.

Lemma firstn_app_repeat_ge {B : Type} (x : B) :
  forall (m k : nat) (l : list B),
    (m <= k)%nat ->
    firstn m (l ++ repeat x k) = firstn m (l ++ repeat x m).
Proof.
  induction m as [|m IH]; intros k l Hk; [reflexivity|].
  destruct k as [|k]; [lia|].
  destruct l as [|a l].
  - cbn [app repeat firstn]. f_equal. apply (IH k []). lia.
  - cbn [app firstn]. f_equal.
    rewrite (IH (S k)) by lia. rewrite (IH (S m) l) by lia. reflexivity.
Qed.

Lemma firstn_S_app_repeat {B : Type} (x : B) (l : list B) (m : nat) :
  firstn m (l ++ repeat x (S m)) = firstn m (l ++ repeat x m).
Proof. apply firstn_app_repeat_ge. lia. Qed.

Lemma perm_pull_running {A : Type} (s : Perm.t A) (p : list Z) :
  Perm.generator_state s = 1 ->
  Perm.perm s = map Some p ->
  Perm.__next__ s
  = match next_perm p with
    | Some p' => (Perm.set_perm s (map Some p'),
                  map_to_tuple (map Some p') (Perm.objs s))
    | None => (Perm.set_generator_state s 2, Raise StopIteration)
    end.
Proof.
  intros Hg Hp. unfold Perm.__next__. rewrite Hg. cbn [Z.eqb Pos.eqb].
  rewrite (perm_next_pure s p Hp).
  destruct (next_perm p) as [p'|]; [|reflexivity].
  cbn [Perm.generator_state Perm.set_perm]. rewrite Hg. reflexivity.
Qed.

Lemma perm_pulls_stopped {A : Type} (s : Perm.t A) (p : list Z) (m : nat) :
  Perm.generator_state s = 2 ->
  Perm.perm s = map Some p ->
  map perm_view (pulls Perm.__next__ m s)
  = repeat (map Some p, Raise StopIteration) m.
Proof.
  intros Hg Hp. rewrite pulls_exhausted_perm by assumption.
  rewrite map_repeat. unfold perm_view. cbn [fst snd]. now rewrite Hp.
Qed.

Lemma perm_pulls_running {A : Type} :
  forall (f : nat) (p : list Z) (s : Perm.t A) (m : nat),
    Perm.generator_state s = 1 ->
    Perm.perm s = map Some p ->
    next_perm (orbit_end next_perm f p) = None ->
    map perm_view (pulls Perm.__next__ m s)
    = firstn m (map (entry (Perm.objs s)) (tl (orbit next_perm f p))
                ++ repeat (map Some (orbit_end next_perm f p),
                           Raise StopIteration) m).
Proof.
  assert (Stop : forall (p : list Z) (s : Perm.t A) (m : nat),
             Perm.generator_state s = 1 -> Perm.perm s = map Some p ->
             next_perm p = None ->
             map perm_view (pulls Perm.__next__ (S m) s)
             = firstn (S m) (repeat (map Some p, Raise StopIteration) (S m))).
  { intros p s m Hg Hp E. rewrite pulls_S, (perm_pull_running s p Hg Hp), E.
    cbn [map fst]. rewrite (perm_pulls_stopped _ p) by (auto; reflexivity).
    unfold perm_view at 1. cbn [fst snd Perm.perm Perm.set_generator_state].
    rewrite Hp. rewrite firstn_all2 by (rewrite repeat_length; lia).
    reflexivity. }
  induction f as [|f IH]; intros p s m Hg Hp Hend;
    (destruct m as [|m]; [reflexivity|]); cbn [orbit orbit_end tl map app] in *.
  - now apply Stop.
  - destruct (next_perm p) as [p'|] eqn:E; [|now apply Stop].
    rewrite pulls_S, (perm_pull_running s p Hg Hp), E. cbn [map fst].
    rewrite (IH p' (Perm.set_perm s (map Some p')) m Hg eq_refl Hend).
    destruct (orbit_head next_perm f p') as [l El].
    rewrite El. cbn [tl map app firstn Perm.objs Perm.set_perm].
    unfold perm_view at 1, entry at 2. cbn [fst snd Perm.perm Perm.set_perm].
    f_equal. symmetry. apply firstn_S_app_repeat.
Qed.

Lemma perm_step_invariant (n : nat) (p p' : list Z) :
  NoDup p /\ Permutation (iota n) p ->
  next_perm p = Some p' ->
  (NoDup p' /\ Permutation (iota n) p') /\ lex_lt p p'.
Proof.
  intros [HN HP] E. pose proof (next_perm_Permutation p p' E) as HP'.
  repeat split.
  - eapply Permutation_NoDup; eassumption.
  - etransitivity; eassumption.
  - now apply next_perm_lex.
Qed.

(** C1: over [n >= 1] items the iterator produces exactly [n!] tuples; the
    first is the items themselves (gathered along the identity), every index
    tuple is a permutation of [0..n-1] and gathers a permutation of the
    items, the index tuples increase strictly in lexicographic order and
    are pairwise distinct; every pull after them raises [StopIteration]. *)
Theorem perm_iterator_enumerates {A : Type} (objs : list A) :
  (1 <= length objs)%nat ->
  exists (s : Perm.t A) (ps : list (list Z)),
    Perm.__init__ objs = Ok s /\
    length ps = fact (length objs) /\
    hd_error ps = Some (iota (length objs)) /\
    map_to_tuple (map Some (iota (length objs))) objs = Ok objs /\
    Forall (fun p => Permutation (iota (length objs)) p /\
                     exists t, map_to_tuple (map Some p) objs = Ok t /\
                               Permutation objs t) ps /\
    StronglySorted lex_lt ps /\
    NoDup ps /\
    forall m : nat,
      map perm_view (pulls Perm.__next__ m s)
      = firstn m (map (entry objs) ps
                  ++ repeat (map Some (last ps []), Raise StopIteration) m).
Proof.
  intros Hn. set (n := length objs) in *.
  set (ps := orbit next_perm (fact n) (iota n)).
  set (s0 := Perm.mk objs (map Some (iota n)) 0).
  assert (Hinv : NoDup (iota n) /\ Permutation (iota n) (iota n))
    by (split; [apply iota_NoDup|apply Permutation_refl]).
  destruct (orbit_perm_length (fact n) (iota n) (iota_NoDup n)) as [Hlen Hend].
  { rewrite iota_length. lia. }
  rewrite (rank_ascending _ (iota_ascending n)), iota_length in Hlen.
  pose proof (orbit_Sorted next_perm _ lex_lt (perm_step_invariant n)
                (fact n) (iota n) Hinv) as Hsorted.
  apply lex_sorted_strongly in Hsorted.
  destruct (orbit_head next_perm (fact n) (iota n)) as [l El].
  exists s0, ps. repeat split.
  - apply perm_init_Ok.
  - exact Hlen.
  - unfold ps. now rewrite El.
  - apply gather_identity.
  - pose proof (orbit_Forall next_perm _ lex_lt (perm_step_invariant n)
                  (fact n) (iota n) Hinv) as HF.
    eapply Forall_impl; [|exact HF]. cbn. intros p [_ HP].
    split; [assumption|]. now apply gather_Permutation.
  - exact Hsorted.
  - now apply lex_sorted_NoDup.
  - intros [|m]; [reflexivity|].
    unfold ps at 2. rewrite (orbit_last next_perm).
    unfold ps. rewrite El. cbn [map app firstn].
    rewrite firstn_S_app_repeat, pulls_S.
    assert (Hlp : length (Perm.perm s0) = n)
      by (cbn; now rewrite length_map, iota_length).
    assert (Hpull : Perm.__next__ s0
                    = (Perm.set_generator_state
                         s0 (if (n =? 1)%nat then 2 else 1),
                       map_to_tuple (map Some (iota n)) objs)).
    { unfold Perm.__next__. cbn [Perm.generator_state s0 Z.eqb].
      fold s0. rewrite Hlp. destruct (n =? 1)%nat; reflexivity. }
    rewrite Hpull. cbn [map fst]. unfold perm_view at 1, entry at 1.
    cbn [fst snd Perm.perm Perm.set_generator_state s0]. f_equal.
    destruct (Nat.eqb_spec n 1) as [H1|H1].
    + rewrite (perm_pulls_stopped _ (iota n)) by reflexivity.
      assert (El' : l = []).
      { assert (length (iota n :: l) = 1%nat) as Hl1
            by (rewrite <- El; cbn in Hlen; rewrite Hlen, H1; reflexivity).
        destruct l; [reflexivity|discriminate]. }
      rewrite El'. cbn [map app].
      assert (Ee : orbit_end next_perm (fact n) (iota n) = iota n).
      { rewrite <- (orbit_last next_perm []), El, El'. reflexivity. }
      rewrite Ee. now rewrite firstn_all2 by (rewrite repeat_length; lia).
    + rewrite (perm_pulls_running (fact n) (iota n)
                 (Perm.set_generator_state s0 1) m eq_refl eq_refl Hend).
      rewrite El. reflexivity.
Qed.

Lemma perm_iterator_enumerates_witness :
  exists (s : Perm.t string) (ps : list (list Z)),
    Perm.__init__ abc = Ok s /\
    length ps = fact (length abc) /\
    hd_error ps = Some (iota (length abc)) /\
    map_to_tuple (map Some (iota (length abc))) abc = Ok abc /\
    Forall (fun p => Permutation (iota (length abc)) p /\
                     exists t, map_to_tuple (map Some p) abc = Ok t /\
                               Permutation abc t) ps /\
    StronglySorted lex_lt ps /\
    NoDup ps /\
    forall m : nat,
      map perm_view (pulls Perm.__next__ m s)
      = firstn m (map (entry abc) ps
                  ++ repeat (map Some (last ps []), Raise StopIteration) m).
Proof. apply (perm_iterator_enumerates abc). cbn. lia. Defined.

(** ** k-subsets: the enumeration *)

Lemma seqZ_length (a : Z) (len : nat) : length (seqZ a len) = len.
Proof. unfold seqZ. now rewrite length_map, length_seq. Qed.

Lemma seqZ_S (a : Z) (len : nat) :
  seqZ a (S len) = a :: seqZ (a + 1) len.
Proof.
  unfold seqZ. cbn [seq map]. f_equal; [f_equal; lia|].
  rewrite <- seq_shift, map_map. apply map_ext. intros i. lia.
Qed.

Lemma seqZ_iota (k : nat) : seqZ 0 k = iota k.
Proof. unfold seqZ, iota. apply map_ext. intros; lia. Qed.

Lemma binom_combs (m : nat) :
  forall (lo : Z) (k : nat), length (combs m lo k) = binom m k.
Proof.
  induction m as [|m IH]; intros lo [|k]; cbn; try reflexivity.
  now rewrite length_app, length_map, !IH.
Qed.

Lemma combs_In (m : nat) :
  forall (lo : Z) (k : nat) (t : list Z),
    In t (combs m lo k) <->
    length t = k /\ StronglySorted Z.lt t /\
    Forall (fun z => lo <= z < lo + Z.of_nat m) t.
Proof.
  assert (K0 : forall lo m' (t : list Z),
             In t [[]] <->
             length t = 0%nat /\ StronglySorted Z.lt t /\
             Forall (fun z => lo <= z < lo + Z.of_nat m') t).
  { intros lo m' t. split.
    - intros [<-|[]]. repeat split; constructor.
    - intros (H & _). destruct t; [now left|discriminate]. }
  induction m as [|m IH]; intros lo [|k] t; cbn [combs]; try apply K0.
  - split; [intros []|]. intros (Hl & _ & HF).
    destruct t as [|z t]; [discriminate|].
    apply Forall_inv in HF. lia.
  - rewrite in_app_iff, in_map_iff. split.
    + intros [(t' & <- & Hin)|Hin].
      * apply IH in Hin as (Hl & HS & HF). repeat split.
        -- cbn. now rewrite Hl.
        -- constructor; [assumption|].
           eapply Forall_impl; [|exact HF]. cbn; intros; lia.
        -- constructor; [lia|].
           eapply Forall_impl; [|exact HF]. cbn; intros; lia.
      * apply IH in Hin as (Hl & HS & HF). repeat split; auto.
        eapply Forall_impl; [|exact HF]. cbn; intros; lia.
    + intros (Hl & HS & HF). destruct t as [|z t]; [discriminate|].
      apply StronglySorted_inv in HS as [HS Hz].
      pose proof (Forall_inv HF) as Hz0. cbv beta in Hz0.
      apply Forall_inv_tail in HF.
      assert (HF' : Forall (fun u => z < u /\ lo <= u < lo + Z.of_nat (S m)) t).
      { apply Forall_forall. intros u Hu. rewrite Forall_forall in Hz, HF.
        split; [now apply Hz|now apply HF]. }
      destruct (Z.eq_dec z lo) as [->|Hne].
      * left. exists t. split; [reflexivity|]. apply IH.
        repeat split; [now inversion Hl|assumption|].
        eapply Forall_impl; [|exact HF']. cbn; intros; lia.
      * right. apply IH. repeat split; [assumption|now constructor|].
        constructor; [lia|].
        eapply Forall_impl; [|exact HF']. cbn; intros; lia.
Qed.

Lemma combs_lex_sorted (m : nat) :
  forall (lo : Z) (k : nat), StronglySorted lex_lt (combs m lo k).
Proof.
  induction m as [|m IH]; intros lo [|k]; cbn [combs];
    try (repeat constructor).
  apply StronglySorted_app.
  - specialize (IH (lo + 1) k).
    induction IH as [|a l Hl IHl Ha]; cbn [map]; constructor; [assumption|].
    apply Forall_forall. intros b Hb.
    apply in_map_iff in Hb as (b' & <- & Hb').
    rewrite Forall_forall in Ha. cbn. right. split; [reflexivity|now apply Ha].
  - apply IH.
  - intros a b Ha Hb. apply in_map_iff in Ha as (a' & <- & _).
    apply combs_In in Hb as (Hl & _ & HF).
    destruct b as [|z b]; [discriminate|].
    apply Forall_inv in HF. cbn. left. lia.
Qed.

Lemma pscan_ext (f g : nat -> bool) :
  forall c : nat,
    (forall i, (i < c)%nat -> f i = g i) -> pscan f c = pscan g c.
Proof.
  induction c as [|c IH]; intros H; cbn; [reflexivity|].
  rewrite (H c) by lia. rewrite IH; [reflexivity|].
  intros i Hi. apply H. lia.
Qed.

Lemma pscan_S (test : nat -> bool) :
  forall m : nat,
    pscan test (S m)
    = match pscan (fun i => test (S i)) m with
      | Some g => Some (S g)
      | None => if test 0%nat then Some 0%nat else None
      end.
Proof.
  induction m as [|m IH]; [reflexivity|].
  cbn [pscan] in *. destruct (test (S m)); [reflexivity|]. exact IH.
Qed.

Lemma next_subset_cons (n x : Z) (t : list Z) :
  next_subset n (x :: t)
  = match next_subset n t with
    | Some t' => Some (x :: t')
    | None =>
        if x <? n - Z.of_nat (S (length t))
        then Some (seqZ (x + 1) (S (length t)))
        else None
    end.
Proof.
  unfold next_subset. cbn [length]. rewrite pscan_S.
  rewrite (pscan_ext _ (fun g => nth g t 0
                                 <? n - Z.of_nat (length t) + Z.of_nat g)).
  2:{ intros i _. cbn [nth]. f_equal. lia. }
  destruct (pscan _ (length t)) as [g|]; [reflexivity|].
  cbn [nth]. replace (n - Z.of_nat (S (length t)) + Z.of_nat 0)
    with (n - Z.of_nat (S (length t))) by lia.
  destruct (x <? _); reflexivity.
Qed.

Lemma next_subset_last (n : Z) :
  forall k : nat, next_subset n (seqZ (n - Z.of_nat k) k) = None.
Proof.
  induction k as [|k IH]; [reflexivity|].
  rewrite seqZ_S, next_subset_cons.
  replace (n - Z.of_nat (S k) + 1) with (n - Z.of_nat k) by lia.
  rewrite IH, seqZ_length. now rewrite Z.ltb_irrefl.
Qed.

Lemma is_chain_app (next : list Z -> option (list Z))
      (l1 l2 : list (list Z)) (a b : list Z) :
  is_chain next (l1 ++ [a]) -> is_chain next (b :: l2) ->
  next a = Some b ->
  is_chain next ((l1 ++ [a]) ++ b :: l2).
Proof.
  intros H1 H2 Hab. induction l1 as [|x l1 IH].
  - cbn. split; assumption.
  - cbn [app] in *. destruct (l1 ++ [a]) as [|y r] eqn:E.
    + now destruct l1.
    + cbn [app]. cbn in H1. destruct H1 as [Hxy H1].
      split; [assumption|]. apply IH. exact H1.
Qed.

Lemma is_chain_map_cons (n x : Z) (l : list (list Z)) :
  is_chain (next_subset n) l ->
  is_chain (next_subset n) (map (cons x) l).
Proof.
  induction l as [|a l IH]; cbn [map]; [trivial|].
  destruct l as [|b l]; [trivial|]. cbn [map is_chain] in *.
  intros [Hab H]. split; [|now apply IH].
  now rewrite next_subset_cons, Hab.
Qed.

Lemma combs_empty (m : nat) :
  forall (lo : Z) (k : nat), (m < k)%nat -> combs m lo k = [].
Proof.
  induction m as [|m IH]; intros lo [|k] H; try lia; cbn [combs];
    [reflexivity|].
  rewrite !IH by lia. reflexivity.
Qed.

(** [combs] runs from the least tuple to the greatest one, each tuple
    followed by its [next_subset]. *)
Lemma combs_chain (m : nat) :
  forall (lo : Z) (k : nat),
    (k <= m)%nat ->
    exists l,
      combs m lo k = l ++ [seqZ (lo + Z.of_nat m - Z.of_nat k) k] /\
      hd_error (combs m lo k) = Some (seqZ lo k) /\
      is_chain (next_subset (lo + Z.of_nat m)) (combs m lo k).
Proof.
  induction m as [|m IH]; intros lo [|k] Hk; try lia.
  - exists []. repeat split.
  - exists []. repeat split.
  - cbn [combs].
    destruct (IH (lo + 1) k ltac:(lia)) as (l1 & E1 & H1 & C1).
    replace (lo + 1 + Z.of_nat m) with (lo + Z.of_nat (S m)) in * by lia.
    assert (Hhd : hd_error (map (cons lo) (combs m (lo + 1) k)
                            ++ combs m (lo + 1) (S k))
                  = Some (seqZ lo (S k))).
    { destruct (combs m (lo + 1) k) as [|a r]; [discriminate|].
      cbn [hd_error map app] in H1 |- *. inversion H1; subst.
      now rewrite seqZ_S. }
    assert (Emap : map (cons lo) (combs m (lo + 1) k)
                   = map (cons lo) l1
                     ++ [lo :: seqZ (lo + Z.of_nat (S m) - Z.of_nat k) k]).
    { rewrite E1, map_app. reflexivity. }
    pose proof (is_chain_map_cons (lo + Z.of_nat (S m)) lo _ C1) as C1'.
    destruct (Nat.lt_ge_cases m (S k)) as [Hlt|Hge].
    + assert (m = k) by lia. subst m.
      rewrite (combs_empty k (lo + 1) (S k)) in Hhd |- * by lia.
      rewrite app_nil_r in Hhd |- *. exists (map (cons lo) l1). repeat split.
      * replace (seqZ (lo + Z.of_nat (S k) - Z.of_nat (S k)) (S k))
          with (lo :: seqZ (lo + Z.of_nat (S k) - Z.of_nat k) k);
          [exact Emap|].
        rewrite seqZ_S. f_equal; [lia|f_equal; lia].
      * exact Hhd.
      * exact C1'.
    + destruct (IH (lo + 1) (S k) Hge) as (l2 & E2 & H2 & C2).
      replace (lo + 1 + Z.of_nat m) with (lo + Z.of_nat (S m)) in * by lia.
      exists (map (cons lo) (combs m (lo + 1) k) ++ l2). repeat split.
      * rewrite E2 at 1. rewrite app_assoc. reflexivity.
      * exact Hhd.
      * destruct (combs m (lo + 1) (S k)) as [|b r] eqn:Eb; [discriminate|].
        cbn in H2. inversion H2; subst b.
        rewrite Emap in C1' |- *.
        apply is_chain_app; [assumption|assumption|].
        rewrite next_subset_cons.
        rewrite next_subset_last, seqZ_length.
        rewrite (proj2 (Z.ltb_lt lo _)) by lia. reflexivity.
Qed.

Lemma last_cons_default {B : Type} :
  forall (l : list B) (b d d' : B), last (b :: l) d = last (b :: l) d'.
Proof.
  induction l as [|c l IH]; intros b d d'; [reflexivity|].
  change (last (b :: c :: l) d) with (last (c :: l) d).
  change (last (b :: c :: l) d') with (last (c :: l) d').
  apply IH.
Qed.

Lemma chain_orbit (next : list Z -> option (list Z)) :
  forall (l : list (list Z)) (a : list Z) (f : nat),
    is_chain next (a :: l) ->
    next (last (a :: l) a) = None ->
    (length l <= f)%nat ->
    orbit next f a = a :: l /\ orbit_end next f a = last (a :: l) a.
Proof.
  induction l as [|b l IH]; intros a f HC HL Hf.
  - cbn in HL. destruct f; cbn; rewrite ?HL; split; reflexivity.
  - destruct f as [|f]; [cbn in Hf; lia|].
    cbn [is_chain] in HC. destruct HC as [Hab HC].
    cbn [orbit orbit_end]. rewrite Hab.
    change (last (a :: b :: l) a) with (last (b :: l) a) in HL |- *.
    pose proof (fun d => last_cons_default l b d b) as El.
    rewrite (El a) in HL |- *.
    destruct (IH b f HC HL) as [E1 E2]; [cbn in Hf; lia|].
    rewrite E1, E2. split; reflexivity.
Qed.

(** ** LexicographicIterator under the k-subset configuration *)

Lemma wrap_small (z : Z) : int_min <= z <= int_max -> wrap z = z.
Proof.
  unfold int_min, int_max, wrap. intros H.
  rewrite Z.mod_small by lia. lia.
Qed.

Lemma nth_map_seq {B : Type} (f : nat -> B) (d : B) (k i : nat) :
  (i < k)%nat -> nth i (map f (seq 0 k)) d = f i.
Proof.
  intros H. rewrite (nth_indep _ d (f 0%nat))
    by now rewrite length_map, length_seq.
  rewrite map_nth, seq_nth by assumption. reflexivity.
Qed.

Lemma nth_repeat_lt {B : Type} (a d : B) (k i : nat) :
  (i < k)%nat -> nth i (repeat a k) d = a.
Proof.
  revert i; induction k as [|k IH]; intros [|i] H; cbn; try lia; auto.
  apply IH. lia.
Qed.

Lemma rollover_loop_subset (k : nat) :
  forall (cnt i : nat) (pre : list Z) (rest : IntArray),
    (1 <= i)%nat -> length pre = i -> length rest = cnt ->
    (i + cnt = k)%nat ->
    0 <= nth (i - 1) pre 0 ->
    nth (i - 1) pre 0 + Z.of_nat cnt <= int_max ->
    Lex.rollover_loop (map Some (subset_index_map k))
                      (map Some (subset_increments k))
                      cnt i (map Some pre ++ rest)
    = Ok (map Some (pre ++ seqZ (nth (i - 1) pre 0 + 1) cnt)).
Proof.
  induction cnt as [|cnt IH]; intros i pre rest Hi Hpre Hrest Hk H0 Hmax.
  - destruct rest; [|discriminate]. cbn. now rewrite !app_nil_r.
  - destruct rest as [|c rest]; [discriminate|].
    cbn [Lex.rollover_loop].
    rewrite rd_init
      by (unfold subset_index_map; rewrite length_map, length_seq; lia).
    unfold subset_index_map at 1. rewrite nth_map_seq by lia. cbn [bind].
    rewrite (proj2 (Z.ltb_ge (Z.of_nat i - 1) 0)) by lia.
    replace (Z.to_nat (Z.of_nat i - 1)) with (i - 1)%nat by lia.
    assert (Erd : rd (map Some pre ++ c :: rest) (i - 1)
                  = Ok (nth (i - 1) pre 0)).
    { unfold rd. rewrite nth_error_app1 by (rewrite length_map; lia).
      rewrite nth_error_map, nth_error_nth_Z by lia. reflexivity. }
    rewrite Erd. cbn [bind].
    rewrite rd_init by (unfold subset_increments; rewrite repeat_length; lia).
    unfold subset_increments at 1. rewrite nth_repeat_lt by lia. cbn [bind].
    set (v := nth (i - 1) pre 0) in *.
    assert (int_max = 2147483647) by reflexivity.
    rewrite wrap_small by (unfold int_min; lia).
    rewrite wr_Ok by (rewrite length_app, length_map; cbn; lia).
    cbn [bind].
    pose proof (upd_middle (map Some pre) rest c (Some (v + 1))) as Eu.
    rewrite length_map, Hpre in Eu. rewrite Eu.
    replace (map Some pre ++ Some (v + 1) :: rest)
      with (map Some (pre ++ [v + 1]) ++ rest)
      by (rewrite map_app, <- app_assoc; reflexivity).
    assert (Ev : nth (S i - 1) (pre ++ [v + 1]) 0 = v + 1).
    { replace (S i - 1)%nat with (length pre) by lia. apply nth_middle. }
    rewrite (IH (S i) (pre ++ [v + 1]) rest); rewrite ?Ev.
    + rewrite <- app_assoc, (seqZ_S (v + 1)). reflexivity.
    + lia.
    + rewrite length_app. cbn. lia.
    + cbn in Hrest. lia.
    + lia.
    + lia.
    + lia.
Qed.

Lemma firstn_S_nth (l : list Z) :
  forall i : nat,
    (i < length l)%nat -> firstn (S i) l = firstn i l ++ [nth i l 0].
Proof.
  induction l as [|x l IH]; intros [|i] H; cbn in H |- *; try lia;
    [reflexivity|].
  f_equal. apply IH. lia.
Qed.

Lemma upd_firstn_skipn (l : list Z) (v : Z) :
  forall g : nat,
    (g < length l)%nat -> upd g v l = firstn g l ++ v :: skipn (S g) l.
Proof.
  induction l as [|x l IH]; intros [|g] H; cbn in H |- *; try lia;
    [reflexivity|].
  f_equal. apply IH. lia.
Qed.

Lemma subset_index_map_length (k : nat) : length (subset_index_map k) = k.
Proof. unfold subset_index_map. now rewrite length_map, length_seq. Qed.

Lemma store_index_map_subset (k : nat) :
  forall (cnt i : nat),
    (i + cnt = k)%nat ->
    Lex.store_index_map k (subset_index_map k) cnt i
      (map Some (firstn i (subset_index_map k)) ++ repeat None cnt)
    = Ok (map Some (subset_index_map k)).
Proof.
  induction cnt as [|cnt IH]; intros i Hk.
  - cbn. rewrite app_nil_r, firstn_all2
      by (rewrite subset_index_map_length; lia).
    reflexivity.
  - cbn [Lex.store_index_map repeat].
    rewrite nth_error_nth_Z by (rewrite subset_index_map_length; lia).
    assert (Ei : nth i (subset_index_map k) 0 = Z.of_nat i - 1)
      by (unfold subset_index_map;
          apply (nth_map_seq (fun j => Z.of_nat j - 1)); lia).
    rewrite Ei.
    assert (Ew : forall v, v = Z.of_nat i - 1 ->
               (a' <- wr (map Some (firstn i (subset_index_map k))
                          ++ None :: repeat None cnt) i v ;;
                Lex.store_index_map k (subset_index_map k) cnt (S i) a')
               = Ok (map Some (subset_index_map k))).
    { intros v ->.
      rewrite wr_Ok
        by (rewrite length_app, length_map, length_firstn,
              subset_index_map_length; cbn; lia).
      cbn [bind].
      pose proof (upd_middle (map Some (firstn i (subset_index_map k)))
                    (repeat None cnt) None (Some (Z.of_nat i - 1))) as Eu.
      rewrite length_map, length_firstn, subset_index_map_length in Eu.
      replace (Nat.min i k) with i in Eu by lia. rewrite Eu.
      replace (map Some (firstn i (subset_index_map k))
               ++ Some (Z.of_nat i - 1) :: repeat None cnt)
        with (map Some (firstn (S i) (subset_index_map k))
              ++ repeat None cnt).
      - apply IH. lia.
      - rewrite firstn_S_nth by (rewrite subset_index_map_length; lia).
        rewrite Ei, map_app, <- app_assoc. reflexivity. }
    destruct (Z.ltb_spec (Z.of_nat i - 1) 0) as [Hneg|Hnn].
    + apply Ew. lia.
    + rewrite Z.gtb_ltb, (proj2 (Z.ltb_ge _ _)) by lia. now apply Ew.
Qed.

Lemma lex_init_subset {A : Type} (objs : list A) (n k : nat) :
  (1 <= k <= n)%nat -> Z.of_nat n <= int_max ->
  Lex.__init__ objs (subset_limits n k) (subset_index_map k)
               (subset_increments k)
  = Ok (Lex.mk k 0 objs (map Some (seqZ 0 k))
               (map Some (map (fun i => Z.of_nat n - Z.of_nat k + Z.of_nat i)
                              (seq 0 k)))
               (map Some (subset_index_map k))
               (map Some (subset_increments k))).
Proof.
  intros Hk Hn. unfold Lex.__init__, to_intarray.
  assert (Elen : length (map Some (subset_limits n k)) = k)
    by (unfold subset_limits; now rewrite !length_map, length_seq).
  rewrite Elen.
  pose proof (store_index_map_subset k k 0 eq_refl) as Es.
  cbn [firstn map app] in Es. unfold IntArray_new. rewrite Es. cbn [bind].
  destruct k as [|k']; [lia|]. set (k := S k') in *.
  assert (E0 : wr (repeat None k) 0 0 = Ok (map Some [0] ++ repeat None k'))
    by reflexivity.
  rewrite E0. cbn [bind]. unfold Lex.rollover_next.
  cbn [Lex.index_map Lex.increments Lex.k Lex.T].
  replace (k - (0 + 1))%nat with k' by (unfold k; lia).
  assert (int_max = 2147483647) by reflexivity.
  rewrite (rollover_loop_subset k k' (0 + 1) [0] (repeat None k'));
    try (cbn; lia).
  2:{ apply repeat_length. }
  cbn [bind]. unfold Lex.set_generator_state, Lex.set_T.
  cbn [Lex.k Lex.objs Lex.limits Lex.index_map Lex.increments Lex.T
       Lex.generator_state].
  do 2 f_equal.
  - cbn [app nth Nat.sub Nat.add]. unfold k. now rewrite (seqZ_S 0).
  - unfold subset_limits. rewrite !map_map. apply map_ext_in.
    intros i Hi. apply in_seq in Hi. cbn [option_map]. f_equal.
    rewrite wrap_small; [lia|]. unfold int_min. lia.
Qed.

Lemma lex_next_subset {A : Type} (n k : nat) (s : Lex.t A) (t : list Z) :
  subset_state n k s ->
  Z.of_nat n <= int_max ->
  Lex.T s = map Some t ->
  length t = k ->
  Forall (fun z => 0 <= z) t ->
  Lex._next s = match next_subset (Z.of_nat n) t with
                | Some t' => Ok (Lex.set_T s (map Some t'))
                | None => Ok (Lex.set_generator_state s 2)
                end.
Proof.
  intros (Ek & El & Ei & Ec) Hn ET Hlen Hpos.
  unfold Lex._next, next_subset. rewrite Ek, El, ET, Hlen.
  rewrite (scan_down_pure _ (fun g => nth g t 0
                               <? Z.of_nat n - Z.of_nat k + Z.of_nat g)).
  2:{ intros g Hg. rewrite rd_init by lia. cbn [bind].
      rewrite rd_init by (rewrite length_map, length_seq; lia).
      rewrite (nth_map_seq (fun i => Z.of_nat n - Z.of_nat k + Z.of_nat i))
        by lia.
      reflexivity. }
  cbn [bind]. destruct (pscan _ k) as [g|] eqn:Eg; [|reflexivity].
  apply pscan_Some in Eg as (Hg & Tg & _). apply Z.ltb_lt in Tg.
  rewrite rd_init by lia. cbn [bind].
  assert (H0 : 0 <= nth g t 0).
  { rewrite Forall_forall in Hpos. apply Hpos. apply nth_In. lia. }
  assert (int_max = 2147483647) by reflexivity.
  rewrite wrap_small by (unfold int_min; lia).
  rewrite wr_init by lia. cbn [bind].
  unfold Lex.rollover_next.
  cbn [Lex.set_T Lex.index_map Lex.increments Lex.k Lex.T].
  rewrite Ek, Ei, Ec.
  set (v := nth g t 0 + 1) in *.
  rewrite upd_firstn_skipn by lia.
  replace (map Some (firstn g t ++ v :: skipn (S g) t))
    with (map Some (firstn g t ++ [v]) ++ map Some (skipn (S g) t))
    by (rewrite !map_app, <- app_assoc; reflexivity).
  assert (Ev : nth (g + 1 - 1) (firstn g t ++ [v]) 0 = v).
  { replace (g + 1 - 1)%nat with (length (firstn g t))
      by (rewrite length_firstn; lia).
    apply nth_middle. }
  rewrite (rollover_loop_subset k (k - (g + 1)) (g + 1));
    rewrite ?Ev; try lia.
  - cbn [bind]. unfold Lex.set_T.
    cbn [Lex.k Lex.objs Lex.limits Lex.index_map Lex.increments Lex.T
         Lex.generator_state].
    do 3 f_equal. rewrite <- app_assoc. cbn [app].
    replace (k - g)%nat with (S (k - (g + 1))) by lia.
    now rewrite (seqZ_S v).
  - rewrite length_app, length_firstn. cbn. lia.
  - rewrite length_map, length_skipn. lia.
Qed.

Lemma Forall_firstn {B : Type} (P : B -> Prop) (l : list B) :
  forall g : nat, Forall P l -> Forall P (firstn g l).
Proof.
  induction l as [|x l IH]; intros [|g] H; cbn; try constructor.
  - now apply Forall_inv in H.
  - apply IH. now apply Forall_inv_tail in H.
Qed.

Lemma next_subset_inv (n k : nat) (t t' : list Z) :
  length t = k /\ Forall (fun z => 0 <= z < Z.of_nat n) t ->
  next_subset (Z.of_nat n) t = Some t' ->
  (length t' = k /\ Forall (fun z => 0 <= z < Z.of_nat n) t') /\ lex_lt t t'.
Proof.
  intros [Hlen HF] E. unfold next_subset in E. rewrite Hlen in E.
  destruct (pscan _ k) as [g|] eqn:Eg; [|discriminate].
  apply pscan_Some in Eg as (Hg & Tg & _). apply Z.ltb_lt in Tg.
  inversion E; subst t'; clear E.
  assert (H0 : 0 <= nth g t 0 < Z.of_nat n).
  { rewrite Forall_forall in HF. apply HF. apply nth_In. lia. }
  repeat split.
  - rewrite length_app, length_firstn, seqZ_length. lia.
  - apply Forall_app. split; [now apply Forall_firstn|].
    unfold seqZ. apply Forall_forall. intros z Hz.
    apply in_map_iff in Hz as (i & <- & Hi). apply in_seq in Hi. lia.
  - destruct (split_at_nth t g) as (l1 & l2 & Et & Hl1); [lia|].
    replace (firstn g t) with l1.
    2:{ rewrite Et, <- Hl1. now rewrite firstn_app, firstn_all, Nat.sub_diag,
          firstn_0, app_nil_r. }
    rewrite Et at 1. apply lex_lt_prefix.
    replace (k - g)%nat with (S (k - g - 1)) by lia.
    rewrite seqZ_S. cbn. left. lia.
Qed.

Lemma pulls_exhausted_lex {A : Type} (s : Lex.t A) (m : nat) :
  Lex.generator_state s = 2 ->
  pulls Lex.__next__ m s = repeat (s, Raise StopIteration) m.
Proof.
  intros H.
  assert (E : Lex.__next__ s = (s, Raise StopIteration))
    by (unfold Lex.__next__; now rewrite H).
  induction m as [|m IH]; cbn; [reflexivity|].
  rewrite E. cbn. now rewrite IH.
Qed.

Lemma lex_pulls_stopped {A : Type} (s : Lex.t A) (t : list Z) (m : nat) :
  Lex.generator_state s = 2 ->
  Lex.T s = map Some t ->
  map lex_view (pulls Lex.__next__ m s)
  = repeat (map Some t, Raise StopIteration) m.
Proof.
  intros Hg Hp. rewrite pulls_exhausted_lex by assumption.
  rewrite map_repeat. unfold lex_view. cbn [fst snd]. now rewrite Hp.
Qed.

Lemma lex_pull_running {A : Type} (n k : nat) (s : Lex.t A) (t : list Z) :
  subset_state n k s ->
  Z.of_nat n <= int_max ->
  Lex.generator_state s = 1 ->
  Lex.T s = map Some t ->
  length t = k /\ Forall (fun z => 0 <= z < Z.of_nat n) t ->
  Lex.__next__ s
  = match next_subset (Z.of_nat n) t with
    | Some t' => (Lex.set_T s (map Some t'),
                  map_to_tuple (map Some t') (Lex.objs s))
    | None => (Lex.set_generator_state s 2, Raise StopIteration)
    end.
Proof.
  intros HS Hn Hg HT [Hlen HF]. unfold Lex.__next__.
  rewrite Hg. cbn [Z.eqb Pos.eqb].
  rewrite (lex_next_subset n k s t HS Hn HT Hlen).
  2:{ eapply Forall_impl; [|exact HF]. cbn; intros; lia. }
  destruct (next_subset (Z.of_nat n) t) as [t'|]; [|reflexivity].
  cbn [Lex.generator_state Lex.set_T]. rewrite Hg. reflexivity.
Qed.

Lemma lex_pulls_running {A : Type} (n k : nat) :
  Z.of_nat n <= int_max ->
  forall (f : nat) (t : list Z) (s : Lex.t A) (m : nat),
    subset_state n k s ->
    Lex.generator_state s = 1 ->
    Lex.T s = map Some t ->
    length t = k /\ Forall (fun z => 0 <= z < Z.of_nat n) t ->
    next_subset (Z.of_nat n) (orbit_end (next_subset (Z.of_nat n)) f t)
    = None ->
    map lex_view (pulls Lex.__next__ m s)
    = firstn m (map (entry (Lex.objs s))
                    (tl (orbit (next_subset (Z.of_nat n)) f t))
                ++ repeat (map Some (orbit_end (next_subset (Z.of_nat n)) f t),
                           Raise StopIteration) m).
Proof.
  intros Hn.
  assert (Stop : forall (t : list Z) (s : Lex.t A) (m : nat),
             subset_state n k s ->
             Lex.generator_state s = 1 -> Lex.T s = map Some t ->
             length t = k /\ Forall (fun z => 0 <= z < Z.of_nat n) t ->
             next_subset (Z.of_nat n) t = None ->
             map lex_view (pulls Lex.__next__ (S m) s)
             = firstn (S m) (repeat (map Some t, Raise StopIteration) (S m))).
  { intros t s m HS Hg HT HI E.
    rewrite pulls_S, (lex_pull_running n k s t HS Hn Hg HT HI), E.
    cbn [map fst]. rewrite (lex_pulls_stopped _ t) by (auto; reflexivity).
    unfold lex_view at 1. cbn [fst snd Lex.T Lex.set_generator_state].
    rewrite HT. rewrite firstn_all2 by (rewrite repeat_length; lia).
    reflexivity. }
  induction f as [|f IH]; intros t s m HS Hg HT HI Hend;
    (destruct m as [|m]; [reflexivity|]); cbn [orbit orbit_end tl map app] in *.
  - now apply Stop.
  - destruct (next_subset (Z.of_nat n) t) as [t'|] eqn:E; [|now apply Stop].
    rewrite pulls_S, (lex_pull_running n k s t HS Hn Hg HT HI), E.
    cbn [map fst].
    destruct (next_subset_inv n k t t' HI E) as [HI' _].
    rewrite (IH t' (Lex.set_T s (map Some t')) m HS Hg eq_refl HI' Hend).
    destruct (orbit_head (next_subset (Z.of_nat n)) f t') as [l El].
    rewrite El. cbn [tl map app firstn Lex.objs Lex.set_T].
    unfold lex_view at 1, entry at 2. cbn [fst snd Lex.T Lex.set_T].
    f_equal. symmetry. apply firstn_S_app_repeat.
Qed.

(** C2: over [n] items and [1 <= k <= n], the iterator built with
    [limits[i] = n-k+i+1], [index_map[i] = i-1], [increments[i] = 1]
    produces [C(n,k)] tuples; their index tuples are exactly the strictly
    increasing [k]-tuples over [0..n-1], each once, in lexicographic order;
    every later pull raises [StopIteration]. *)
Theorem lex_subsets_enumerate {A : Type} (objs : list A) (k : nat) :
  (1 <= k <= length objs)%nat ->
  Z.of_nat (length objs) <= int_max ->
  exists (s : Lex.t A) (cs : list (list Z)),
    Lex.__init__ objs (subset_limits (length objs) k) (subset_index_map k)
                 (subset_increments k) = Ok s /\
    length cs = binom (length objs) k /\
    (forall t, In t cs <->
               length t = k /\ StronglySorted Z.lt t /\
               Forall (fun z => 0 <= z < Z.of_nat (length objs)) t) /\
    NoDup cs /\
    StronglySorted lex_lt cs /\
    Forall (fun t => exists tup, map_to_tuple (map Some t) objs = Ok tup /\
                                 length tup = k) cs /\
    forall m : nat,
      map lex_view (pulls Lex.__next__ m s)
      = firstn m (map (entry objs) cs
                  ++ repeat (map Some (last cs []), Raise StopIteration) m).
Proof.
  intros Hk Hn. set (n := length objs) in *.
  set (s0 := Lex.mk k 0 objs (map Some (seqZ 0 k))
               (map Some (map (fun i => Z.of_nat n - Z.of_nat k + Z.of_nat i)
                              (seq 0 k)))
               (map Some (subset_index_map k))
               (map Some (subset_increments k))).
  set (nx := next_subset (Z.of_nat n)).
  destruct (combs_chain n 0 k ltac:(lia)) as (l & El & Hhd & HC).
  cbn [Z.add] in HC. fold nx in HC.
  destruct (combs n 0 k) as [|c0 cs'] eqn:Ecs; [discriminate|].
  cbn in Hhd. inversion Hhd; subst c0; clear Hhd.
  assert (Elast : last (seqZ 0 k :: cs') (seqZ 0 k)
                  = seqZ (Z.of_nat n - Z.of_nat k) k).
  { rewrite El, last_last. reflexivity. }
  assert (Hterm : nx (last (seqZ 0 k :: cs') (seqZ 0 k)) = None)
    by (rewrite Elast; apply next_subset_last).
  destruct (chain_orbit nx cs' (seqZ 0 k) (length cs') HC Hterm (le_n _))
    as [Eorb Eend].
  assert (HS0 : subset_state n k s0) by (repeat split).
  assert (HI0 : length (seqZ 0 k) = k /\
                Forall (fun z => 0 <= z < Z.of_nat n) (seqZ 0 k)).
  { split; [apply seqZ_length|]. rewrite seqZ_iota.
    eapply Forall_impl; [|apply iota_range]. cbn; intros; lia. }
  exists s0, (seqZ 0 k :: cs'). rewrite <- Ecs.
  split; [now apply lex_init_subset|].
  split; [apply binom_combs|].
  split; [intros t; apply (combs_In n 0 k t)|].
  split; [apply lex_sorted_NoDup, combs_lex_sorted|].
  split; [apply combs_lex_sorted|].
  split.
  - apply Forall_forall. intros t Ht.
    apply combs_In in Ht as (Hl & _ & HF).
    rewrite <- Hl. apply gather_in_range.
    eapply Forall_impl; [|exact HF]. cbn. intros. fold n. lia.
  - intros [|m]; [reflexivity|].
    rewrite Ecs. rewrite (last_cons_default cs' (seqZ 0 k) [] (seqZ 0 k)).
    rewrite <- Eend.
    cbn [map app firstn]. rewrite firstn_S_app_repeat, pulls_S.
    assert (Hpull : Lex.__next__ s0
                    = (Lex.set_generator_state s0 1,
                       map_to_tuple (map Some (seqZ 0 k)) objs))
      by reflexivity.
    rewrite Hpull. cbn [map fst]. unfold lex_view at 1, entry at 1.
    cbn [fst snd Lex.T Lex.set_generator_state s0]. f_equal.
    rewrite (lex_pulls_running n k Hn (length cs') (seqZ 0 k)
               (Lex.set_generator_state s0 1) m HS0 eq_refl eq_refl HI0).
    + fold nx. rewrite Eorb. reflexivity.
    + rewrite <- Eend in Hterm. exact Hterm.
Qed.

Lemma lex_subsets_enumerate_witness :
  exists (s : Lex.t string) (cs : list (list Z)),
    Lex.__init__ abc (subset_limits (length abc) 2) (subset_index_map 2)
                 (subset_increments 2) = Ok s /\
    length cs = binom (length abc) 2 /\
    (forall t, In t cs <->
               length t = 2%nat /\ StronglySorted Z.lt t /\
               Forall (fun z => 0 <= z < Z.of_nat (length abc)) t) /\
    NoDup cs /\
    StronglySorted lex_lt cs /\
    Forall (fun t => exists tup, map_to_tuple (map Some t) abc = Ok tup /\
                                 length tup = 2%nat) cs /\
    forall m : nat,
      map lex_view (pulls Lex.__next__ m s)
      = firstn m (map (entry abc) cs
                  ++ repeat (map Some (last cs []), Raise StopIteration) m).
Proof.
  apply (lex_subsets_enumerate abc 2).
  - cbn. lia.
  - vm_compute. discriminate.
Defined.

(** * Further properties of the module *)

(** ** Counters against the multinomial coefficient *)

Section CountersCorrect.
Variable L : Type.
Variable eq_op : L -> L -> bool.
Hypothesis eq_op_eq : forall x y, eq_op x y = true <-> x = y.

Lemma eq_op_refl (x : L) : eq_op x x = true.
Proof. now apply eq_op_eq. Qed.

Ltac label_cases :=
  repeat first
    [ progress (rewrite ?eq_op_refl in * )
    | progress (simpl in * )
    | match goal with
      | H : false = true |- _ => discriminate H
      | H : true = false |- _ => discriminate H
      | |- context [eq_op ?a ?b] =>
          let E := fresh "E" in
          destruct (eq_op a b) eqn:E;
          [apply eq_op_eq in E; subst
          |assert (a <> b)
            by (intros ->; rewrite eq_op_refl in E; discriminate E)]
      end ].

(** [count_permutations4] never meets a missing key and returns
    [4! / (m1! * m2! * ...)], the [mi] being the multiplicities of the
    distinct labels among its four arguments. *)
Theorem count_permutations4_multinomial (l0 l1 l2 l3 : L) :
  exists c, count_permutations4 eq_op l0 l1 l2 l3 = Some c /\
            c * Z.of_nat (mult_fact_product eq_op [l0; l1; l2; l3]) = 24.
Proof.
  unfold count_permutations4, dict_incr, mult_fact_product, mult.
  label_cases; eexists; split; try reflexivity; try discriminate.
Qed.

(** [count_permutations3] returns [3! / (m1! * m2! * ...)] exactly when its
    arguments are not of the shape [a, b, a] with [a <> b]. *)
Theorem count_permutations3_multinomial_iff (l0 l1 l2 : L) :
  count_permutations3 eq_op l0 l1 l2
  * Z.of_nat (mult_fact_product eq_op [l0; l1; l2]) = 6
  <-> ~ (l0 = l2 /\ l0 <> l1).
Proof.
  unfold count_permutations3, mult_fact_product, mult.
  label_cases;
    (split;
     [ intros Hc [Heq Hne]; first [congruence | discriminate Hc]
     | intros Hn; first [reflexivity | exfalso; apply Hn; split; congruence] ]).
Qed.
End CountersCorrect.

Lemma count_permutations3_multinomial_iff_witness :
  count_permutations3 Z.eqb 1 2 3
  * Z.of_nat (mult_fact_product Z.eqb [1; 2; 3]) = 6
  <-> ~ (1 = 3 /\ 1 <> 2).
Proof. apply (count_permutations3_multinomial_iff Z Z.eqb Z.eqb_eq). Defined.

Lemma count_permutations4_multinomial_witness :
  exists c, count_permutations4 Z.eqb 1 1 2 2 = Some c /\
            c * Z.of_nat (mult_fact_product Z.eqb [1; 1; 2; 2]) = 24.
Proof. apply (count_permutations4_multinomial Z Z.eqb Z.eqb_eq). Defined.


(** ** Sorters: what each arity guarantees *)

(** [sort4_int] returns its four arguments in ascending order. *)
Theorem sort4_int_sorts (i0 i1 i2 i3 : Z) :
  let '(s0, s1, s2, s3) := sort4_int i0 i1 i2 i3 in
  s0 <= s1 /\ s1 <= s2 /\ s2 <= s3 /\
  Permutation [i0; i1; i2; i3] [s0; s1; s2; s3].
Proof.
  pose proof (sort4_int_ascending i0 i1 i2 i3) as Ha.
  pose proof (sort4_int_permutation i0 i1 i2 i3) as Hp.
  destruct (sort4_int i0 i1 i2 i3) as [[[s0 s1] s2] s3]. tauto.
Qed.

(** [sort3_int] returns a rearrangement of its arguments whose first entry
    is not above its last one. *)
Theorem sort3_int_permutation_ends (s0 s1 s2 : Z) :
  let '(a, b, c) := sort3_int s0 s1 s2 in
  Permutation [s0; s1; s2] [a; b; c] /\ a <= c.
Proof.
  unfold sort3_int. gtb_cases; (split; [perm_small|lia]).
Qed.

(** [sort3_int] returns an ascending triple exactly when its third argument
    does not lie between the other two as in [s1 < s2 < s0] or
    [s0 <= s2 < s1]. *)
Theorem sort3_int_ascending_iff (s0 s1 s2 : Z) :
  (let '(a, b, c) := sort3_int s0 s1 s2 in a <= b /\ b <= c)
  <-> ~ (s1 < s2 /\ s2 < s0) /\ ~ (s0 <= s2 /\ s2 < s1).
Proof. unfold sort3_int. gtb_cases; lia. Qed.

(** ** [map_to_tuple] *)

(** [map_to_tuple] succeeds exactly when every cell is initialised with an
    index inside [objs]; the tuple then holds the objects at those indices,
    in order. *)
Theorem map_to_tuple_Ok_iff {A : Type} (data : IntArray) (objs t : list A) :
  map_to_tuple data objs = Ok t <->
  Forall2 (fun c o => exists n, c = Some n /\ 0 <= n /\
                                nth_error objs (Z.to_nat n) = Some o) data t.
Proof.
  revert t; induction data as [|c data IH]; intros t; cbn [map_to_tuple].
  - split.
    + intros H; inversion H; constructor.
    + intros H; inversion H; reflexivity.
  - split.
    + destruct c as [n|]; [|discriminate].
      destruct (Z.ltb_spec n 0) as [Hneg|Hnn]; [discriminate|].
      destruct (nth_error objs (Z.to_nat n)) as [o|] eqn:Eo; [|discriminate].
      destruct (map_to_tuple data objs) as [t'| |] eqn:Et; cbn;
        try discriminate.
      intros H; inversion H; subst. constructor; [|now apply IH].
      exists n. auto.
    + intros H. inversion H as [|c' o data' t' (n & -> & Hn & Eo) Ht]; subst.
      rewrite (proj2 (Z.ltb_ge n 0)) by lia. rewrite Eo.
      apply IH in Ht. rewrite Ht. reflexivity.
Qed.

(** On a fully initialised array [map_to_tuple] either succeeds, all indices
    being inside [objs], or raises [IndexError], some index being outside;
    it does nothing else. *)
Theorem map_to_tuple_initialised {A : Type} (q : list Z) (objs : list A) :
  (Forall (fun z => 0 <= z < Z.of_nat (length objs)) q /\
   exists t, map_to_tuple (map Some q) objs = Ok t /\ length t = length q)
  \/
  (Exists (fun z => z < 0 \/ Z.of_nat (length objs) <= z) q /\
   map_to_tuple (map Some q) objs = Raise IndexError).
Proof.
  induction q as [|z q IH].
  - left. split; [constructor|]. now exists [].
  - cbn [map map_to_tuple].
    destruct (Z.ltb_spec z 0) as [Hneg|Hnn].
    { right. split; [constructor; lia|reflexivity]. }
    destruct (nth_error objs (Z.to_nat z)) as [o|] eqn:Eo.
    + assert (Hz : z < Z.of_nat (length objs)).
      { assert (Z.to_nat z < length objs)%nat
          by (apply nth_error_Some; congruence). lia. }
      destruct IH as [(HF & t & -> & Hl)|(HE & ->)].
      * left. split; [constructor; [lia|assumption]|].
        exists (o :: t). cbn. now rewrite Hl.
      * right. split; [now apply Exists_cons_tl|reflexivity].
    + right. apply nth_error_None in Eo.
      split; [constructor; lia|reflexivity].
Qed.

(** ** End of sequence is final *)

Lemma map_to_tuple_not_StopIteration {A : Type} (objs : list A) :
  forall data : IntArray, map_to_tuple data objs <> Raise StopIteration.
Proof.
  induction data as [|[n|] data IH]; cbn; try discriminate.
  destruct (n <? 0); [discriminate|].
  destruct (nth_error objs (Z.to_nat n)); [|discriminate].
  destruct (map_to_tuple data objs); cbn; congruence.
Qed.

Lemma bind_no_raise {A B : Type} (m : result A) (f : A -> result B) (e : exn) :
  m <> Raise e -> (forall a, f a <> Raise e) -> bind m f <> Raise e.
Proof.
  intros Hm Hf. destruct m as [a|e0|]; cbn; [apply Hf|congruence|discriminate].
Qed.

Lemma scan_down_no_raise (test : nat -> result bool) (e : exn) :
  (forall i, test i <> Raise e) ->
  forall c, scan_down test c <> Raise e.
Proof.
  intros Ht. induction c as [|c IH]; cbn; [discriminate|].
  apply bind_no_raise; [apply Ht|]. intros [|]; [discriminate|exact IH].
Qed.

Lemma reverse_loop_no_raise (n i : nat) (e : exn) :
  forall (cnt k : nat) (p : IntArray),
    Perm.reverse_loop n i cnt k p <> Raise e.
Proof.
  induction cnt as [|cnt IH]; intros k p; cbn; [discriminate|].
  destruct (n - k + i <=? k)%nat; [discriminate|].
  repeat (apply bind_no_raise;
          [first [apply rd_no_raise | apply wr_no_raise]|intros ?]).
  apply IH.
Qed.

Lemma perm_next_no_raise {A : Type} (s : Perm.t A) (e : exn) :
  Perm._next s <> Raise e.
Proof.
  unfold Perm._next. apply bind_no_raise.
  - apply scan_down_no_raise. intros i.
    repeat (apply bind_no_raise; [apply rd_no_raise|intros ?]). discriminate.
  - intros [i|]; [|discriminate].
    apply bind_no_raise; [apply rd_no_raise|intros pi].
    apply bind_no_raise.
    + apply scan_down_no_raise. intros j.
      apply bind_no_raise; [apply rd_no_raise|intros ?]. discriminate.
    + intros [j|]; [|discriminate].
      repeat (apply bind_no_raise;
              [first [apply rd_no_raise | apply wr_no_raise
                     | apply reverse_loop_no_raise]|intros ?]).
      discriminate.
Qed.

Lemma lex_next_no_raise {A : Type} (s : Lex.t A) (e : exn) :
  Lex._next s <> Raise e.
Proof.
  unfold Lex._next. apply bind_no_raise.
  - apply scan_down_no_raise. intros g.
    repeat (apply bind_no_raise; [apply rd_no_raise|intros ?]). discriminate.
  - intros [g|]; [|discriminate].
    repeat (apply bind_no_raise;
            [first [apply rd_no_raise | apply wr_no_raise]|intros ?]).
    unfold Lex.rollover_next. apply bind_no_raise;
      [apply rollover_loop_no_raise|discriminate].
Qed.

(** Once a pull of a [PermutationIterator] raises [StopIteration], every
    later pull raises it again and the iterator no longer changes. *)
Theorem perm_StopIteration_is_final {A : Type} (s s' : Perm.t A) (m : nat) :
  Perm.__next__ s = (s', Raise StopIteration) ->
  pulls Perm.__next__ m s' = repeat (s', Raise StopIteration) m.
Proof.
  intros H. apply pulls_exhausted_perm.
  unfold Perm.__next__ in H.
  destruct (Perm.generator_state s =? 0) eqn:E0.
  { inversion H as [[Hs Ho]].
    exfalso. revert Ho. apply map_to_tuple_not_StopIteration. }
  destruct (Z.eqb_spec (Perm.generator_state s) 2) as [E2|E2].
  { inversion H; subst. exact E2. }
  destruct (Perm._next s) as [s1|e|] eqn:En.
  - destruct (Z.eqb_spec (Perm.generator_state s1) 2) as [E|E].
    + inversion H; subst. exact E.
    + inversion H as [[Hs Ho]]. exfalso. revert Ho.
      apply map_to_tuple_not_StopIteration.
  - now apply perm_next_no_raise in En.
  - discriminate.
Qed.

Lemma perm_StopIteration_is_final_witness :
  pulls Perm.__next__ 3 (Perm.mk abc [Some 2; Some 1; Some 0] 2)
  = repeat (Perm.mk abc [Some 2; Some 1; Some 0] 2, Raise StopIteration) 3.
Proof.
  apply (perm_StopIteration_is_final
           (Perm.mk abc [Some 2; Some 1; Some 0] 1)).
  reflexivity.
Defined.

(** The same for a [LexicographicIterator]; an [IndexError], by contrast,
    leaves the iterator running. *)
Theorem lex_StopIteration_is_final {A : Type} (s s' : Lex.t A) (m : nat) :
  Lex.__next__ s = (s', Raise StopIteration) ->
  pulls Lex.__next__ m s' = repeat (s', Raise StopIteration) m.
Proof.
  intros H. apply pulls_exhausted_lex.
  unfold Lex.__next__ in H.
  destruct (Lex.generator_state s =? 0) eqn:E0.
  { inversion H as [[Hs Ho]].
    exfalso. revert Ho. apply map_to_tuple_not_StopIteration. }
  destruct (Z.eqb_spec (Lex.generator_state s) 2) as [E2|E2].
  { inversion H; subst. exact E2. }
  destruct (Lex._next s) as [s1|e|] eqn:En.
  - destruct (Z.eqb_spec (Lex.generator_state s1) 2) as [E|E].
    + inversion H; subst. exact E.
    + inversion H as [[Hs Ho]]. exfalso. revert Ho.
      apply map_to_tuple_not_StopIteration.
  - now apply lex_next_no_raise in En.
  - discriminate.
Qed.

Lemma lex_StopIteration_is_final_witness :
  pulls Lex.__next__ 3
        (Lex.mk 1 2 abc [Some 2] [Some 2] [Some (-1)] [Some 0])
  = repeat (Lex.mk 1 2 abc [Some 2] [Some 2] [Some (-1)] [Some 0],
            Raise StopIteration) 3.
Proof.
  apply (lex_StopIteration_is_final
           (Lex.mk 1 1 abc [Some 2] [Some 2] [Some (-1)] [Some 0])).
  reflexivity.
Defined.

(** ** PermutationIterator: nothing is missed *)

Lemma perm_orbit_facts (n : nat) :
  let ps := orbit next_perm (fact n) (iota n) in
  length ps = fact n /\
  next_perm (orbit_end next_perm (fact n) (iota n)) = None /\
  Forall (fun p => NoDup p /\ Permutation (iota n) p) ps /\
  StronglySorted lex_lt ps.
Proof.
  cbv zeta.
  assert (Hinv : NoDup (iota n) /\ Permutation (iota n) (iota n))
    by (split; [apply iota_NoDup|apply Permutation_refl]).
  destruct (orbit_perm_length (fact n) (iota n) (iota_NoDup n)) as [Hlen Hend].
  { rewrite iota_length. lia. }
  rewrite (rank_ascending _ (iota_ascending n)), iota_length in Hlen.
  repeat split; [exact Hlen|exact Hend| |].
  - exact (orbit_Forall next_perm _ lex_lt (perm_step_invariant n)
             (fact n) (iota n) Hinv).
  - apply lex_sorted_strongly.
    exact (orbit_Sorted next_perm _ lex_lt (perm_step_invariant n)
             (fact n) (iota n) Hinv).
Qed.

Lemma perm_trace {A : Type} (objs : list A) (m : nat) :
  let n := length objs in
  map perm_view
      (pulls Perm.__next__ m (Perm.mk objs (map Some (iota n)) 0))
  = firstn m (map (entry objs) (orbit next_perm (fact n) (iota n))
              ++ repeat (map Some (orbit_end next_perm (fact n) (iota n)),
                         Raise StopIteration) m).
Proof.
  cbv zeta. set (n := length objs).
  set (s0 := Perm.mk objs (map Some (iota n)) 0).
  destruct (perm_orbit_facts n) as (Hlen & Hend & _ & _).
  destruct (orbit_head next_perm (fact n) (iota n)) as [l El].
  destruct m as [|m]; [reflexivity|].
  rewrite El. cbn [map app firstn].
  rewrite firstn_S_app_repeat, pulls_S.
  assert (Hlp : length (Perm.perm s0) = n)
    by (cbn; now rewrite length_map, iota_length).
  assert (Hpull : Perm.__next__ s0
                  = (Perm.set_generator_state
                       s0 (if (n =? 1)%nat then 2 else 1),
                     map_to_tuple (map Some (iota n)) objs)).
  { unfold Perm.__next__. cbn [Perm.generator_state s0 Z.eqb].
    fold s0. rewrite Hlp. destruct (n =? 1)%nat; reflexivity. }
  rewrite Hpull. cbn [map fst]. unfold perm_view at 1, entry at 1.
  cbn [fst snd Perm.perm Perm.set_generator_state s0]. f_equal.
  destruct (Nat.eqb_spec n 1) as [H1|H1].
  - rewrite (perm_pulls_stopped _ (iota n)) by reflexivity.
    assert (El' : l = []).
    { assert (length (iota n :: l) = 1%nat) as Hl1
          by (rewrite <- El, Hlen, H1; reflexivity).
      destruct l; [reflexivity|discriminate]. }
    rewrite El'. cbn [map app].
    assert (Ee : orbit_end next_perm (fact n) (iota n) = iota n).
    { rewrite <- (orbit_last next_perm []), El, El'. reflexivity. }
    rewrite Ee. now rewrite firstn_all2 by (rewrite repeat_length; lia).
  - rewrite (perm_pulls_running (fact n) (iota n)
               (Perm.set_generator_state s0 1) m eq_refl eq_refl Hend).
    rewrite El. reflexivity.
Qed.

Lemma inserts_In (x : Z) (p1 p2 : list Z) :
  In (p1 ++ x :: p2) (inserts x (p1 ++ p2)).
Proof.
  induction p1 as [|y p1 IH]; cbn.
  - destruct p2; cbn; auto.
  - right. apply in_map. exact IH.
Qed.

Lemma inserts_length (x : Z) (l : list Z) :
  length (inserts x l) = S (length l).
Proof.
  induction l as [|y l IH]; cbn; [reflexivity|].
  now rewrite length_map, IH.
Qed.

Lemma inserts_lengths (x : Z) (l q : list Z) :
  In q (inserts x l) -> length q = S (length l).
Proof.
  revert q; induction l as [|y l IH]; intros q; cbn.
  - intros [<-|[]]. reflexivity.
  - intros [<-|H]; [reflexivity|].
    apply in_map_iff in H as (q' & <- & Hq'). cbn. now rewrite (IH q').
Qed.

Lemma all_perms_lengths (l q : list Z) :
  In q (all_perms l) -> length q = length l.
Proof.
  revert q; induction l as [|x l IH]; intros q; cbn.
  - intros [<-|[]]. reflexivity.
  - intros H. apply in_flat_map in H as (q' & Hq' & Hq).
    apply inserts_lengths in Hq. rewrite Hq. f_equal. now apply IH.
Qed.

Lemma flat_map_length_const {B C : Type} (f : B -> list C) (c : nat) :
  forall l : list B,
    (forall b, In b l -> length (f b) = c) ->
    length (flat_map f l) = (length l * c)%nat.
Proof.
  induction l as [|b l IH]; intros H; cbn; [reflexivity|].
  rewrite length_app, (H b) by (cbn; auto).
  rewrite IH; [reflexivity|]. intros b' Hb'. apply H. now right.
Qed.

Lemma all_perms_length (l : list Z) :
  length (all_perms l) = fact (length l).
Proof.
  induction l as [|x l IH]; [reflexivity|].
  cbn [all_perms length fact].
  rewrite (flat_map_length_const _ (S (length l))).
  - rewrite IH. lia.
  - intros q Hq. rewrite inserts_length. f_equal.
    now apply all_perms_lengths.
Qed.

Lemma all_perms_complete (l : list Z) :
  forall p, Permutation l p -> In p (all_perms l).
Proof.
  induction l as [|x l IH]; intros p HP.
  - apply Permutation_nil in HP as ->. now left.
  - assert (Hin : In x p) by (eapply Permutation_in; [exact HP|now left]).
    apply in_split in Hin as (p1 & p2 & ->).
    apply Permutation_cons_app_inv in HP.
    cbn. apply in_flat_map. exists (p1 ++ p2). split; [now apply IH|].
    apply inserts_In.
Qed.

(** Every arrangement of the positions [0..n-1] is among the first [n!]
    pulls, which each produce a tuple. *)
Theorem perm_iterator_complete {A : Type} (objs : list A) (p : list Z) :
  Permutation (iota (length objs)) p ->
  exists (s : Perm.t A) (j : nat) (t : list A),
    Perm.__init__ objs = Ok s /\
    (j < fact (length objs))%nat /\
    nth_error (map perm_view (pulls Perm.__next__ (fact (length objs)) s)) j
    = Some (map Some p, Ok t) /\
    Permutation objs t.
Proof.
  intros HP. set (n := length objs) in *.
  destruct (perm_orbit_facts n) as (Hlen & _ & HF & HS).
  cbv zeta in *. set (ps := orbit next_perm (fact n) (iota n)) in *.
  assert (Hin : In p ps).
  { apply (NoDup_length_incl (l := ps) (l' := all_perms (iota n))).
    - now apply lex_sorted_NoDup.
    - rewrite all_perms_length, iota_length, Hlen. lia.
    - intros q Hq. rewrite Forall_forall in HF.
      apply all_perms_complete. now apply HF.
    - now apply all_perms_complete. }
  apply In_nth_error in Hin as [j Hj].
  destruct (gather_Permutation objs p HP) as (t & Et & Ht).
  exists (Perm.mk objs (map Some (iota n)) 0), j, t.
  split; [apply perm_init_Ok|].
  assert (Hjl : (j < fact n)%nat).
  { rewrite <- Hlen. apply nth_error_Some. congruence. }
  split; [exact Hjl|]. split; [|exact Ht].
  pose proof (perm_trace objs (fact n)) as Htr. cbv zeta in Htr.
  fold n in Htr. fold ps in Htr. rewrite Htr.
  rewrite firstn_app, firstn_all2 by (rewrite length_map, Hlen; lia).
  rewrite nth_error_app1 by (rewrite length_map, Hlen; lia).
  rewrite nth_error_map, Hj. cbn. unfold entry. now rewrite Et.
Qed.

Lemma perm_iterator_complete_witness :
  exists (s : Perm.t string) (j : nat) (t : list string),
    Perm.__init__ abc = Ok s /\
    (j < fact (length abc))%nat /\
    nth_error (map perm_view (pulls Perm.__next__ (fact (length abc)) s)) j
    = Some (map Some [1; 2; 0], Ok t) /\
    Permutation abc t.
Proof.
  apply (perm_iterator_complete abc [1; 2; 0]).
  cbn. apply Permutation_cons_app with (l1 := [1; 2]) (l2 := []).
  apply Permutation_refl.
Defined.

Lemma ascending_Permutation_eq (l1 : list Z) :
  forall l2 : list Z,
    StronglySorted Z.lt l1 -> StronglySorted Z.lt l2 ->
    Permutation l1 l2 -> l1 = l2.
Proof.
  induction l1 as [|x l1 IH]; intros l2 H1 H2 HP.
  - apply Permutation_nil in HP. now subst.
  - destruct l2 as [|y l2];
      [apply Permutation_sym, Permutation_nil in HP; discriminate|].
    apply StronglySorted_inv in H1 as [H1 Hx].
    apply StronglySorted_inv in H2 as [H2 Hy].
    rewrite Forall_forall in Hx, Hy.
    assert (x = y).
    { assert (Hxin : In x (y :: l2))
        by (eapply Permutation_in; [exact HP|now left]).
      assert (Hyin : In y (x :: l1))
        by (eapply Permutation_in; [apply Permutation_sym; exact HP|now left]).
      destruct Hxin as [->|Hxin]; [reflexivity|].
      destruct Hyin as [->|Hyin]; [reflexivity|].
      specialize (Hy x Hxin). specialize (Hx y Hyin). lia. }
    subst y. f_equal. apply IH; auto.
    now apply Permutation_cons_inv in HP.
Qed.

Lemma nth_error_last {B : Type} (d : B) :
  forall l : list B,
    l <> [] -> nth_error l (length l - 1) = Some (last l d).
Proof.
  induction l as [|b l IH]; intros H; [congruence|].
  destruct l as [|c l]; [reflexivity|].
  cbn [length]. replace (S (S (length l)) - 1)%nat with (S (length (c :: l) - 1))
    by (cbn; lia).
  cbn [nth_error]. rewrite IH by discriminate. reflexivity.
Qed.

Lemma gather_reversed {A : Type} (objs : list A) :
  map_to_tuple (map Some (rev (iota (length objs)))) objs = Ok (rev objs).
Proof.
  destruct objs as [|d objs'] eqn:E; [reflexivity|]. rewrite <- E.
  rewrite (map_to_tuple_Ok objs d) by (apply Forall_rev, iota_range).
  now rewrite map_rev, gather_iota.
Qed.

(** The last of the [n!] tuples is the items in reverse order. *)
Theorem perm_iterator_last_reversed {A : Type} (objs : list A) :
  exists s : Perm.t A,
    Perm.__init__ objs = Ok s /\
    nth_error (map snd (pulls Perm.__next__ (fact (length objs)) s))
              (fact (length objs) - 1)
    = Some (Ok (rev objs)).
Proof.
  set (n := length objs).
  exists (Perm.mk objs (map Some (iota n)) 0).
  split; [apply perm_init_Ok|].
  destruct (perm_orbit_facts n) as (Hlen & Hend & HF & _).
  cbv zeta in *. set (ps := orbit next_perm (fact n) (iota n)) in *.
  assert (Hne : ps <> []).
  { intros E. rewrite E in Hlen. pose proof (lt_O_fact n). cbn in Hlen. lia. }
  assert (Elast : last ps [] = rev (iota n)).
  { unfold ps. rewrite (orbit_last next_perm).
    assert (Hin : In (orbit_end next_perm (fact n) (iota n)) ps).
    { rewrite <- (orbit_last next_perm []). fold ps.
      eapply nth_error_In. apply (nth_error_last [] ps Hne). }
    rewrite Forall_forall in HF. destruct (HF _ Hin) as [_ HP].
    apply next_perm_None in Hend.
    rewrite <- (rev_involutive (orbit_end next_perm (fact n) (iota n))).
    f_equal. symmetry. apply ascending_Permutation_eq.
    - apply iota_ascending.
    - now apply StronglySorted_rev_gt.
    - rewrite <- Permutation_rev. exact HP. }
  replace (map snd (pulls Perm.__next__ (fact n)
                          (Perm.mk objs (map Some (iota n)) 0)))
    with (map snd (map perm_view
                       (pulls Perm.__next__ (fact n)
                              (Perm.mk objs (map Some (iota n)) 0))))
    by (rewrite map_map; reflexivity).
  pose proof (perm_trace objs (fact n)) as Htr. cbv zeta in Htr.
  fold n in Htr. fold ps in Htr. rewrite Htr.
  rewrite firstn_app, firstn_all2 by (rewrite length_map, Hlen; lia).
  rewrite length_map, Hlen, Nat.sub_diag, firstn_0, app_nil_r.
  rewrite !nth_error_map. rewrite <- Hlen.
  rewrite (nth_error_last [] ps Hne), Elast. cbn [option_map].
  unfold entry. cbn [snd]. unfold n. now rewrite gather_reversed.
Qed.

(** ** LexicographicIterator: backward-referring configurations *)

Section Backward.
Variables im inc : list Z.
Hypothesis Hback : backward im.
Hypothesis Hcov : inc_covers im inc.

Lemma rollover_loop_backward :
  forall (cnt i : nat) (pre : list Z) (rest : IntArray),
    length pre = i -> length rest = cnt ->
    (i + cnt = length im)%nat ->
    Lex.rollover_loop (map Some im) (map Some inc) cnt i (map Some pre ++ rest)
    = Ok (map Some (extend im inc cnt pre)).
Proof.
  induction cnt as [|cnt IH]; intros i pre rest Hpre Hrest Hk.
  - destruct rest; [|discriminate]. cbn. now rewrite app_nil_r.
  - destruct rest as [|c rest]; [discriminate|].
    cbn [Lex.rollover_loop extend].
    rewrite rd_init by lia. cbn [bind].
    assert (Hm : nth i im 0 < Z.of_nat i) by (apply Hback; lia).
    pose proof (upd_middle (map Some pre) rest c) as Eu.
    rewrite length_map, Hpre in Eu.
    assert (Estep : (if nth i im 0 <? 0
                     then wr (map Some pre ++ c :: rest) i 0
                     else
                       v <- rd (map Some pre ++ c :: rest)
                               (Z.to_nat (nth i im 0)) ;;
                       inc0 <- rd (map Some inc) i ;;
                       wr (map Some pre ++ c :: rest) i (wrap (v + inc0)))
                    = Ok (map Some (pre ++ [rolled im inc pre i]) ++ rest)).
    { unfold rolled. destruct (Z.ltb_spec (nth i im 0) 0) as [Hneg|Hnn].
      - rewrite wr_Ok by (rewrite length_app, length_map; cbn; lia).
        rewrite Eu, map_app, <- app_assoc. reflexivity.
      - assert (Erd : rd (map Some pre ++ c :: rest) (Z.to_nat (nth i im 0))
                      = Ok (nth (Z.to_nat (nth i im 0)) pre 0)).
        { unfold rd. rewrite nth_error_app1 by (rewrite length_map; lia).
          rewrite nth_error_map, nth_error_nth_Z by lia. reflexivity. }
        rewrite Erd. cbn [bind].
        rewrite rd_init by (apply Hcov; lia). cbn [bind].
        rewrite wr_Ok by (rewrite length_app, length_map; cbn; lia).
        rewrite Eu, map_app, <- app_assoc. reflexivity. }
    rewrite Estep. cbn [bind]. rewrite Hpre.
    apply IH.
    + rewrite length_app. cbn. lia.
    + cbn in Hrest. lia.
    + lia.
Qed.

Lemma extend_length :
  forall (cnt : nat) (pre : list Z),
    length (extend im inc cnt pre) = (length pre + cnt)%nat.
Proof.
  induction cnt as [|cnt IH]; intros pre; cbn [extend]; [lia|].
  rewrite IH, length_app. cbn. lia.
Qed.

Lemma extend_prefix :
  forall (cnt : nat) (pre : list Z) (j : nat),
    (j < length pre)%nat ->
    nth j (extend im inc cnt pre) 0 = nth j pre 0.
Proof.
  induction cnt as [|cnt IH]; intros pre j Hj; cbn [extend]; [reflexivity|].
  rewrite IH by (rewrite length_app; cbn; lia).
  now rewrite app_nth1.
Qed.

Lemma extend_app :
  forall (cnt : nat) (pre : list Z),
    exists suf, extend im inc cnt pre = pre ++ suf /\ length suf = cnt.
Proof.
  induction cnt as [|cnt IH]; intros pre; cbn [extend].
  - exists []. now rewrite app_nil_r.
  - destruct (IH (pre ++ [rolled im inc pre (length pre)])) as (suf & E & Hl).
    exists (rolled im inc pre (length pre) :: suf).
    rewrite E, <- app_assoc. cbn. now rewrite Hl.
Qed.

Lemma extend_firstn (cnt : nat) (pre : list Z) :
  firstn (length pre) (extend im inc cnt pre) = pre.
Proof.
  destruct (extend_app cnt pre) as (suf & -> & _).
  now rewrite firstn_app, firstn_all, Nat.sub_diag, firstn_0, app_nil_r.
Qed.

Lemma rolled_agree (p q : list Z) (i : nat) :
  (i < length im)%nat ->
  (forall x, (x < i)%nat -> nth x p 0 = nth x q 0) ->
  rolled im inc p i = rolled im inc q i.
Proof.
  intros Hi H. unfold rolled.
  destruct (Z.ltb_spec (nth i im 0) 0) as [|Hnn]; [reflexivity|].
  rewrite H; [reflexivity|]. specialize (Hback i Hi). lia.
Qed.

(** After [extend], every added position holds what the rollover rule
    gives from the final array. *)
Lemma extend_rule :
  forall (cnt : nat) (pre : list Z) (j : nat),
    (length pre + cnt <= length im)%nat ->
    (length pre <= j < length pre + cnt)%nat ->
    nth j (extend im inc cnt pre) 0
    = rolled im inc (extend im inc cnt pre) j.
Proof.
  induction cnt as [|cnt IH]; intros pre j Hk Hj; [lia|].
  cbn [extend].
  set (pre' := pre ++ [rolled im inc pre (length pre)]).
  assert (Hl' : length pre' = S (length pre))
    by (unfold pre'; rewrite length_app; cbn; lia).
  destruct (Nat.eq_dec j (length pre)) as [->|Hne].
  - rewrite extend_prefix by lia.
    unfold pre' at 1. rewrite nth_middle.
    apply rolled_agree; [lia|]. intros x Hx.
    rewrite extend_prefix by lia. unfold pre'. now rewrite app_nth1.
  - apply IH; lia.
Qed.
End Backward.

Lemma stored_index_map_length (im : list Z) :
  length (stored_index_map im) = length im.
Proof. apply length_map. Qed.

Lemma stored_index_map_nth (im : list Z) (i : nat) :
  nth i (stored_index_map im) 0
  = if nth i im 0 <? 0 then -1 else nth i im 0.
Proof.
  unfold stored_index_map.
  exact (map_nth (fun z => if z <? 0 then -1 else z) im 0 i).
Qed.

Lemma rolled_stored (im inc t : list Z) (i : nat) :
  rolled (stored_index_map im) inc t i = rolled im inc t i.
Proof.
  unfold rolled. rewrite stored_index_map_nth.
  destruct (Z.ltb_spec (nth i im 0) 0) as [H|H]; [reflexivity|].
  now rewrite (proj2 (Z.ltb_ge _ _) H).
Qed.

Lemma backward_stored (im : list Z) :
  backward im -> backward (stored_index_map im).
Proof.
  intros H i Hi. rewrite stored_index_map_length in Hi.
  rewrite stored_index_map_nth. specialize (H i Hi).
  destruct (nth i im 0 <? 0); lia.
Qed.

Lemma inc_covers_stored (im inc : list Z) :
  inc_covers im inc -> inc_covers (stored_index_map im) inc.
Proof.
  intros H i Hi. rewrite stored_index_map_length in Hi.
  rewrite stored_index_map_nth. intros H0. apply H; [assumption|].
  destruct (Z.ltb_spec (nth i im 0) 0); lia.
Qed.

Lemma store_index_map_stored (k : nat) (index_map : list Z) :
  (forall i, (i < length index_map)%nat -> nth i index_map 0 <= Z.of_nat k) ->
  forall (cnt i : nat),
    (i + cnt = length index_map)%nat ->
    Lex.store_index_map k index_map cnt i
      (map Some (firstn i (stored_index_map index_map)) ++ repeat None cnt)
    = Ok (map Some (stored_index_map index_map)).
Proof.
  intros Hle. induction cnt as [|cnt IH]; intros i Hk.
  - cbn. rewrite app_nil_r, firstn_all2
      by (rewrite stored_index_map_length; lia).
    reflexivity.
  - cbn [Lex.store_index_map repeat].
    rewrite nth_error_nth_Z by lia.
    set (a := map Some (firstn i (stored_index_map index_map))
              ++ None :: repeat None cnt).
    assert (Ew : forall v, v = nth i (stored_index_map index_map) 0 ->
               (a' <- wr a i v ;;
                Lex.store_index_map k index_map cnt (S i) a')
               = Ok (map Some (stored_index_map index_map))).
    { intros v ->. unfold a.
      rewrite wr_Ok
        by (rewrite length_app, length_map, length_firstn,
              stored_index_map_length; cbn; lia).
      cbn [bind].
      pose proof (upd_middle (map Some (firstn i (stored_index_map index_map)))
                    (repeat None cnt) None
                    (Some (nth i (stored_index_map index_map) 0))) as Eu.
      rewrite length_map, length_firstn, stored_index_map_length in Eu.
      replace (Nat.min i (length index_map)) with i in Eu by lia. rewrite Eu.
      replace (map Some (firstn i (stored_index_map index_map))
               ++ Some (nth i (stored_index_map index_map) 0)
                  :: repeat None cnt)
        with (map Some (firstn (S i) (stored_index_map index_map))
              ++ repeat None cnt).
      - apply IH. lia.
      - rewrite firstn_S_nth by (rewrite stored_index_map_length; lia).
        rewrite map_app, <- app_assoc. reflexivity. }
    rewrite stored_index_map_nth in Ew.
    destruct (Z.ltb_spec (nth i index_map 0) 0) as [Hneg|Hnn].
    + now apply Ew.
    + rewrite Z.gtb_ltb, (proj2 (Z.ltb_ge _ _)) by (apply Hle; lia).
      now apply Ew.
Qed.

Lemma lex_init_backward_state {A : Type} (objs : list A)
      (limits index_map increments : list Z) :
  (1 <= length limits)%nat ->
  length index_map = length limits ->
  backward index_map ->
  inc_covers index_map increments ->
  Lex.__init__ objs limits index_map increments
  = Ok (Lex.mk (length limits) 0 objs
               (map Some (extend (stored_index_map index_map) increments
                                 (length limits - 1) [0]))
               (map Some (stored_limits limits))
               (map Some (stored_index_map index_map))
               (map Some increments)).
Proof.
  intros Hk Hlen Hb Hc. unfold Lex.__init__, to_intarray.
  rewrite length_map. set (k := length limits) in *.
  pose proof (store_index_map_stored k index_map) as Es.
  specialize (Es ltac:(intros i Hi; specialize (Hb i Hi); lia) k 0%nat
                 ltac:(lia)).
  cbn [firstn map app] in Es. unfold IntArray_new. rewrite Es. cbn [bind].
  destruct k as [|k'] eqn:Ek; [lia|].
  assert (E0 : wr (repeat None (S k')) 0 0
               = Ok (map Some [0] ++ repeat None k')) by reflexivity.
  rewrite E0. cbn [bind]. unfold Lex.rollover_next.
  cbn [Lex.index_map Lex.increments Lex.k Lex.T].
  replace (S k' - (0 + 1))%nat with k' by lia.
  rewrite (rollover_loop_backward (stored_index_map index_map) increments
             (backward_stored _ Hb) (inc_covers_stored _ _ Hc)
             k' (0 + 1) [0] (repeat None k')).
  - cbn [bind]. unfold Lex.set_generator_state, Lex.set_T.
    cbn [Lex.k Lex.objs Lex.limits Lex.index_map Lex.increments Lex.T
         Lex.generator_state].
    unfold stored_limits. rewrite !map_map.
    replace (S k' - 1)%nat with k' by lia. reflexivity.
  - reflexivity.
  - apply repeat_length.
  - rewrite stored_index_map_length. lia.
Qed.

Lemma lex_next_backward {A : Type} (lim im inc : list Z) (s : Lex.t A)
      (t : list Z) :
  lex_state lim im inc s ->
  backward im -> inc_covers im inc ->
  Lex.T s = map Some t ->
  length t = length lim ->
  Lex._next s = match next_lex lim im inc t with
                | Some t' => Ok (Lex.set_T s (map Some t'))
                | None => Ok (Lex.set_generator_state s 2)
                end.
Proof.
  intros (Ek & El & Ei & Ec & Hlen) Hb Hc ET Ht.
  unfold Lex._next, next_lex. rewrite Ek, El, ET, Ht.
  rewrite (scan_down_pure _ (fun g => nth g t 0 <? nth g lim 0)).
  2:{ intros g Hg. rewrite !rd_init by lia. reflexivity. }
  cbn [bind].
  destruct (pscan _ (length lim)) as [g|] eqn:Eg; [|reflexivity].
  apply pscan_Some in Eg as (Hg & _ & _).
  rewrite rd_init by lia. cbn [bind].
  rewrite wr_init by lia. cbn [bind].
  unfold Lex.rollover_next.
  cbn [Lex.set_T Lex.index_map Lex.increments Lex.k Lex.T].
  rewrite Ek, Ei, Ec.
  rewrite upd_firstn_skipn by lia.
  set (v := wrap (nth g t 0 + 1)).
  replace (map Some (firstn g t ++ v :: skipn (S g) t))
    with (map Some (firstn g t ++ [v]) ++ map Some (skipn (S g) t))
    by (rewrite !map_app, <- app_assoc; reflexivity).
  rewrite (rollover_loop_backward im inc Hb Hc).
  - cbn [bind]. unfold Lex.set_T.
    cbn [Lex.k Lex.objs Lex.limits Lex.index_map Lex.increments Lex.T
         Lex.generator_state]. reflexivity.
  - rewrite length_app, length_firstn. cbn. lia.
  - rewrite length_map, length_skipn. lia.
  - lia.
Qed.

(** Construction over a backward-referring [index_map] succeeds: position 0
    starts at 0 and every later position holds what the rollover rule gives,
    [0] for a negative entry and [T[index_map[i]] + increments[i]]
    otherwise. *)
Theorem lex_init_backward {A : Type} (objs : list A)
        (limits index_map increments : list Z) :
  (1 <= length limits)%nat ->
  length index_map = length limits ->
  backward index_map ->
  inc_covers index_map increments ->
  exists (s : Lex.t A) (t : list Z),
    Lex.__init__ objs limits index_map increments = Ok s /\
    lex_state (stored_limits limits) (stored_index_map index_map)
              increments s /\
    Lex.generator_state s = 0 /\
    Lex.T s = map Some t /\
    length t = length limits /\
    nth 0 t 0 = 0 /\
    forall i, (1 <= i < length limits)%nat ->
              nth i t 0 = rolled index_map increments t i.
Proof.
  intros Hk Hlen Hb Hc.
  pose proof (backward_stored _ Hb) as Hb'.
  pose proof (inc_covers_stored _ _ Hc) as Hc'.
  eexists. exists (extend (stored_index_map index_map) increments
                          (length limits - 1) [0]).
  split; [now apply lex_init_backward_state|].
  split.
  { repeat split; cbn; unfold stored_limits, stored_index_map;
      rewrite ?length_map; auto. }
  split; [reflexivity|]. split; [reflexivity|].
  split; [rewrite extend_length; cbn; lia|].
  split; [now rewrite extend_prefix by (cbn; lia)|].
  intros i Hi. rewrite <- rolled_stored.
  apply extend_rule; auto; cbn; rewrite ?stored_index_map_length; lia.
Qed.

Lemma backward_example : backward [-1; 0].
Proof. intros [|[|i]] H; cbn in *; lia. Qed.

Lemma inc_covers_example : inc_covers [-1; 0] [0; 1].
Proof. intros [|[|i]] H; cbn in *; lia. Qed.

Lemma lex_init_backward_witness :
  exists (s : Lex.t string) (t : list Z),
    Lex.__init__ abc [2; 3] [-1; 0] [0; 1] = Ok s /\
    lex_state (stored_limits [2; 3]) (stored_index_map [-1; 0]) [0; 1] s /\
    Lex.generator_state s = 0 /\
    Lex.T s = map Some t /\
    length t = length [2; 3] /\
    nth 0 t 0 = 0 /\
    forall i, (1 <= i < length [2; 3])%nat ->
              nth i t 0 = rolled [-1; 0] [0; 1] t i.
Proof.
  apply (lex_init_backward abc [2; 3] [-1; 0] [0; 1]).
  - cbn. lia.
  - reflexivity.
  - exact backward_example.
  - exact inc_covers_example.
Defined.

(** One step over a backward-referring configuration: if no position is
    below its limit the state becomes exhausted and [T] is kept; otherwise
    the rightmost such position [g] is incremented, the positions before
    [g] are kept and every position after [g] is rolled over. *)
Theorem lex_next_step {A : Type} (lim im inc : list Z) (s : Lex.t A)
        (t : list Z) :
  lex_state lim im inc s ->
  backward im -> inc_covers im inc ->
  Lex.T s = map Some t ->
  length t = length lim ->
  ((forall g, (g < length lim)%nat -> nth g lim 0 <= nth g t 0) /\
   Lex._next s = Ok (Lex.set_generator_state s 2))
  \/
  (exists (g : nat) (t' : list Z),
      (g < length lim)%nat /\
      nth g t 0 < nth g lim 0 /\
      (forall j, (g < j < length lim)%nat -> nth j lim 0 <= nth j t 0) /\
      Lex._next s = Ok (Lex.set_T s (map Some t')) /\
      length t' = length lim /\
      firstn g t' = firstn g t /\
      nth g t' 0 = wrap (nth g t 0 + 1) /\
      forall i, (g < i < length lim)%nat -> nth i t' 0 = rolled im inc t' i).
Proof.
  intros HS Hb Hc ET Ht.
  rewrite (lex_next_backward lim im inc s t HS Hb Hc ET Ht).
  destruct HS as (_ & _ & _ & _ & Hlen).
  unfold next_lex. rewrite Ht.
  destruct (pscan _ (length lim)) as [g|] eqn:Eg.
  - right. apply pscan_Some in Eg as (Hg & Tg & Dg).
    apply Z.ltb_lt in Tg.
    set (pre := firstn g t ++ [wrap (nth g t 0 + 1)]).
    assert (Hlp : length pre = (g + 1)%nat)
      by (unfold pre; rewrite length_app, length_firstn; cbn; lia).
    exists g, (extend im inc (length lim - (g + 1)) pre).
    repeat split; auto.
    + intros j Hj. specialize (Dg j Hj). now apply Z.ltb_ge in Dg.
    + rewrite extend_length. lia.
    + destruct (extend_app im inc (length lim - (g + 1)) pre)
        as (suf & -> & _).
      unfold pre. rewrite <- app_assoc.
      rewrite firstn_app, length_firstn.
      replace (g - Nat.min g (length t))%nat with 0%nat by lia.
      rewrite firstn_0, app_nil_r. rewrite firstn_firstn. f_equal. lia.
    + rewrite extend_prefix by lia. unfold pre.
      replace g with (length (firstn g t)) at 1
        by (rewrite length_firstn; lia).
      apply nth_middle.
    + intros i Hi. apply extend_rule; auto; lia.
  - left. split; [|reflexivity]. intros g Hg.
    apply (pscan_None _ _ Eg) in Hg. now apply Z.ltb_ge in Hg.
Qed.

Lemma lex_next_step_witness :
  let s := Lex.mk 2 1 abc [Some 0; Some 1] [Some 1; Some 2]
                  [Some (-1); Some 0] [Some 0; Some 1] in
  let lim := [1; 2] in
  let t := [0; 1] in
  ((forall g, (g < length lim)%nat -> nth g lim 0 <= nth g t 0) /\
   Lex._next s = Ok (Lex.set_generator_state s 2))
  \/
  (exists (g : nat) (t' : list Z),
      (g < length lim)%nat /\
      nth g t 0 < nth g lim 0 /\
      (forall j, (g < j < length lim)%nat -> nth j lim 0 <= nth j t 0) /\
      Lex._next s = Ok (Lex.set_T s (map Some t')) /\
      length t' = length lim /\
      firstn g t' = firstn g t /\
      nth g t' 0 = wrap (nth g t 0 + 1) /\
      forall i, (g < i < length lim)%nat ->
                nth i t' 0 = rolled [-1; 0] [0; 1] t' i).
Proof.
  cbv zeta.
  apply (lex_next_step [1; 2] [-1; 0] [0; 1]
           (Lex.mk 2 1 abc [Some 0; Some 1] [Some 1; Some 2]
                   [Some (-1); Some 0] [Some 0; Some 1]) [0; 1]).
  - repeat split; reflexivity.
  - exact backward_example.
  - exact inc_covers_example.
  - reflexivity.
  - reflexivity.
Defined.

(** ** LexicographicIterator: indices stay within the limits *)

Lemma pulls_Forall {S O : Type} (pull : S -> S * O) (Inv : S -> Prop)
      (P : S * O -> Prop) :
  (forall s, Inv s -> P (pull s) /\ Inv (fst (pull s))) ->
  forall (m : nat) (s : S), Inv s -> Forall P (pulls pull m s).
Proof.
  intros H. induction m as [|m IH]; intros s Hs; [constructor|].
  rewrite pulls_S. destruct (H s Hs) as [HP HI].
  constructor; [exact HP|now apply IH].
Qed.

Section Within.
Variables lim im inc : list Z.
Hypothesis Hlen : length im = length lim.
Hypothesis Hback : backward im.
Hypothesis Hcov : inc_covers im inc.
Hypothesis Hlim : forall i, (i < length lim)%nat -> 0 <= nth i lim 0 <= int_max.
Hypothesis Hfit :
  forall i, (i < length lim)%nat -> 0 <= nth i im 0 ->
    0 <= nth i inc 0 /\
    nth (Z.to_nat (nth i im 0)) lim 0 + nth i inc 0 <= nth i lim 0.

Lemma rolled_within (pre : list Z) (i : nat) :
  (i < length lim)%nat ->
  (forall j, (j < i)%nat -> 0 <= nth j pre 0 <= nth j lim 0) ->
  0 <= rolled im inc pre i <= nth i lim 0.
Proof.
  intros Hi Hpre. unfold rolled.
  destruct (Z.ltb_spec (nth i im 0) 0) as [Hneg|Hnn].
  - specialize (Hlim i Hi). lia.
  - destruct (Hfit i Hi Hnn) as [H0 Hsum].
    assert (Hm : (Z.to_nat (nth i im 0%Z) < i)%nat)
      by (specialize (Hback i ltac:(lia)); lia).
    specialize (Hpre _ Hm). specialize (Hlim i Hi).
    rewrite wrap_small; [lia|].
    assert (int_min = -2147483648) by reflexivity. lia.
Qed.

Lemma extend_within :
  forall (cnt : nat) (pre : list Z),
    (length pre + cnt <= length lim)%nat ->
    (forall j, (j < length pre)%nat -> 0 <= nth j pre 0 <= nth j lim 0) ->
    forall j, (j < length pre + cnt)%nat ->
              0 <= nth j (extend im inc cnt pre) 0 <= nth j lim 0.
Proof.
  induction cnt as [|cnt IH]; intros pre Hk Hpre j Hj; cbn [extend].
  - apply Hpre. lia.
  - apply IH.
    + rewrite length_app. cbn. lia.
    + intros x Hx. rewrite length_app in Hx. cbn in Hx.
      destruct (Nat.eq_dec x (length pre)) as [->|Hne].
      * rewrite nth_middle. apply rolled_within; [lia|assumption].
      * rewrite app_nth1 by lia. apply Hpre. lia.
    + rewrite length_app. cbn. lia.
Qed.

Lemma next_lex_within (t t' : list Z) :
  length t = length lim -> within lim t ->
  next_lex lim im inc t = Some t' ->
  length t' = length lim /\ within lim t'.
Proof.
  intros Ht Hw E. unfold next_lex in E. rewrite Ht in E.
  destruct (pscan _ (length lim)) as [g|] eqn:Eg; [|discriminate].
  inversion E; subst t'; clear E.
  apply pscan_Some in Eg as (Hg & Tg & _). apply Z.ltb_lt in Tg.
  set (pre := firstn g t ++ [wrap (nth g t 0 + 1)]).
  assert (Hlp : length pre = (g + 1)%nat)
    by (unfold pre; rewrite length_app, length_firstn; cbn; lia).
  split; [rewrite extend_length; lia|].
  intros j Hj. apply extend_within; try lia.
  intros x Hx. unfold pre.
  destruct (Nat.eq_dec x g) as [->|Hne].
  - assert (Eg : nth g (firstn g t ++ [wrap (nth g t 0 + 1)]) 0
                 = wrap (nth g t 0 + 1)).
    { replace g with (length (firstn g t)) at 1
        by (rewrite length_firstn; lia).
      apply nth_middle. }
    rewrite Eg.
    specialize (Hw g Hg). specialize (Hlim g Hg).
    rewrite wrap_small; [lia|].
    assert (int_min = -2147483648) by reflexivity. lia.
  - rewrite app_nth1 by (rewrite length_firstn; lia).
    rewrite nth_firstn.
    replace (x <? g)%nat with true by (symmetry; apply Nat.ltb_lt; lia).
    apply Hw. lia.
Qed.

Lemma lex_pull_within {A : Type} (objs : list A) (s : Lex.t A) :
  (lex_state lim im inc s /\ Lex.objs s = objs /\
   exists t, Lex.T s = map Some t /\ length t = length lim /\ within lim t) ->
  (snd (Lex.__next__ s) = Raise StopIteration \/
   snd (Lex.__next__ s)
   = map_to_tuple (Lex.T (fst (Lex.__next__ s))) objs) /\
  (lex_state lim im inc (fst (Lex.__next__ s)) /\
   Lex.objs (fst (Lex.__next__ s)) = objs /\
   exists t, Lex.T (fst (Lex.__next__ s)) = map Some t /\
             length t = length lim /\ within lim t).
Proof.
  intros (HS & Ho & t & ET & Ht & Hw). unfold Lex.__next__.
  destruct (Lex.generator_state s =? 0).
  { cbn [fst snd]. split; [right; unfold Lex._current; cbn; now rewrite Ho|].
    split; [exact HS|]. split; [exact Ho|]. now exists t. }
  destruct (Lex.generator_state s =? 2).
  { cbn [fst snd]. split; [now left|]. split; [exact HS|].
    split; [exact Ho|]. now exists t. }
  rewrite (lex_next_backward lim im inc s t HS Hback Hcov ET Ht).
  destruct (next_lex lim im inc t) as [t'|] eqn:E.
  - destruct (next_lex_within t t' Ht Hw E) as [Ht' Hw'].
    assert (HI : lex_state lim im inc (Lex.set_T s (map Some t')) /\
                 Lex.objs (Lex.set_T s (map Some t')) = objs /\
                 exists t0, Lex.T (Lex.set_T s (map Some t')) = map Some t0 /\
                            length t0 = length lim /\ within lim t0).
    { split; [exact HS|]. split; [exact Ho|]. now exists t'. }
    destruct (Lex.generator_state (Lex.set_T s (map Some t')) =? 2);
      cbn [fst snd]; (split; [|exact HI]); [now left|right].
    unfold Lex._current. cbn. now rewrite Ho.
  - cbn [Lex.generator_state Lex.set_generator_state Z.eqb Pos.eqb fst snd].
    split; [now left|]. split; [exact HS|]. split; [exact Ho|]. now exists t.
Qed.
End Within.

Lemma stored_limits_nth (limits : list Z) (i : nat) :
  (i < length limits)%nat ->
  nth i (stored_limits limits) 0 = wrap (nth i limits 0 - 1).
Proof.
  intros H. unfold stored_limits.
  rewrite (nth_indep _ 0 (wrap (0 - 1))) by now rewrite length_map.
  exact (map_nth (fun l => wrap (l - 1)) limits 0 i).
Qed.

Lemma well_bounded_stored (limits index_map increments : list Z) :
  length index_map = length limits ->
  backward index_map ->
  well_bounded limits index_map increments ->
  (forall i, (i < length (stored_limits limits))%nat ->
             nth i (stored_limits limits) 0 = nth i limits 0 - 1 /\
             0 <= nth i (stored_limits limits) 0 <= int_max) /\
  (forall i, (i < length (stored_limits limits))%nat ->
             0 <= nth i (stored_index_map index_map) 0 ->
             0 <= nth i increments 0 /\
             nth (Z.to_nat (nth i (stored_index_map index_map) 0))
                 (stored_limits limits) 0 + nth i increments 0
             <= nth i (stored_limits limits) 0).
Proof.
  intros Hlen Hb Hwb.
  assert (int_min = -2147483648) by reflexivity.
  assert (Hs : forall i, (i < length limits)%nat ->
             nth i (stored_limits limits) 0 = nth i limits 0 - 1).
  { intros i Hi. rewrite stored_limits_nth by assumption.
    destruct (Hwb i Hi) as [Hr _]. apply wrap_small. lia. }
  assert (Hlm : length (stored_limits limits) = length limits)
    by apply length_map.
  rewrite Hlm. split.
  - intros i Hi. destruct (Hwb i Hi) as [Hr _]. rewrite (Hs i Hi).
    split; [reflexivity|lia].
  - intros i Hi. rewrite stored_index_map_nth.
    destruct (Z.ltb_spec (nth i index_map 0) 0) as [|Hnn]; [lia|].
    intros _. destruct (Hwb i Hi) as [_ Hf]. destruct (Hf Hnn) as [H0 Hsum].
    specialize (Hb i ltac:(lia)).
    rewrite (Hs i Hi), (Hs (Z.to_nat (nth i index_map 0))) by lia.
    split; [assumption|lia].
Qed.

Lemma lex_well_bounded_invariant {A : Type} (objs : list A)
      (limits index_map increments : list Z) :
  (1 <= length limits)%nat ->
  length index_map = length limits ->
  backward index_map ->
  inc_covers index_map increments ->
  well_bounded limits index_map increments ->
  exists s : Lex.t A,
    Lex.__init__ objs limits index_map increments = Ok s /\
    forall m : nat,
      Forall (fun so =>
                (snd so = Raise StopIteration \/
                 snd so = map_to_tuple (Lex.T (fst so)) objs) /\
                exists t, Lex.T (fst so) = map Some t /\
                          length t = length limits /\
                          forall i, (i < length limits)%nat ->
                                    0 <= nth i t 0 < nth i limits 0)
             (pulls Lex.__next__ m s).
Proof.
  intros Hk Hlen Hb Hc Hwb.
  destruct (well_bounded_stored _ _ _ Hlen Hb Hwb) as [Hl Hf].
  pose proof (backward_stored _ Hb) as Hb'.
  pose proof (inc_covers_stored _ _ Hc) as Hc'.
  set (lim := stored_limits limits) in *.
  set (im := stored_index_map index_map) in *.
  assert (Hll : length lim = length limits) by (unfold lim; apply length_map).
  assert (Hli : length im = length lim)
    by (unfold im; rewrite stored_index_map_length; lia).
  eexists. split; [now apply lex_init_backward_state|].
  intros m.
  eapply Forall_impl;
    [|apply (pulls_Forall Lex.__next__
               (fun s => lex_state lim im increments s /\ Lex.objs s = objs /\
                         exists t, Lex.T s = map Some t /\
                                   length t = length lim /\ within lim t)
               (fun so =>
                  (snd so = Raise StopIteration \/
                   snd so = map_to_tuple (Lex.T (fst so)) objs) /\
                  exists t, Lex.T (fst so) = map Some t /\
                            length t = length lim /\ within lim t))].
  - cbn beta. intros so (Ho & t & ET & Ht & Hw). split; [exact Ho|].
    exists t. split; [exact ET|]. split; [lia|].
    intros i Hi. specialize (Hw i ltac:(lia)).
    destruct (Hl i ltac:(lia)) as [E _]. lia.
  - intros s Hs.
    destruct (lex_pull_within lim im increments Hli Hb' Hc'
                (fun i Hi => proj2 (Hl i Hi)) Hf objs s Hs) as [H1 H2].
    split; [|exact H2]. split; [exact H1|]. tauto.
  - split.
    { repeat split; cbn; auto. }
    split; [reflexivity|].
    exists (extend im increments (length limits - 1) [0]).
    split; [reflexivity|]. split; [rewrite extend_length; cbn; lia|].
    intros j Hj.
    apply (extend_within lim im increments Hli Hb'
             (fun i Hi => proj2 (Hl i Hi)) Hf); cbn; try lia.
    intros x Hx. assert (x = 0%nat) by lia. subst x. cbn.
    destruct (Hl 0%nat ltac:(lia)) as [_ Hr]. lia.
Qed.

(** Under a backward-referring configuration whose rollovers fit below the
    limits, every index tuple the iterator holds, and so every one it
    produces from, satisfies [0 <= T[i] < limits[i]]. *)
Theorem lex_indices_within_limits {A : Type} (objs : list A)
        (limits index_map increments : list Z) :
  (1 <= length limits)%nat ->
  length index_map = length limits ->
  backward index_map ->
  inc_covers index_map increments ->
  well_bounded limits index_map increments ->
  exists s : Lex.t A,
    Lex.__init__ objs limits index_map increments = Ok s /\
    forall m : nat,
      Forall (fun so =>
                exists t, Lex.T (fst so) = map Some t /\
                          length t = length limits /\
                          forall i, (i < length limits)%nat ->
                                    0 <= nth i t 0 < nth i limits 0)
             (pulls Lex.__next__ m s).
Proof.
  intros Hk Hlen Hb Hc Hwb.
  destruct (lex_well_bounded_invariant objs _ _ _ Hk Hlen Hb Hc Hwb)
    as (s & Es & H).
  exists s. split; [exact Es|]. intros m.
  eapply Forall_impl; [|apply H]. cbn beta. tauto.
Qed.

(** If moreover no limit exceeds the number of items, no pull ever fails:
    each one produces a [k]-tuple or raises [StopIteration]. *)
Theorem lex_well_bounded_never_fails {A : Type} (objs : list A)
        (limits index_map increments : list Z) :
  (1 <= length limits)%nat ->
  length index_map = length limits ->
  backward index_map ->
  inc_covers index_map increments ->
  well_bounded limits index_map increments ->
  (forall i, (i < length limits)%nat ->
             nth i limits 0 <= Z.of_nat (length objs)) ->
  exists s : Lex.t A,
    Lex.__init__ objs limits index_map increments = Ok s /\
    forall m : nat,
      Forall (fun so =>
                (exists tup, snd so = Ok tup /\ length tup = length limits) \/
                snd so = Raise StopIteration)
             (pulls Lex.__next__ m s).
Proof.
  intros Hk Hlen Hb Hc Hwb Hobjs.
  destruct (lex_well_bounded_invariant objs _ _ _ Hk Hlen Hb Hc Hwb)
    as (s & Es & H).
  exists s. split; [exact Es|]. intros m.
  eapply Forall_impl; [|apply H]. cbn beta.
  intros so ([Ho|Ho] & t & ET & Ht & Hw); [now right|left].
  rewrite Ho, ET, <- Ht. apply gather_in_range.
  apply Forall_nth. intros i d Hi. rewrite (nth_indep _ d 0 Hi).
  specialize (Hw i ltac:(lia)). specialize (Hobjs i ltac:(lia)). lia.
Qed.

Lemma well_bounded_example : well_bounded [2; 3] [-1; 0] [0; 1].
Proof.
  intros [|[|i]] H; cbn in *; try lia;
    (split; [vm_compute; split; discriminate|]); intros; lia.
Qed.

Lemma lex_indices_within_limits_witness :
  exists s : Lex.t string,
    Lex.__init__ abc [2; 3] [-1; 0] [0; 1] = Ok s /\
    forall m : nat,
      Forall (fun so =>
                exists t, Lex.T (fst so) = map Some t /\
                          length t = length [2; 3] /\
                          forall i, (i < length [2; 3])%nat ->
                                    0 <= nth i t 0 < nth i [2; 3] 0)
             (pulls Lex.__next__ m s).
Proof.
  apply (lex_indices_within_limits abc [2; 3] [-1; 0] [0; 1]).
  - cbn. lia.
  - reflexivity.
  - exact backward_example.
  - exact inc_covers_example.
  - exact well_bounded_example.
Defined.

Lemma lex_well_bounded_never_fails_witness :
  exists s : Lex.t string,
    Lex.__init__ abc [2; 3] [-1; 0] [0; 1] = Ok s /\
    forall m : nat,
      Forall (fun so =>
                (exists tup, snd so = Ok tup /\ length tup = length [2; 3]) \/
                snd so = Raise StopIteration)
             (pulls Lex.__next__ m s).
Proof.
  apply (lex_well_bounded_never_fails abc [2; 3] [-1; 0] [0; 1]).
  - cbn. lia.
  - reflexivity.
  - exact backward_example.
  - exact inc_covers_example.
  - exact well_bounded_example.
  - intros [|[|i]] H; cbn in *; lia.
Defined.

(** ** LexicographicIterator: from a chain of steps to the pulls *)

Lemma next_lex_length (lim im inc t t' : list Z) :
  next_lex lim im inc t = Some t' -> length t' = length t.
Proof.
  unfold next_lex.
  destruct (pscan _ (length t)) as [g|] eqn:Eg; [|discriminate].
  apply pscan_Some in Eg as (Hg & _ & _).
  intros E; inversion E; subst.
  rewrite extend_length, length_app, length_firstn. cbn. lia.
Qed.

Lemma lex_pull_general {A : Type} (lim im inc : list Z) (s : Lex.t A)
      (t : list Z) :
  lex_state lim im inc s ->
  backward im -> inc_covers im inc ->
  Lex.generator_state s = 1 ->
  Lex.T s = map Some t ->
  length t = length lim ->
  Lex.__next__ s
  = match next_lex lim im inc t with
    | Some t' => (Lex.set_T s (map Some t'),
                  map_to_tuple (map Some t') (Lex.objs s))
    | None => (Lex.set_generator_state s 2, Raise StopIteration)
    end.
Proof.
  intros HS Hb Hc Hg HT Hlen. unfold Lex.__next__.
  rewrite Hg. cbn [Z.eqb Pos.eqb].
  rewrite (lex_next_backward lim im inc s t HS Hb Hc HT Hlen).
  destruct (next_lex lim im inc t) as [t'|]; [|reflexivity].
  cbn [Lex.generator_state Lex.set_T]. rewrite Hg. reflexivity.
Qed.

Lemma lex_pulls_general {A : Type} (lim im inc : list Z) :
  backward im -> inc_covers im inc ->
  forall (f : nat) (t : list Z) (s : Lex.t A) (m : nat),
    lex_state lim im inc s ->
    Lex.generator_state s = 1 ->
    Lex.T s = map Some t ->
    length t = length lim ->
    next_lex lim im inc (orbit_end (next_lex lim im inc) f t) = None ->
    map lex_view (pulls Lex.__next__ m s)
    = firstn m (map (entry (Lex.objs s)) (tl (orbit (next_lex lim im inc) f t))
                ++ repeat (map Some (orbit_end (next_lex lim im inc) f t),
                           Raise StopIteration) m).
Proof.
  intros Hb Hc.
  assert (Stop : forall (t : list Z) (s : Lex.t A) (m : nat),
             lex_state lim im inc s ->
             Lex.generator_state s = 1 -> Lex.T s = map Some t ->
             length t = length lim ->
             next_lex lim im inc t = None ->
             map lex_view (pulls Lex.__next__ (S m) s)
             = firstn (S m) (repeat (map Some t, Raise StopIteration) (S m))).
  { intros t s m HS Hg HT Hl E.
    rewrite pulls_S, (lex_pull_general lim im inc s t HS Hb Hc Hg HT Hl), E.
    cbn [map fst]. rewrite (lex_pulls_stopped _ t) by (auto; reflexivity).
    unfold lex_view at 1. cbn [fst snd Lex.T Lex.set_generator_state].
    rewrite HT. rewrite firstn_all2 by (rewrite repeat_length; lia).
    reflexivity. }
  induction f as [|f IH]; intros t s m HS Hg HT Hl Hend;
    (destruct m as [|m]; [reflexivity|]); cbn [orbit orbit_end tl map app] in *.
  - now apply Stop.
  - destruct (next_lex lim im inc t) as [t'|] eqn:E; [|now apply Stop].
    rewrite pulls_S, (lex_pull_general lim im inc s t HS Hb Hc Hg HT Hl), E.
    cbn [map fst].
    assert (Hl' : length t' = length lim)
      by (rewrite (next_lex_length _ _ _ _ _ E); exact Hl).
    rewrite (IH t' (Lex.set_T s (map Some t')) m HS Hg eq_refl Hl' Hend).
    destruct (orbit_head (next_lex lim im inc) f t') as [l El].
    rewrite El. cbn [tl map app firstn Lex.objs Lex.set_T].
    unfold lex_view at 1, entry at 2. cbn [fst snd Lex.T Lex.set_T].
    f_equal. symmetry. apply firstn_S_app_repeat.
Qed.

(** A list of index tuples that starts at the initial tuple, follows
    [next_lex] and ends where [next_lex] stops is what the pulls show. *)
Lemma lex_enumerates {A : Type} (objs : list A)
      (limits index_map increments : list Z) (cs : list (list Z)) :
  (1 <= length limits)%nat ->
  length index_map = length limits ->
  backward index_map ->
  inc_covers index_map increments ->
  hd_error cs
  = Some (extend (stored_index_map index_map) increments
                 (length limits - 1) [0]) ->
  is_chain (next_lex (stored_limits limits) (stored_index_map index_map)
                     increments) cs ->
  next_lex (stored_limits limits) (stored_index_map index_map) increments
           (last cs []) = None ->
  exists s : Lex.t A,
    Lex.__init__ objs limits index_map increments = Ok s /\
    forall m : nat,
      map lex_view (pulls Lex.__next__ m s)
      = firstn m (map (entry objs) cs
                  ++ repeat (map Some (last cs []), Raise StopIteration) m).
Proof.
  intros Hk Hlen Hb Hc Hhd HC Hterm.
  pose proof (backward_stored _ Hb) as Hb'.
  pose proof (inc_covers_stored _ _ Hc) as Hc'.
  set (lim := stored_limits limits) in *.
  set (im := stored_index_map index_map) in *.
  set (t0 := extend im increments (length limits - 1) [0]) in *.
  destruct cs as [|c0 cs']; [discriminate|].
  cbn in Hhd. inversion Hhd; subst c0; clear Hhd.
  rewrite (last_cons_default cs' t0 [] t0) in *.
  destruct (chain_orbit _ cs' t0 (length cs') HC Hterm (le_n _))
    as [Eorb Eend].
  eexists. split; [now apply lex_init_backward_state|].
  fold lim im t0.
  set (s0 := Lex.mk (length limits) 0 objs (map Some t0) (map Some lim)
                    (map Some im) (map Some increments)).
  intros [|m]; [reflexivity|].
  cbn [map app firstn]. rewrite firstn_S_app_repeat, pulls_S.
  assert (Hpull : Lex.__next__ s0
                  = (Lex.set_generator_state s0 1,
                     map_to_tuple (map Some t0) objs))
    by reflexivity.
  rewrite Hpull. cbn [map fst]. unfold lex_view at 1, entry at 1.
  cbn [fst snd Lex.T Lex.set_generator_state s0]. f_equal.
  assert (HS : lex_state lim im increments (Lex.set_generator_state s0 1)).
  { repeat split; cbn; unfold lim, im, stored_limits, stored_index_map;
      rewrite ?length_map; auto. }
  assert (Hl0 : length t0 = length lim).
  { unfold t0, lim, stored_limits. rewrite extend_length, length_map.
    cbn. lia. }
  rewrite (lex_pulls_general lim im increments Hb' Hc' (length cs') t0
             (Lex.set_generator_state s0 1) m HS eq_refl eq_refl Hl0).
  - rewrite Eorb, Eend. reflexivity.
  - rewrite Eend. exact Hterm.
Qed.

(** ** Cartesian products *)

Lemma seqZ_In (a : Z) (len : nat) (x : Z) :
  In x (seqZ a len) <-> a <= x < a + Z.of_nat len.
Proof.
  unfold seqZ. rewrite in_map_iff. split.
  - intros (i & <- & Hi). apply in_seq in Hi. lia.
  - intros H. exists (Z.to_nat (x - a)). split; [lia|]. apply in_seq. lia.
Qed.

Lemma is_chain_map_cons_gen (next next' : list Z -> option (list Z)) (x : Z) :
  (forall t t', next' t = Some t' -> next (x :: t) = Some (x :: t')) ->
  forall l, is_chain next' l -> is_chain next (map (cons x) l).
Proof.
  intros H. induction l as [|a l IH]; cbn [map]; [trivial|].
  destruct l as [|b l]; [trivial|]. cbn [map is_chain] in *.
  intros [Hab HC]. split; [now apply H|now apply IH].
Qed.

Lemma is_chain_ext (next next' : list Z -> option (list Z)) :
  forall l,
    (forall a, In a l -> next a = next' a) ->
    is_chain next' l -> is_chain next l.
Proof.
  induction l as [|a l IH]; intros He HC; [trivial|].
  destruct l as [|b l]; [trivial|]. cbn [is_chain] in *.
  destruct HC as [Hab HC]. split.
  - rewrite He by now left. exact Hab.
  - apply IH; [|exact HC]. intros c Hc. apply He. now right.
Qed.

Lemma lex_sorted_map_cons (x : Z) (l : list (list Z)) :
  StronglySorted lex_lt l -> StronglySorted lex_lt (map (cons x) l).
Proof.
  induction 1 as [|a l Hl IHl Ha]; cbn [map]; constructor; [assumption|].
  apply Forall_forall. intros b Hb.
  apply in_map_iff in Hb as (b' & <- & Hb').
  rewrite Forall_forall in Ha. cbn. right. split; [reflexivity|now apply Ha].
Qed.

Lemma next_odo_last (limits : list Z) :
  next_odo limits (map (fun l => l - 1) limits) = None.
Proof.
  induction limits as [|l limits IH]; [reflexivity|].
  cbn [map next_odo]. rewrite IH.
  replace (l - 1 + 1) with l by lia. now rewrite Z.ltb_irrefl.
Qed.

Section ProdRow.
Variables (l : Z) (limits' : list Z) (lp : list (list Z)) (mx : list Z).
Let P' := prod_tuples limits'.
Hypothesis HP : P' = lp ++ [mx].
Hypothesis Hhd : hd_error P' = Some (repeat 0 (length limits')).
Hypothesis HC : is_chain (next_odo limits') P'.
Hypothesis Hmx : next_odo limits' mx = None.
Hypothesis Hlmx : length mx = length limits'.

Lemma prod_row_chain :
  forall (len : nat) (a : Z),
    a + Z.of_nat (S len) = l ->
    let row := flat_map (fun x => map (cons x) P') (seqZ a (S len)) in
    (exists r0, row = r0 ++ [(l - 1) :: mx]) /\
    hd_error row = Some (a :: repeat 0 (length limits')) /\
    is_chain (next_odo (l :: limits')) row.
Proof.
  assert (Hmap : forall a, is_chain (next_odo (l :: limits'))
                                    (map (cons a) P')).
  { intros a. apply (is_chain_map_cons_gen _ (next_odo limits')); [|exact HC].
    intros t t' E. cbn [next_odo]. now rewrite E. }
  assert (Hmhd : forall a, hd_error (map (cons a) P')
                           = Some (a :: repeat 0 (length limits'))).
  { intros a. destruct P' as [|p r]; [discriminate|].
    cbn in Hhd |- *. now inversion Hhd. }
  induction len as [|len IH]; intros a Ha; cbv zeta.
  - cbn [seqZ seq map flat_map]. rewrite app_nil_r.
    replace (a + Z.of_nat 0) with a by lia.
    repeat split; [|apply Hmhd|apply Hmap].
    exists (map (cons a) lp). rewrite HP, map_app. cbn.
    do 3 f_equal. lia.
  - rewrite seqZ_S. cbn [flat_map].
    destruct (IH (a + 1) ltac:(lia)) as ((r0 & Er) & Hrh & Hrc).
    cbv zeta in *.
    set (row' := flat_map (fun x => map (cons x) P') (seqZ (a + 1) (S len)))
      in *.
    repeat split.
    + exists (map (cons a) P' ++ r0). rewrite Er, app_assoc. reflexivity.
    + destruct (map (cons a) P') as [|p r] eqn:Em;
        [specialize (Hmhd a); rewrite Em in Hmhd; discriminate|].
      specialize (Hmhd a). rewrite Em in Hmhd. exact Hmhd.
    + destruct row' as [|b r] eqn:Eb; [discriminate|].
      cbn in Hrh. inversion Hrh; subst b.
      assert (Em : map (cons a) P' = map (cons a) lp ++ [a :: mx])
        by (rewrite HP, map_app; reflexivity).
      rewrite Em. apply is_chain_app.
      * rewrite <- Em. apply Hmap.
      * exact Hrc.
      * cbn [next_odo]. rewrite Hmx, Hlmx.
        rewrite (proj2 (Z.ltb_lt (a + 1) l)) by lia. reflexivity.
Qed.
End ProdRow.

Lemma prod_tuples_lengths (limits : list Z) :
  forall t, In t (prod_tuples limits) -> length t = length limits.
Proof.
  induction limits as [|l limits IH]; intros t; cbn.
  - intros [<-|[]]. reflexivity.
  - intros H. apply in_flat_map in H as (x & _ & Hx).
    apply in_map_iff in Hx as (t' & <- & Ht'). cbn. f_equal. now apply IH.
Qed.

Lemma prod_chain (limits : list Z) :
  Forall (fun l => 1 <= l) limits ->
  (exists l0, prod_tuples limits = l0 ++ [map (fun l => l - 1) limits]) /\
  hd_error (prod_tuples limits) = Some (repeat 0 (length limits)) /\
  is_chain (next_odo limits) (prod_tuples limits).
Proof.
  induction 1 as [|l limits Hl _ ((lp & HP) & Hhd & HC)].
  - repeat split. now exists [].
  - cbn [prod_tuples map length repeat].
    destruct (Z.to_nat l) as [|len] eqn:El; [lia|].
    apply (prod_row_chain l limits lp (map (fun l => l - 1) limits)
             HP Hhd HC (next_odo_last limits)); [apply length_map|lia].
Qed.

Lemma prod_tuples_length (limits : list Z) :
  length (prod_tuples limits) = prod_limits limits.
Proof.
  induction limits as [|l limits IH]; [reflexivity|].
  cbn [prod_tuples prod_limits fold_right].
  rewrite (flat_map_length_const _ (prod_limits limits)).
  - now rewrite seqZ_length.
  - intros x _. now rewrite length_map.
Qed.

Lemma prod_tuples_In (limits : list Z) :
  forall t, In t (prod_tuples limits) <->
            Forall2 (fun l x => 0 <= x < l) limits t.
Proof.
  induction limits as [|l limits IH]; intros t; cbn [prod_tuples].
  - split.
    + intros [<-|[]]. constructor.
    + intros H. inversion H. now left.
  - rewrite in_flat_map. split.
    + intros (x & Hx & Ht). apply in_map_iff in Ht as (t' & <- & Ht').
      apply seqZ_In in Hx. constructor; [lia|now apply IH].
    + intros H. inversion H as [|l' x ls t' Hx Ht']; subst.
      exists x. split; [apply seqZ_In; lia|].
      apply in_map. now apply IH.
Qed.

Lemma prod_row_sorted (P : list (list Z)) :
  StronglySorted lex_lt P ->
  forall (len : nat) (a : Z),
    StronglySorted lex_lt (flat_map (fun x => map (cons x) P) (seqZ a len)).
Proof.
  intros HP. induction len as [|len IH]; intros a; [constructor|].
  rewrite seqZ_S. cbn [flat_map]. apply StronglySorted_app.
  - now apply lex_sorted_map_cons.
  - apply IH.
  - intros u v Hu Hv. apply in_map_iff in Hu as (u' & <- & _).
    apply in_flat_map in Hv as (y & Hy & Hv).
    apply in_map_iff in Hv as (v' & <- & _).
    apply seqZ_In in Hy. cbn. left. lia.
Qed.

Lemma prod_tuples_sorted (limits : list Z) :
  StronglySorted lex_lt (prod_tuples limits).
Proof.
  induction limits as [|l limits IH]; [repeat constructor|].
  cbn [prod_tuples]. now apply prod_row_sorted.
Qed.

Lemma extend_negative (im inc : list Z) :
  forall (cnt : nat) (pre : list Z),
    (forall i, (length pre <= i < length pre + cnt)%nat -> nth i im 0 < 0) ->
    extend im inc cnt pre = pre ++ repeat 0 cnt.
Proof.
  induction cnt as [|cnt IH]; intros pre H; cbn [extend repeat].
  - now rewrite app_nil_r.
  - rewrite IH.
    + unfold rolled. rewrite (proj2 (Z.ltb_lt _ 0)) by (apply H; lia).
      now rewrite <- app_assoc.
    + intros i Hi. rewrite length_app in Hi. cbn in Hi. apply H. lia.
Qed.

(** The array form of the odometer step agrees with [next_odo]. *)
Lemma odo_array (limits : list Z) :
  forall t : list Z,
    length t = length limits ->
    match pscan (fun g => nth g t 0 + 1 <? nth g limits 0) (length t) with
    | Some g =>
        Some (firstn g t ++ (nth g t 0 + 1)
                     :: repeat 0 (length t - (g + 1)))
    | None => None
    end = next_odo limits t.
Proof.
  induction limits as [|l limits IH]; intros [|x t] Hl; try discriminate;
    [reflexivity|].
  cbn [length next_odo]. rewrite pscan_S. cbn [nth].
  rewrite <- (IH t) by (cbn in Hl; lia).
  destruct (pscan _ (length t)) as [g|]; [reflexivity|].
  destruct (x + 1 <? l); [|reflexivity].
  cbn. now rewrite Nat.sub_0_r.
Qed.

Lemma next_lex_odo (limits im inc t : list Z) :
  length im = length limits ->
  Forall (fun z => z < 0) im ->
  Forall (fun l => 1 <= l <= int_max) limits ->
  Forall2 (fun l x => 0 <= x < l) limits t ->
  next_lex (stored_limits limits) im inc t = next_odo limits t.
Proof.
  intros Hlen Him Hlim Ht.
  assert (Hl : length t = length limits)
    by (symmetry; eapply Forall2_length; exact Ht).
  assert (int_min = -2147483648) by reflexivity.
  assert (Hr : forall g, (g < length limits)%nat ->
             0 <= nth g t 0 < nth g limits 0 /\
             1 <= nth g limits 0 <= int_max).
  { intros g Hg. split.
    - clear - Ht Hg. revert g Hg.
      induction Ht as [|l x ls t' Hx _ IH]; intros [|g] Hg; cbn in *;
        try lia.
      apply IH. lia.
    - rewrite Forall_forall in Hlim. apply Hlim, nth_In. lia. }
  unfold next_lex. rewrite <- odo_array by exact Hl.
  rewrite (pscan_ext _ (fun g => nth g t 0 + 1 <? nth g limits 0)).
  2:{ intros g Hg. rewrite stored_limits_nth by lia.
      destruct (Hr g ltac:(lia)) as [H1 H2].
      rewrite wrap_small by lia.
      destruct (Z.ltb_spec (nth g t 0) (nth g limits 0 - 1));
        destruct (Z.ltb_spec (nth g t 0 + 1) (nth g limits 0)); lia. }
  destruct (pscan _ (length t)) as [g|] eqn:Eg; [|reflexivity].
  apply pscan_Some in Eg as (Hg & Tg & _). apply Z.ltb_lt in Tg.
  destruct (Hr g ltac:(lia)) as [H1 H2].
  rewrite wrap_small by lia.
  rewrite extend_negative.
  - rewrite <- app_assoc. reflexivity.
  - intros i Hi. rewrite length_app, length_firstn in Hi. cbn in Hi.
    rewrite Forall_forall in Him. apply Him, nth_In. lia.
Qed.

(** With every [index_map] entry negative and limits [limits] the iterator
    is an odometer: its index tuples are exactly the tuples with
    [0 <= t[i] < limits[i]], each once, in lexicographic order (the last
    position running fastest), so their number is the product of the
    limits; every later pull raises [StopIteration].  [increments] is
    never read. *)
Theorem lex_cartesian_enumerate {A : Type} (objs : list A)
        (limits index_map increments : list Z) :
  (1 <= length limits)%nat ->
  length index_map = length limits ->
  Forall (fun z => z < 0) index_map ->
  Forall (fun l => 1 <= l <= int_max) limits ->
  exists (s : Lex.t A) (cs : list (list Z)),
    Lex.__init__ objs limits index_map increments = Ok s /\
    length cs = prod_limits limits /\
    (forall t, In t cs <-> Forall2 (fun l x => 0 <= x < l) limits t) /\
    NoDup cs /\
    StronglySorted lex_lt cs /\
    forall m : nat,
      map lex_view (pulls Lex.__next__ m s)
      = firstn m (map (entry objs) cs
                  ++ repeat (map Some (last cs []), Raise StopIteration) m).
Proof.
  intros Hk Hlen Him Hlim.
  assert (Hneg : forall i, (i < length index_map)%nat -> nth i index_map 0 < 0).
  { intros i Hi. rewrite Forall_forall in Him. now apply Him, nth_In. }
  assert (Hb : backward index_map)
    by (intros i Hi; specialize (Hneg i Hi); lia).
  assert (Hc : inc_covers index_map increments)
    by (intros i Hi H0; specialize (Hneg i Hi); lia).
  assert (Hst : Forall (fun z => z < 0) (stored_index_map index_map)).
  { unfold stored_index_map. apply Forall_map.
    eapply Forall_impl; [|exact Him]. cbn. intros z Hz.
    apply Z.ltb_lt in Hz as ->. lia. }
  destruct (prod_chain limits) as ((l0 & El) & Hhd & HC).
  { eapply Forall_impl; [|exact Hlim]. cbn; intros; lia. }
  assert (Hmem : forall a, In a (prod_tuples limits) ->
             next_lex (stored_limits limits) (stored_index_map index_map)
                      increments a = next_odo limits a).
  { intros a Ha. apply next_lex_odo; auto.
    - rewrite stored_index_map_length. exact Hlen.
    - now apply prod_tuples_In. }
  destruct (lex_enumerates objs limits index_map increments
              (prod_tuples limits) Hk Hlen Hb Hc) as (s & Es & Htr).
  - rewrite Hhd. f_equal. rewrite extend_negative.
    + destruct (length limits) as [|k']; [lia|].
      cbn. now rewrite Nat.sub_0_r.
    + intros i Hi. cbn in Hi. rewrite Forall_forall in Hst.
      apply Hst, nth_In. rewrite stored_index_map_length. lia.
  - apply (is_chain_ext _ (next_odo limits)); assumption.
  - rewrite El, last_last. rewrite Hmem.
    + apply next_odo_last.
    + rewrite El. apply in_or_app. right. now left.
  - exists s, (prod_tuples limits).
    split; [exact Es|]. split; [apply prod_tuples_length|].
    split; [apply prod_tuples_In|].
    split; [apply lex_sorted_NoDup, prod_tuples_sorted|].
    split; [apply prod_tuples_sorted|exact Htr].
Qed.

Lemma lex_cartesian_enumerate_witness :
  exists (s : Lex.t string) (cs : list (list Z)),
    Lex.__init__ abc [2; 3] [-1; -1] [] = Ok s /\
    length cs = prod_limits [2; 3] /\
    (forall t, In t cs <-> Forall2 (fun l x => 0 <= x < l) [2; 3] t) /\
    NoDup cs /\
    StronglySorted lex_lt cs /\
    forall m : nat,
      map lex_view (pulls Lex.__next__ m s)
      = firstn m (map (entry abc) cs
                  ++ repeat (map Some (last cs []), Raise StopIteration) m).
Proof.
  apply (lex_cartesian_enumerate abc [2; 3] [-1; -1] []).
  - cbn. lia.
  - reflexivity.
  - repeat constructor.
  - repeat constructor; vm_compute; discriminate.
Defined.

(** ** k-multisets *)

Lemma msets_0 (m : nat) (lo : Z) : msets m lo 0 = [[]].
Proof. destruct m; reflexivity. Qed.

Lemma msets_S (m : nat) (lo : Z) (k : nat) :
  msets (S m) lo (S k)
  = map (cons lo) (msets (S m) lo k) ++ msets m (lo + 1) (S k).
Proof. reflexivity. Qed.

Lemma binom_lt :
  forall a b : nat, (a < b)%nat -> binom a b = 0%nat.
Proof.
  induction a as [|a IHa]; intros [|b] H; try lia; [reflexivity|].
  cbn [binom]. rewrite !IHa by lia. reflexivity.
Qed.

Lemma binom_0 (n : nat) : binom n 0 = 1%nat.
Proof. destruct n; reflexivity. Qed.

Lemma msets_length (m : nat) :
  forall (lo : Z) (k : nat),
    length (msets m lo k) = binom (m + k - 1) k.
Proof.
  induction m as [|m IHm]; intros lo k.
  - destruct k as [|k]; [reflexivity|]. cbn [msets length Nat.add].
    rewrite binom_lt by lia. reflexivity.
  - induction k as [|k IHk]; [now rewrite msets_0, binom_0|].
    rewrite msets_S, length_app, length_map, IHk, IHm.
    replace (S m + k - 1)%nat with (m + k)%nat by lia.
    replace (m + S k - 1)%nat with (m + k)%nat by lia.
    replace (S m + S k - 1)%nat with (S (m + k)) by lia.
    reflexivity.
Qed.

Lemma msets_In (m : nat) :
  forall (lo : Z) (k : nat) (t : list Z),
    In t (msets m lo k) <->
    length t = k /\ StronglySorted Z.le t /\
    Forall (fun z => lo <= z < lo + Z.of_nat m) t.
Proof.
  assert (K0 : forall lo m' (t : list Z),
             In t [[]] <->
             length t = 0%nat /\ StronglySorted Z.le t /\
             Forall (fun z => lo <= z < lo + Z.of_nat m') t).
  { intros lo m' t. split.
    - intros [<-|[]]. repeat split; constructor.
    - intros (H & _). destruct t; [now left|discriminate]. }
  induction m as [|m IHm]; intros lo k.
  - destruct k as [|k]; [apply K0|]. intros t. cbn [msets].
    split; [intros []|]. intros (Hl & _ & HF).
    destruct t as [|z t]; [discriminate|]. apply Forall_inv in HF. lia.
  - induction k as [|k IHk]; intros t; [rewrite msets_0; apply K0|].
    rewrite msets_S, in_app_iff, in_map_iff. split.
    + intros [(t' & <- & Hin)|Hin].
      * apply IHk in Hin as (Hl & HS & HF). repeat split.
        -- cbn. now rewrite Hl.
        -- constructor; [assumption|].
           eapply Forall_impl; [|exact HF]. cbn; intros; lia.
        -- constructor; [lia|assumption].
      * apply IHm in Hin as (Hl & HS & HF). repeat split; auto.
        eapply Forall_impl; [|exact HF]. cbn; intros; lia.
    + intros (Hl & HS & HF). destruct t as [|z t]; [discriminate|].
      apply StronglySorted_inv in HS as [HS Hz].
      pose proof (Forall_inv HF) as Hz0. cbv beta in Hz0.
      apply Forall_inv_tail in HF.
      assert (HF' : Forall (fun u => z <= u /\ lo <= u < lo + Z.of_nat (S m)) t).
      { apply Forall_forall. intros u Hu. rewrite Forall_forall in Hz, HF.
        split; [now apply Hz|now apply HF]. }
      destruct (Z.eq_dec z lo) as [->|Hne].
      * left. exists t. split; [reflexivity|]. apply IHk.
        repeat split; [now inversion Hl|assumption|assumption].
      * right. apply IHm. repeat split; [assumption|now constructor|].
        constructor; [lia|].
        eapply Forall_impl; [|exact HF']. cbn; intros; lia.
Qed.

Lemma msets_lex_sorted (m : nat) :
  forall (lo : Z) (k : nat), StronglySorted lex_lt (msets m lo k).
Proof.
  induction m as [|m IHm]; intros lo k.
  - destruct k; repeat constructor.
  - induction k as [|k IHk]; [repeat constructor|].
    rewrite msets_S. apply StronglySorted_app.
    + now apply lex_sorted_map_cons.
    + apply IHm.
    + intros a b Ha Hb. apply in_map_iff in Ha as (a' & <- & _).
      apply msets_In in Hb as (Hl & _ & HF).
      destruct b as [|z b]; [discriminate|].
      apply Forall_inv in HF. cbn. left. lia.
Qed.

Lemma next_mset_last (n : Z) :
  forall k : nat, next_mset n (repeat (n - 1) k) = None.
Proof.
  induction k as [|k IH]; [reflexivity|].
  cbn [repeat next_mset]. rewrite IH.
  replace (n - 1 + 1) with n by lia. now rewrite Z.ltb_irrefl.
Qed.

Lemma msets_chain (m : nat) :
  forall (lo : Z) (k : nat),
    (exists l0, msets (S m) lo k
                = l0 ++ [repeat (lo + Z.of_nat m) k]) /\
    hd_error (msets (S m) lo k) = Some (repeat lo k) /\
    is_chain (next_mset (lo + Z.of_nat (S m))) (msets (S m) lo k).
Proof.
  induction m as [|m IHm]; intros lo k.
  - induction k as [|k ((l1 & E1) & H1 & C1)].
    + repeat split. now exists [].
    + rewrite msets_S.
      change (msets 0 (lo + 1) (S k)) with (@nil (list Z)).
      rewrite app_nil_r.
      assert (Hhd : hd_error (map (cons lo) (msets 1 lo k))
                    = Some (repeat lo (S k))).
      { destruct (msets 1 lo k) as [|a r]; [discriminate|].
        cbn [hd_error map] in H1 |- *. now inversion H1. }
      repeat split; [|exact Hhd|].
      * exists (map (cons lo) l1). rewrite E1, map_app. cbn.
        do 3 f_equal. lia.
      * apply (is_chain_map_cons_gen _ (next_mset (lo + Z.of_nat 1)));
          [|exact C1].
        intros t t' E. cbn [next_mset]. now rewrite E.
  - induction k as [|k ((l1 & E1) & H1 & C1)].
    + repeat split. now exists [].
    + rewrite msets_S.
      destruct (IHm (lo + 1) (S k)) as ((l2 & E2) & H2 & C2).
      replace (lo + 1 + Z.of_nat (S m)) with (lo + Z.of_nat (S (S m)))
        in C2 by lia.
      replace (lo + 1 + Z.of_nat m) with (lo + Z.of_nat (S m)) in E2 by lia.
      assert (Hhd : hd_error (map (cons lo) (msets (S (S m)) lo k)
                              ++ msets (S m) (lo + 1) (S k))
                    = Some (repeat lo (S k))).
      { destruct (msets (S (S m)) lo k) as [|a r]; [discriminate|].
        cbn [hd_error map app] in H1 |- *. now inversion H1. }
      assert (Emap : map (cons lo) (msets (S (S m)) lo k)
                     = map (cons lo) l1
                       ++ [lo :: repeat (lo + Z.of_nat (S m)) k])
        by (rewrite E1, map_app; reflexivity).
      assert (C1' : is_chain (next_mset (lo + Z.of_nat (S (S m))))
                             (map (cons lo) (msets (S (S m)) lo k))).
      { apply (is_chain_map_cons_gen _ (next_mset (lo + Z.of_nat (S (S m)))));
          [|exact C1].
        intros t t' E. cbn [next_mset]. now rewrite E. }
      repeat split; [|exact Hhd|].
      * exists (map (cons lo) (msets (S (S m)) lo k) ++ l2).
        rewrite E2 at 1. rewrite app_assoc. reflexivity.
      * destruct (msets (S m) (lo + 1) (S k)) as [|b r] eqn:Eb;
          [discriminate|].
        cbn [hd_error] in H2. inversion H2; subst b.
        rewrite Emap in C1' |- *.
        apply is_chain_app; [assumption|assumption|].
        cbn [next_mset].
        replace (lo + Z.of_nat (S m))
          with (lo + Z.of_nat (S (S m)) - 1) by lia.
        rewrite next_mset_last, repeat_length.
        rewrite (proj2 (Z.ltb_lt _ _)) by lia. reflexivity.
Qed.

Lemma stored_subset_index_map (k : nat) :
  stored_index_map (subset_index_map k) = subset_index_map k.
Proof.
  unfold stored_index_map, subset_index_map. rewrite map_map.
  apply map_ext. intros i.
  destruct (Z.ltb_spec (Z.of_nat i - 1) 0); lia.
Qed.

Lemma subset_index_map_nth (k i : nat) :
  (i < k)%nat -> nth i (subset_index_map k) 0 = Z.of_nat i - 1.
Proof.
  intros H. unfold subset_index_map.
  apply (nth_map_seq (fun j => Z.of_nat j - 1)). exact H.
Qed.

Lemma backward_subset (k : nat) : backward (subset_index_map k).
Proof.
  intros i Hi. rewrite subset_index_map_length in Hi.
  rewrite subset_index_map_nth by exact Hi. lia.
Qed.

Lemma inc_covers_multiset (k : nat) :
  inc_covers (subset_index_map k) (multiset_increments k).
Proof.
  intros i Hi _. rewrite subset_index_map_length in Hi.
  unfold multiset_increments. now rewrite repeat_length.
Qed.

Lemma extend_multiset (k : nat) :
  forall (cnt : nat) (pre : list Z) (v : Z),
    (1 <= length pre)%nat ->
    nth (length pre - 1) pre 0 = v ->
    int_min <= v <= int_max ->
    (length pre + cnt <= k)%nat ->
    extend (subset_index_map k) (multiset_increments k) cnt pre
    = pre ++ repeat v cnt.
Proof.
  induction cnt as [|cnt IH]; intros pre v Hp Hv Hr Hk; cbn [extend repeat].
  - now rewrite app_nil_r.
  - assert (Er : rolled (subset_index_map k) (multiset_increments k) pre
                        (length pre) = v).
    { unfold rolled. rewrite subset_index_map_nth by lia.
      rewrite (proj2 (Z.ltb_ge _ 0)) by lia.
      replace (Z.to_nat (Z.of_nat (length pre) - 1))
        with (length pre - 1)%nat by lia.
      unfold multiset_increments. rewrite nth_repeat_lt by lia.
      rewrite Hv, Z.add_0_r. now apply wrap_small. }
    rewrite Er. rewrite (IH (pre ++ [v]) v).
    + now rewrite <- app_assoc.
    + rewrite length_app. cbn. lia.
    + rewrite length_app. cbn.
      replace (length pre + 1 - 1)%nat with (length pre) by lia.
      apply nth_middle.
    + exact Hr.
    + rewrite length_app. cbn. lia.
Qed.

(** The array form of the multiset step agrees with [next_mset]. *)
Lemma mset_array (n : Z) :
  forall t : list Z,
    match pscan (fun g => nth g t 0 + 1 <? n) (length t) with
    | Some g => Some (firstn g t ++ repeat (nth g t 0 + 1) (length t - g))
    | None => None
    end = next_mset n t.
Proof.
  induction t as [|x t IH]; [reflexivity|].
  cbn [length next_mset]. rewrite pscan_S. cbn [nth].
  rewrite <- IH.
  destruct (pscan _ (length t)) as [g|]; [reflexivity|].
  destruct (x + 1 <? n); reflexivity.
Qed.

Lemma next_lex_mset (n k : nat) (t : list Z) :
  Z.of_nat n <= int_max ->
  length t = k ->
  Forall (fun z => 0 <= z < Z.of_nat n) t ->
  next_lex (stored_limits (multiset_limits n k)) (subset_index_map k)
           (multiset_increments k) t
  = next_mset (Z.of_nat n) t.
Proof.
  intros Hn Hl Ht.
  assert (int_min = -2147483648) by reflexivity.
  assert (int_max = 2147483647) by reflexivity.
  assert (Hr : forall g, (g < k)%nat -> 0 <= nth g t 0 < Z.of_nat n).
  { intros g Hg. rewrite Forall_forall in Ht. apply Ht, nth_In. lia. }
  unfold next_lex. rewrite <- mset_array, Hl.
  rewrite (pscan_ext _ (fun g => nth g t 0 + 1 <? Z.of_nat n)).
  2:{ intros g Hg.
      rewrite stored_limits_nth
        by (unfold multiset_limits; rewrite repeat_length; lia).
      unfold multiset_limits. rewrite nth_repeat_lt by lia.
      specialize (Hr g Hg). rewrite wrap_small by lia.
      destruct (Z.ltb_spec (nth g t 0) (Z.of_nat n - 1));
        destruct (Z.ltb_spec (nth g t 0 + 1) (Z.of_nat n)); lia. }
  destruct (pscan _ k) as [g|] eqn:Eg; [|reflexivity].
  apply pscan_Some in Eg as (Hg & Tg & _). apply Z.ltb_lt in Tg.
  specialize (Hr g Hg). rewrite wrap_small by lia.
  set (v := nth g t 0 + 1).
  assert (Hlp : length (firstn g t ++ [v]) = (g + 1)%nat)
    by (rewrite length_app, length_firstn; cbn; lia).
  rewrite (extend_multiset k (k - (g + 1)) (firstn g t ++ [v]) v).
  - rewrite <- app_assoc. cbn [app].
    replace (k - g)%nat with (S (k - (g + 1))) by lia. reflexivity.
  - lia.
  - rewrite Hlp. replace (g + 1 - 1)%nat with (length (firstn g t))
      by (rewrite length_firstn; lia).
    apply nth_middle.
  - unfold v. lia.
  - lia.
Qed.

(** With [limits[i] = n], [index_map[i] = i-1] and [increments[i] = 0] over
    [n >= 1] items the iterator produces [C(n+k-1, k)] tuples; their index
    tuples are exactly the non-decreasing [k]-tuples over [0..n-1], each
    once, in lexicographic order; every later pull raises
    [StopIteration]. *)
Theorem lex_multisets_enumerate {A : Type} (objs : list A) (k : nat) :
  (1 <= k)%nat ->
  (1 <= length objs)%nat ->
  Z.of_nat (length objs) <= int_max ->
  exists (s : Lex.t A) (cs : list (list Z)),
    Lex.__init__ objs (multiset_limits (length objs) k) (subset_index_map k)
                 (multiset_increments k) = Ok s /\
    length cs = binom (length objs + k - 1) k /\
    (forall t, In t cs <->
               length t = k /\ StronglySorted Z.le t /\
               Forall (fun z => 0 <= z < Z.of_nat (length objs)) t) /\
    NoDup cs /\
    StronglySorted lex_lt cs /\
    Forall (fun t => exists tup, map_to_tuple (map Some t) objs = Ok tup /\
                                 length tup = k) cs /\
    forall m : nat,
      map lex_view (pulls Lex.__next__ m s)
      = firstn m (map (entry objs) cs
                  ++ repeat (map Some (last cs []), Raise StopIteration) m).
Proof.
  intros Hk Hn1 Hn. set (n := length objs) in *.
  destruct n as [|n'] eqn:En; [lia|].
  assert (int_min = -2147483648) by reflexivity.
  destruct (msets_chain n' 0 k) as ((l0 & El) & Hhd & HC).
  cbn [Z.add] in HC, El.
  assert (Hll : length (multiset_limits (S n') k) = k)
    by apply repeat_length.
  assert (Hmem : forall a, In a (msets (S n') 0 k) ->
             next_lex (stored_limits (multiset_limits (S n') k))
                      (stored_index_map (subset_index_map k))
                      (multiset_increments k) a
             = next_mset (Z.of_nat (S n')) a).
  { intros a Ha. rewrite stored_subset_index_map.
    apply msets_In in Ha as (Hl & _ & HF).
    apply next_lex_mset; auto. }
  destruct (lex_enumerates objs (multiset_limits (S n') k)
              (subset_index_map k) (multiset_increments k)
              (msets (S n') 0 k)) as (s & Es & Htr).
  - rewrite Hll. exact Hk.
  - rewrite Hll. apply subset_index_map_length.
  - apply backward_subset.
  - apply inc_covers_multiset.
  - rewrite Hhd, Hll, stored_subset_index_map. f_equal.
    rewrite (extend_multiset k (k - 1) [0] 0).
    + destruct k as [|k']; [lia|]. cbn. now rewrite Nat.sub_0_r.
    + cbn. lia.
    + reflexivity.
    + split; vm_compute; discriminate.
    + cbn. lia.
  - apply (is_chain_ext _ (next_mset (Z.of_nat (S n')))); assumption.
  - rewrite El, last_last. rewrite Hmem.
    + replace (Z.of_nat n') with (Z.of_nat (S n') - 1) by lia.
      apply next_mset_last.
    + rewrite El. apply in_or_app. right. now left.
  - exists s, (msets (S n') 0 k).
    split; [exact Es|]. split; [apply msets_length|].
    split; [intros t; apply (msets_In (S n') 0 k t)|].
    split; [apply lex_sorted_NoDup, msets_lex_sorted|].
    split; [apply msets_lex_sorted|]. split; [|exact Htr].
    apply Forall_forall. intros t Ht.
    apply msets_In in Ht as (Hl & _ & HF).
    rewrite <- Hl. apply gather_in_range.
    eapply Forall_impl; [|exact HF]. cbn. intros. fold n. lia.
Qed.

Lemma lex_multisets_enumerate_witness :
  exists (s : Lex.t string) (cs : list (list Z)),
    Lex.__init__ abc (multiset_limits (length abc) 2) (subset_index_map 2)
                 (multiset_increments 2) = Ok s /\
    length cs = binom (length abc + 2 - 1) 2 /\
    (forall t, In t cs <->
               length t = 2%nat /\ StronglySorted Z.le t /\
               Forall (fun z => 0 <= z < Z.of_nat (length abc)) t) /\
    NoDup cs /\
    StronglySorted lex_lt cs /\
    Forall (fun t => exists tup, map_to_tuple (map Some t) abc = Ok tup /\
                                 length tup = 2%nat) cs /\
    forall m : nat,
      map lex_view (pulls Lex.__next__ m s)
      = firstn m (map (entry abc) cs
                  ++ repeat (map Some (last cs []), Raise StopIteration) m).
Proof.
  apply (lex_multisets_enumerate abc 2).
  - lia.
  - cbn. lia.
  - vm_compute. discriminate.
Defined.

(** ** Construction: a short [index_map] *)

Lemma store_index_map_IndexError (k : nat) (index_map : list Z) :
  forall (cnt i : nat) (a : IntArray),
    (i + cnt <= length a)%nat ->
    (i <= length index_map)%nat ->
    Lex.store_index_map k index_map cnt i a = Raise IndexError
    <->
    (length index_map < i + cnt)%nat /\
    forall j, (i <= j < length index_map)%nat ->
              nth j index_map 0 <= Z.of_nat k.
Proof.
  induction cnt as [|cnt IH]; intros i a Hlen Hi; cbn [Lex.store_index_map].
  - split; [discriminate|]. intros [H _]. lia.
  - destruct (nth_error index_map i) as [im|] eqn:Him.
    + assert (Hil : (i < length index_map)%nat)
        by (apply nth_error_Some; congruence).
      assert (Eim : nth i index_map 0 = im)
        by (rewrite (nth_error_nth_Z index_map i Hil) in Him; congruence).
      assert (Hstep : forall v,
                 im <= Z.of_nat k ->
                 (a' <- wr a i v ;;
                  Lex.store_index_map k index_map cnt (S i) a')
                 = Raise IndexError
                 <-> (length index_map < i + S cnt)%nat /\
                     forall j, (i <= j < length index_map)%nat ->
                               nth j index_map 0 <= Z.of_nat k).
      { intros v Hv. rewrite wr_Ok by lia. cbn [bind].
        rewrite IH by (rewrite ?upd_length; lia). split.
        - intros [H1 H2]. split; [lia|]. intros j Hj.
          destruct (Nat.eq_dec j i) as [->|]; [lia|]. apply H2. lia.
        - intros [H1 H2]. split; [lia|]. intros j Hj. apply H2. lia. }
      destruct (Z.ltb_spec im 0) as [Hneg|Hnn]; [apply Hstep; lia|].
      rewrite Z.gtb_ltb. destruct (Z.ltb_spec (Z.of_nat k) im) as [Hgt|Hle];
        [|now apply Hstep].
      split; [discriminate|]. intros [_ H]. specialize (H i ltac:(lia)). lia.
    + apply nth_error_None in Him. split; [|reflexivity].
      intros _. split; [lia|]. intros j Hj. lia.
Qed.

(** Construction raises [IndexError] exactly when [index_map] has fewer
    entries than [limits] and none of them exceeds [k], the length of
    [limits]. *)
Theorem lex_init_IndexError_iff {A : Type} (objs : list A)
        (limits index_map increments : list Z) :
  Lex.__init__ objs limits index_map increments = Raise IndexError
  <->
  (length index_map < length limits)%nat /\
  forall j, (j < length index_map)%nat ->
            nth j index_map 0 <= Z.of_nat (length limits).
Proof.
  rewrite lex_init_raise.
  rewrite (store_index_map_IndexError (length limits) index_map
             (length limits) 0)
    by (rewrite ?IntArray_new_length; lia).
  split; intros [H1 H2]; (split; [lia|]); intros j Hj; apply H2; lia.
Qed.

(** ** [count_permutations2] *)

(** [count_permutations2] returns [2! / (m1! * ...)], the [mi] being the
    multiplicities of the distinct labels among its two arguments. *)
Theorem count_permutations2_multinomial (l0 l1 : Z) :
  count_permutations2 Z.eqb l0 l1
  * Z.of_nat (mult_fact_product Z.eqb [l0; l1]) = 2.
Proof.
  unfold count_permutations2, mult_fact_product, mult. simpl.
  repeat match goal with
         | |- context [?a =? ?b] =>
             destruct (Z.eqb_spec a b); try congruence; simpl
         end; reflexivity.
Qed.

(** ** LexicographicIterator: termination *)

Lemma orbit_is_chain (next : list Z -> option (list Z)) :
  forall (f : nat) (t : list Z), is_chain next (orbit next f t).
Proof.
  induction f as [|f IH]; intros t; cbn [orbit]; [exact I|].
  destruct (next t) as [t'|] eqn:E; [|exact I].
  specialize (IH t'). destruct (orbit_head next f t') as [l El].
  rewrite El in *. cbn [is_chain]. split; [exact E|exact IH].
Qed.

Lemma within_Forall2 (lim : list Z) :
  forall t : list Z,
    length t = length lim -> within lim t ->
    Forall2 (fun l x => 0 <= x <= l) lim t.
Proof.
  induction lim as [|l lim IH]; intros [|x t] Hl Hw; try discriminate;
    constructor.
  - exact (Hw 0%nat ltac:(cbn; lia)).
  - apply IH; [cbn in Hl; lia|]. intros i Hi.
    exact (Hw (S i) ltac:(cbn; lia)).
Qed.

Lemma radix_weight_pos (lim : list Z) :
  Forall (fun l => 0 <= l) lim -> 1 <= radix_weight lim.
Proof.
  induction 1 as [|l lim Hl _ IH]; cbn [radix_weight]; [lia|nia].
Qed.

Lemma radix_value_bounds (lim : list Z) :
  forall t : list Z,
    Forall2 (fun l x => 0 <= x <= l) lim t ->
    0 <= radix_value lim t <= radix_weight lim - 1.
Proof.
  induction lim as [|l lim IH]; intros t H; inversion H as [|l' x ls t' Hx Ht];
    subst; cbn [radix_value radix_weight]; [lia|].
  specialize (IH t' Ht). nia.
Qed.

Lemma radix_value_step (lim : list Z) :
  forall (t t' : list Z) (g : nat),
    Forall2 (fun l x => 0 <= x <= l) lim t ->
    Forall2 (fun l x => 0 <= x <= l) lim t' ->
    (g < length lim)%nat ->
    firstn g t' = firstn g t ->
    nth g t' 0 = nth g t 0 + 1 ->
    radix_value lim t < radix_value lim t'.
Proof.
  induction lim as [|l lim IH]; intros t t' g H H' Hg Hf Hn;
    [cbn in Hg; lia|].
  inversion H as [|l1 x ls1 ts Hx Ht]; subst.
  inversion H' as [|l2 x' ls2 ts' Hx' Ht']; subst.
  cbn [radix_value].
  destruct g as [|g].
  - cbn in Hn. subst x'.
    pose proof (radix_value_bounds lim ts Ht).
    pose proof (radix_value_bounds lim ts' Ht'). nia.
  - cbn [firstn] in Hf. inversion Hf as [[Hxx Htl]]; subst. cbn [nth] in Hn.
    specialize (IH ts ts' g Ht Ht' ltac:(cbn in Hg; lia) Htl Hn). lia.
Qed.

Lemma next_lex_prefix (lim im inc t t' : list Z) :
  next_lex lim im inc t = Some t' ->
  exists g, (g < length t)%nat /\
            nth g t 0 < nth g lim 0 /\
            firstn g t' = firstn g t /\
            nth g t' 0 = wrap (nth g t 0 + 1).
Proof.
  unfold next_lex.
  destruct (pscan _ (length t)) as [g|] eqn:Eg; [|discriminate].
  apply pscan_Some in Eg as (Hg & Tg & _). apply Z.ltb_lt in Tg.
  intros E; inversion E; subst t'; clear E.
  set (pre := firstn g t ++ [wrap (nth g t 0 + 1)]).
  assert (Hlp : length pre = (g + 1)%nat)
    by (unfold pre; rewrite length_app, length_firstn; cbn; lia).
  exists g. repeat split; auto.
  - destruct (extend_app im inc (length t - (g + 1)) pre) as (suf & -> & _).
    unfold pre. rewrite <- app_assoc.
    rewrite firstn_app, length_firstn.
    replace (g - Nat.min g (length t))%nat with 0%nat by lia.
    rewrite firstn_0, app_nil_r. rewrite firstn_firstn. f_equal. lia.
  - rewrite extend_prefix by lia. unfold pre.
    replace g with (length (firstn g t)) at 1
      by (rewrite length_firstn; lia).
    apply nth_middle.
Qed.

Section Terminates.
Variables lim im inc : list Z.
Hypothesis Hlen : length im = length lim.
Hypothesis Hback : backward im.
Hypothesis Hlim : forall i, (i < length lim)%nat -> 0 <= nth i lim 0 <= int_max.
Hypothesis Hfit :
  forall i, (i < length lim)%nat -> 0 <= nth i im 0 ->
    0 <= nth i inc 0 /\
    nth (Z.to_nat (nth i im 0)) lim 0 + nth i inc 0 <= nth i lim 0.

Lemma next_lex_increases (t t' : list Z) :
  length t = length lim -> within lim t ->
  next_lex lim im inc t = Some t' ->
  length t' = length lim /\ within lim t' /\
  radix_value lim t < radix_value lim t'.
Proof.
  intros Ht Hw E.
  destruct (next_lex_within lim im inc Hlen Hback Hlim Hfit t t' Ht Hw E)
    as [Ht' Hw'].
  split; [exact Ht'|]. split; [exact Hw'|].
  destruct (next_lex_prefix _ _ _ _ _ E) as (g & Hg & Tg & Hf & Hn).
  apply (radix_value_step lim t t' g); try (now apply within_Forall2);
    try lia; [exact Hf|].
  rewrite Hn. apply wrap_small.
  specialize (Hw g ltac:(lia)). specialize (Hlim g ltac:(lia)).
  assert (int_min = -2147483648) by reflexivity. lia.
Qed.

Lemma lex_orbit_terminates :
  forall (f : nat) (t : list Z),
    length t = length lim -> within lim t ->
    radix_weight lim - 1 <= radix_value lim t + Z.of_nat f ->
    Z.of_nat (length (orbit (next_lex lim im inc) f t))
    <= radix_weight lim - radix_value lim t /\
    next_lex lim im inc (orbit_end (next_lex lim im inc) f t) = None.
Proof.
  induction f as [|f IH]; intros t Ht Hw Hf; cbn [orbit orbit_end length].
  - pose proof (radix_value_bounds lim t (within_Forall2 lim t Ht Hw)) as Hb.
    split; [lia|].
    destruct (next_lex lim im inc t) as [t'|] eqn:E; [exfalso|reflexivity].
    destruct (next_lex_increases t t' Ht Hw E) as (Ht' & Hw' & Hv).
    pose proof (radix_value_bounds lim t' (within_Forall2 lim t' Ht' Hw')).
    lia.
  - pose proof (radix_value_bounds lim t (within_Forall2 lim t Ht Hw)) as Hb.
    destruct (next_lex lim im inc t) as [t'|] eqn:E.
    + destruct (next_lex_increases t t' Ht Hw E) as (Ht' & Hw' & Hv).
      destruct (IH t' Ht' Hw' ltac:(lia)) as [H1 H2].
      split; [cbn [length]; lia|exact H2].
    + split; [cbn; lia|exact E].
Qed.
End Terminates.

Lemma prod_limits_weight (limits : list Z) :
  Forall (fun l => 1 <= l <= int_max) limits ->
  radix_weight (stored_limits limits) = Z.of_nat (prod_limits limits).
Proof.
  assert (int_min = -2147483648) by reflexivity.
  induction 1 as [|l limits Hl _ IH]; [reflexivity|].
  cbn [stored_limits map radix_weight prod_limits fold_right].
  fold (stored_limits limits). fold (prod_limits limits).
  rewrite IH, wrap_small by lia. lia.
Qed.

Lemma nth_error_firstn_lt {B : Type} :
  forall (l : list B) (n m : nat),
    (m < n)%nat -> nth_error (firstn n l) m = nth_error l m.
Proof.
  induction l as [|b l IH]; intros [|n] [|m] H; cbn; try lia; auto.
  apply IH. lia.
Qed.

Lemma nth_error_repeat_lt {B : Type} (b : B) :
  forall (n m : nat), (m < n)%nat -> nth_error (repeat b n) m = Some b.
Proof.
  induction n as [|n IH]; intros [|m] H; cbn; try lia; auto.
  apply IH. lia.
Qed.

(** Under a backward-referring configuration whose rollovers fit below the
    limits the iterator terminates: there is a number [N] of pulls, at
    least one and at most the product of the limits, such that a pull
    raises [StopIteration] exactly when [N] pulls came before it. *)
Theorem lex_well_bounded_terminates {A : Type} (objs : list A)
        (limits index_map increments : list Z) :
  (1 <= length limits)%nat ->
  length index_map = length limits ->
  backward index_map ->
  inc_covers index_map increments ->
  well_bounded limits index_map increments ->
  exists (s : Lex.t A) (N : nat),
    Lex.__init__ objs limits index_map increments = Ok s /\
    (1 <= N <= prod_limits limits)%nat /\
    forall m : nat,
      nth_error (map snd (pulls Lex.__next__ (S m) s)) m
      = Some (Raise StopIteration)
      <-> (N <= m)%nat.
Proof.
  intros Hk Hlen Hb Hc Hwb.
  destruct (well_bounded_stored _ _ _ Hlen Hb Hwb) as [Hl Hf].
  pose proof (backward_stored _ Hb) as Hb'.
  assert (HW : radix_weight (stored_limits limits)
               = Z.of_nat (prod_limits limits)).
  { apply prod_limits_weight. apply Forall_forall. intros l Hin.
    apply In_nth with (d := 0) in Hin as (i & Hi & <-).
    exact (proj1 (Hwb i Hi)). }
  set (lim := stored_limits limits) in *.
  set (im := stored_index_map index_map) in *.
  assert (Hll : length lim = length limits) by (unfold lim; apply length_map).
  assert (Hli : length im = length lim)
    by (unfold im; rewrite stored_index_map_length; lia).
  set (t0 := extend im increments (length limits - 1) [0]).
  assert (Ht0 : length t0 = length lim)
    by (unfold t0; rewrite extend_length; cbn; lia).
  assert (Hw0 : within lim t0).
  { intros j Hj.
    apply (extend_within lim im increments Hli Hb'
             (fun i Hi => proj2 (Hl i Hi)) Hf); cbn; try lia.
    intros x Hx. assert (x = 0%nat) by lia. subst x. cbn.
    destruct (Hl 0%nat ltac:(lia)) as [_ Hr]. lia. }
  set (f := prod_limits limits).
  set (cs := orbit (next_lex lim im increments) f t0).
  pose proof (radix_value_bounds lim t0 (within_Forall2 lim t0 Ht0 Hw0)) as Hv.
  destruct (lex_orbit_terminates lim im increments Hli Hb'
              (fun i Hi => proj2 (Hl i Hi)) Hf f t0 Ht0 Hw0)
    as [Hlen_cs Hend]; [unfold f; lia|].
  fold cs in Hlen_cs.
  destruct (orbit_head (next_lex lim im increments) f t0) as [l0 El].
  fold cs in El.
  destruct (lex_enumerates objs limits index_map increments cs
              Hk Hlen Hb Hc) as (s & Es & Htr).
  - rewrite El. reflexivity.
  - apply orbit_is_chain.
  - unfold cs. rewrite (orbit_last (next_lex lim im increments)). exact Hend.
  - exists s, (length cs). split; [exact Es|].
    split; [rewrite El in *; cbn [length] in *; lia|].
    intros m.
    replace (map snd (pulls Lex.__next__ (S m) s))
      with (map snd (map lex_view (pulls Lex.__next__ (S m) s)))
      by (rewrite map_map; reflexivity).
    rewrite Htr, nth_error_map, nth_error_firstn_lt by lia.
    destruct (Nat.lt_ge_cases m (length cs)) as [Hlt|Hge].
    + rewrite nth_error_app1 by (rewrite length_map; lia).
      rewrite nth_error_map.
      destruct (nth_error cs m) as [c|] eqn:Ec;
        [|apply nth_error_None in Ec; lia].
      cbn [option_map entry snd]. split; [|lia].
      intros E. inversion E as [E'].
      now apply map_to_tuple_not_StopIteration in E'.
    + rewrite nth_error_app2 by (rewrite length_map; lia).
      rewrite length_map, nth_error_repeat_lt by lia.
      cbn. split; [lia|reflexivity].
Qed.

Lemma lex_well_bounded_terminates_witness :
  exists (s : Lex.t string) (N : nat),
    Lex.__init__ abc [2; 3] [-1; 0] [0; 1] = Ok s /\
    (1 <= N <= prod_limits [2%Z; 3%Z])%nat /\
    forall m : nat,
      nth_error (map snd (pulls Lex.__next__ (S m) s)) m
      = Some (Raise StopIteration)
      <-> (N <= m)%nat.
Proof.
  apply (lex_well_bounded_terminates abc [2; 3] [-1; 0] [0; 1]).
  - cbn. lia.
  - reflexivity.
  - exact backward_example.
  - exact inc_covers_example.
  - exact well_bounded_example.
Defined.
